(** * Kokoru Garden API: the authentication and session-security core

    A shallow embedding of the auth module of the repository
    (password.service.ts, token.service.ts, rate-limiter.service.ts,
    user.repository.ts, oauth.service.ts, auth.service.ts,
    auth.middleware.ts) together with
    the properties of its specification that were checked against it.

    Conventions.
    - Instants are integers: milliseconds since the epoch ([Date.now()]),
      except the [iat]/[exp] claims of a token, which are seconds.
    - A function that can throw returns a [result]; a function that also
      writes to a store returns the store after the call, also when it
      throws (what was written before the throw stays written).
    - The clock is read once per service call: the argument [now].
    - A string is kept as the bytes of its UTF-8 text; lengths, cuts
      and character classes are those of JavaScript, in UTF-16 code
      units (module [Js]).
    - [jwt.sign] first checks the payload against the options, as the
      library does, and only then signs (the definition [jwt_sign]). *)

From Stdlib Require Import ZArith List String Ascii Bool Lia.
From stdpp Require Import base option list gmap strings.

Local Open Scope string_scope.
Local Open Scope Z_scope.

(** ** Errors and results *)

(** The error classes of src/shared/errors, and [JsError] for a plain
    [Error] thrown by a collaborator.  [AccountLockedError] carries the
    minutes its message names, when the message names any. *)
Inductive error : Type :=
  | ValidationError
  | ConflictError
  | AuthenticationError (message : string)
  | AuthorizationError
  | NotFoundError
  | RateLimitError
  | AccountLockedError (lockTimeMinutes : option Z)
  | TokenExpiredError
  | InvalidTokenError
  | DatabaseError
  | UniqueConstraintError
  | JsError (message : string).

Inductive result (A : Type) : Type :=
  | Ok (a : A)
  | Throw (e : error).
Arguments Ok {A} a.
Arguments Throw {A} e.

(** A JavaScript number as far as the code needs it: an integer or NaN. *)
Inductive jsnum : Type :=
  | Num (z : Z)
  | NaN.

Definition js_ge (a : jsnum) (b : Z) : bool :=
  match a with Num z => b <=? z | NaN => false end.

(** [Math.max(0, b - a)]. *)
Definition js_max0_sub (b : Z) (a : jsnum) : jsnum :=
  match a with Num z => Num (Z.max 0 (b - z)) | NaN => NaN end.

(** ** Tokens as the JWT library sees them *)
Module Jwt.

(** The claims of a token: the payload fields of the module and the
    registered claims the library adds from the sign options. *)
Record claims : Type := {
  userId : string;
  email : string;
  sessionId : string;
  type : string;
  iat : option Z;
  exp : option Z;
  nbf : option Z;
  iss : option string;
  aud : option string;
  sub : option string;
}.

(** A well-formed compact token: its claims and, when its signature is
    genuine, the secret it was signed with. *)
Record token : Type := {
  payload : claims;
  signer : option string;
}.

Record SignOptions : Type := {
  expiresIn : Z;
  issuer : string;
  audience : option string;
  subject : option string;
}.

(** What [jwt.verify] throws. Both are [JsonWebTokenError]s; the expiry
    error is the subclass the module tests for first. *)
Inductive verify_error : Type :=
  | JwtTokenExpired
  | JsonWebTokenError.

(** A name between double quotes, as the messages of the library write
    it. *)
Definition quoted (s : string) : string :=
  String (ascii_of_nat 34) (s +:+ String (ascii_of_nat 34) EmptyString).

(** The messages of the plain [Error]s that [jwt.sign] throws when an
    option would set a claim that the payload already has. *)
Definition bad_expiresIn : string :=
  "Bad " +:+ quoted "options.expiresIn" +:+ " option the payload already has an "
  +:+ quoted "exp" +:+ " property.".

Definition bad_option (key claim : string) : string :=
  "Bad " +:+ quoted ("options." +:+ key) +:+ " option. The payload already has an "
  +:+ quoted claim +:+ " property.".

End Jwt.

(** What the identity provider asserts about a signed-in Google user (the
    fields of the verified ID token that the module reads). *)
Record GooglePayload : Type := {
  g_sub : string;
  g_email : string;
  g_name : string;
  g_given_name : string;
  g_family_name : string;
  g_picture : option string;
  g_email_verified : bool;
}.

(** ** Primitives the module takes from its libraries

    Hashing, the JWT codec, the identity provider and [parseInt] on
    arbitrary text are library code; the development is parametric in
    them.  A primitive that can throw returns a [result]. *)
Class Primitives : Type := {
  (** [createHash('sha256').update(s).digest('hex')] *)
  sha256_hex : string -> string;
  (** [parseInt(s)] on a string that is not the decimal writing of an
      integer (those are kept as [RInt], see below) *)
  parseInt_text : string -> jsnum;
  (** the signing proper of [jwt.sign(payload, secret, options)] at the
      given second, once the library has accepted the payload and the
      options *)
  jwt_encode : Z -> Jwt.claims -> string -> Jwt.SignOptions -> result string;
  (** the structural decoding of a token string, [None] when malformed *)
  jwt_parse : string -> option Jwt.token;
  (** [argon2.hash], [argon2.verify], [argon2.needsRehash] *)
  argon2_hash : string -> result string;
  argon2_verify : string -> string -> result bool;
  argon2_needsRehash : string -> result bool;
  (** the code exchange and ID-token verification of the Google client,
      [None] when any step fails *)
  google_verify_code : string -> option GooglePayload;
}.

Definition is_some {A} (o : option A) : bool :=
  match o with Some _ => true | None => false end.

(** [jwt.sign(payload, secret, options)] at the given second.  Before it
    signs, the library checks the options against the payload: with the
    option expiresIn, which every call of the module gives, a payload
    that has an [exp] claim already is refused, and so is a payload with
    the claim that the option audience, issuer or subject would set.  It
    throws a plain [Error].  (The one check the library makes before
    these is that the secret is not empty; the constructor of the token
    service has refused a configuration with an empty secret before any
    token is signed, in validateConfig.) *)
Definition jwt_sign `{Primitives} (now : Z) (payload : Jwt.claims) (secret : string)
    (options : Jwt.SignOptions) : result string :=
  if is_some (Jwt.exp payload) then Throw (JsError Jwt.bad_expiresIn)
  else if is_some (Jwt.audience options) && is_some (Jwt.aud payload)
  then Throw (JsError (Jwt.bad_option "audience" "aud"))
  else if is_some (Jwt.iss payload)
  then Throw (JsError (Jwt.bad_option "issuer" "iss"))
  else if is_some (Jwt.subject options) && is_some (Jwt.sub payload)
  then Throw (JsError (Jwt.bad_option "subject" "sub"))
  else jwt_encode now payload secret options.

(** ** The key-value store (the Redis commands the module uses) *)
Module Redis.

(** A stored string.  The decimal writing of an integer [n], which is
    what INCR and [SET key Date.now()] leave, is kept as [RInt n]; any
    other string as [RStr], but for the JSON text of a session record,
    kept as [RSession] with its three fields. *)
Inductive rvalue : Type :=
  | RInt (n : Z)
  | RStr (s : string)
  | RSession (userId email : string) (createdAt : Z).

(** A key's value and the instant (ms) at which it expires, if any. *)
Record entry : Type := Entry {
  ent_value : rvalue;
  ent_expire : option Z;
}.

Abbreviation store := (gmap string entry).

(** A key is gone once the clock is past its expiry. *)
Definition expired (now : Z) (e : entry) : bool :=
  match ent_expire e with
  | Some t => t <? now
  | None => false
  end.

Definition lookup_live (now : Z) (r : store) (k : string) : option entry :=
  match r !! k with
  | Some e => if expired now e then None else Some e
  | None => None
  end.

Definition get (now : Z) (r : store) (k : string) : option rvalue :=
  ent_value <$> lookup_live now r k.

Definition exists_ (now : Z) (r : store) (k : string) : Z :=
  match lookup_live now r k with Some _ => 1 | None => 0 end.

(** TTL: -2 for a missing key, -1 for a key without expiry, else the
    remaining time rounded to the nearest second. *)
Definition ttl (now : Z) (r : store) (k : string) : Z :=
  match lookup_live now r k with
  | None => -2
  | Some e =>
      match ent_expire e with
      | None => -1
      | Some t => (t - now + 500) / 1000
      end
  end.

Definition int64_max : Z := 9223372036854775807.

(** INCR: a missing key counts as 0; the expiry of a live key is kept. *)
Definition incr (now : Z) (r : store) (k : string) : result Z * store :=
  match lookup_live now r k with
  | None => (Ok 1, <[k := Entry (RInt 1) None]> r)
  | Some e =>
      match ent_value e with
      | RInt n =>
          if n <? int64_max
          then (Ok (n + 1), <[k := Entry (RInt (n + 1)) (ent_expire e)]> r)
          else (Throw (JsError "ERR increment or decrement would overflow"), r)
      | _ =>
          (Throw (JsError "ERR value is not an integer or out of range"), r)
      end
  end.

(** EXPIRE key seconds. *)
Definition expire (now : Z) (r : store) (k : string) (seconds : Z) : Z * store :=
  match lookup_live now r k with
  | None => (0, r)
  | Some e =>
      if seconds <=? 0 then (1, delete k r)
      else (1, <[k := Entry (ent_value e) (Some (now + seconds * 1000))]> r)
  end.

(** SETEX key seconds value, and SET key value EX seconds. *)
Definition setex (now : Z) (r : store) (k : string) (seconds : Z) (v : rvalue)
  : result unit * store :=
  if seconds <=? 0
  then (Throw (JsError "ERR invalid expire time"), r)
  else (Ok tt, <[k := Entry v (Some (now + seconds * 1000))]> r).

Definition del (r : store) (k : string) : store := delete k r.

End Redis.

(** ** rate-limiter.service.ts *)
Module RateLimiterService.
Import Redis.

Definition MAX_LOGIN_ATTEMPTS : Z := 5.
Definition LOGIN_WINDOW : Z := 15 * 60.
Definition EMAIL_RESEND_DELAY : Z := 60.

Definition login_key (userId : string) : string := "login_attempts:" +:+ userId.
Definition resend_key (userId : string) : string := "email_resend:" +:+ userId.

Record LoginCheck : Type := {
  canAttempt : bool;
  attemptsRemaining : jsnum;
  lockedUntil : option Z;
}.

Record ResendCheck : Type := {
  canResend : bool;
  nextAllowedAt : option jsnum;
}.

Section WithPrimitives.
Context `{Primitives}.

(** [parseInt(v || '0')] on what GET returned. *)
Definition parseInt_or_zero (v : option rvalue) : jsnum :=
  match v with
  | None => Num 0
  | Some (RInt n) => Num n
  | Some (RStr s) => if String.eqb s "" then Num 0 else parseInt_text s
  | Some (RSession _ _ _) => NaN
  end.

Definition checkLoginAttempts (now : Z) (r : store) (userId : string) : LoginCheck :=
  let key := login_key userId in
  let attemptCount := parseInt_or_zero (get now r key) in
  if js_ge attemptCount MAX_LOGIN_ATTEMPTS && (0 <? ttl now r key)
  then {| canAttempt := false;
          attemptsRemaining := Num 0;
          lockedUntil := Some (now + ttl now r key * 1000) |}
  else {| canAttempt := true;
          attemptsRemaining := js_max0_sub MAX_LOGIN_ATTEMPTS attemptCount;
          lockedUntil := None |}.

Definition recordFailedLogin (now : Z) (r : store) (userId : string)
  : result unit * store :=
  let key := login_key userId in
  match incr now r key with
  | (Throw e, r1) => (Throw e, r1)
  | (Ok attempts, r1) =>
      if attempts =? 1
      then (Ok tt, snd (expire now r1 key LOGIN_WINDOW))
      else (Ok tt, r1)
  end.

Definition resetLoginAttempts (r : store) (userId : string) : store :=
  del r (login_key userId).

(** [if (lastSent)]: a non-empty string. *)
Definition truthy (v : option rvalue) : bool :=
  match v with
  | None => false
  | Some (RInt _) => true
  | Some (RStr s) => negb (String.eqb s "")
  | Some (RSession _ _ _) => true
  end.

Definition parseInt (v : option rvalue) : jsnum :=
  match v with
  | None => NaN
  | Some (RInt n) => Num n
  | Some (RStr s) => parseInt_text s
  | Some (RSession _ _ _) => NaN
  end.

Definition js_add (a : jsnum) (b : Z) : jsnum :=
  match a with Num z => Num (z + b) | NaN => NaN end.

(** [Date.now() - parseInt(lastSent) < delay]. *)
Definition within_delay (now : Z) (lastSent : jsnum) (delay : Z) : bool :=
  match lastSent with
  | Num z => now - z <? delay
  | NaN => false
  end.

Definition checkEmailResend (now : Z) (r : store) (userId : string)
  : result ResendCheck * store :=
  let key := resend_key userId in
  let lastSent := get now r key in
  if truthy lastSent && within_delay now (parseInt lastSent) (EMAIL_RESEND_DELAY * 1000)
  then (Ok {| canResend := false;
              nextAllowedAt := Some (js_add (parseInt lastSent) (EMAIL_RESEND_DELAY * 1000)) |},
        r)
  else
    match setex now r key EMAIL_RESEND_DELAY (RInt now) with
    | (Throw e, r1) => (Throw e, r1)
    | (Ok _, r1) => (Ok {| canResend := true; nextAllowedAt := None |}, r1)
    end.

(** The login-failure calls of one identity, at the given instants. *)
Fixpoint recordFailedLogins (times : list Z) (r : store) (userId : string) : store :=
  match times with
  | [] => r
  | t :: rest => recordFailedLogins rest (snd (recordFailedLogin t r userId)) userId
  end.

End WithPrimitives.
End RateLimiterService.

(** ** token.service.ts *)
Module TokenService.
Import Redis.

Record TokenServiceConfig : Type := {
  jwtAccessSecret : string;
  jwtRefreshSecret : string;
  (** the expiry settings, in seconds *)
  jwtAccessExpiry : Z;
  jwtRefreshExpiry : Z;
  issuer : string;
}.

(** auth.types.ts, [JwtPayload]. *)
Record JwtPayload : Type := {
  userId : string;
  email : string;
  iat : option Z;
  exp : option Z;
}.

Definition BLACKLIST_PREFIX : string := "token:blacklist:".
Definition REFRESH_PREFIX : string := "token:refresh:".
Definition SESSION_PREFIX : string := "session:".

Section WithPrimitives.
Context `{Primitives}.
Variable config : TokenServiceConfig.

(** [jwt.verify(token, secret, { issuer, audience })]: structure and
    signature first, then not-before, expiry, audience and issuer, in
    the order of the library.  An empty [issuer] option is not
    checked. *)
Definition jwt_verify (now : Z) (token secret issuer : string)
    (audience : option string) : Jwt.claims + Jwt.verify_error :=
  match jwt_parse token with
  | None => inr Jwt.JsonWebTokenError
  | Some t =>
      let c := Jwt.payload t in
      let clock := now / 1000 in
      if negb (bool_decide (Jwt.signer t = Some secret)) then inr Jwt.JsonWebTokenError
      else if match Jwt.nbf c with Some n => clock <? n | None => false end
      then inr Jwt.JsonWebTokenError
      else if match Jwt.exp c with Some e => e <=? clock | None => false end
      then inr Jwt.JwtTokenExpired
      else if match audience with
              | Some a => negb (bool_decide (Jwt.aud c = Some a))
              | None => false
              end
      then inr Jwt.JsonWebTokenError
      else if negb (String.eqb issuer "") && negb (bool_decide (Jwt.iss c = Some issuer))
      then inr Jwt.JsonWebTokenError
      else inl c
  end.

(** [jwt.decode(token)]: the payload, without any verification. *)
Definition jwt_decode (token : string) : option Jwt.claims :=
  Jwt.payload <$> jwt_parse token.

Definition hashToken (token : string) : string := sha256_hex token.

Definition isTokenBlacklisted (now : Z) (r : store) (token : string) : bool :=
  exists_ now r (BLACKLIST_PREFIX +:+ hashToken token) =? 1.

(** The payload and what the call logs: the blacklist lookup runs
    detached from the return and only logs. *)
Definition verifyAccessToken (now : Z) (r : store) (token : string)
  : result JwtPayload * list string :=
  match jwt_verify now token (jwtAccessSecret config) (issuer config)
          (Some "kokoru-garden") with
  | inl decoded =>
      (Ok {| userId := Jwt.userId decoded;
             email := Jwt.email decoded;
             iat := Jwt.iat decoded;
             exp := Jwt.exp decoded |},
       if isTokenBlacklisted now r token
       then ["Attempted to use blacklisted token"]
       else [])
  | inr Jwt.JwtTokenExpired => (Throw TokenExpiredError, [])
  | inr Jwt.JsonWebTokenError => (Throw InvalidTokenError, [])
  end.

Definition verifyRefreshToken (now : Z) (token : string) : result JwtPayload :=
  match jwt_verify now token (jwtRefreshSecret config) (issuer config) None with
  | inl decoded =>
      Ok {| userId := Jwt.userId decoded;
            email := "";
            iat := Jwt.iat decoded;
            exp := Jwt.exp decoded |}
  | inr Jwt.JwtTokenExpired => Throw TokenExpiredError
  | inr Jwt.JsonWebTokenError => Throw InvalidTokenError
  end.

(** [!decoded.exp]: no expiry claim, or the number 0. *)
Definition revokeToken (now : Z) (r : store) (token : string) : result unit * store :=
  match jwt_decode token with
  | None => (Ok tt, r)
  | Some decoded =>
      match Jwt.exp decoded with
      | None => (Ok tt, r)
      | Some e =>
          if e =? 0 then (Ok tt, r)
          else
            let ttl := e - now / 1000 in
            if ttl <=? 0 then (Ok tt, r)
            else
              match setex now r (BLACKLIST_PREFIX +:+ hashToken token) ttl (RInt 1) with
              | (Ok _, r1) => (Ok tt, r1)
              | (Throw _, r1) => (Throw InvalidTokenError, r1)
              end
      end
  end.

(** The session record written next to an access token: best effort,
    a failure of the store is logged and nothing else. *)
Definition storeSession (now : Z) (r : store) (sid : string) (p : JwtPayload)
  : store * list string :=
  match setex now r (SESSION_PREFIX +:+ sid) (jwtRefreshExpiry config)
          (RSession (userId p) (email p) now) with
  | (Ok _, r1) => (r1, [])
  | (Throw _, r1) => (r1, ["Failed to store session"])
  end.

Definition generateAccessToken (now : Z) (r : store) (sid : string) (p : JwtPayload)
  : result string * store * list string :=
  if String.eqb (userId p) "" then (Throw InvalidTokenError, r, [])
  else
    let tokenPayload :=
      {| Jwt.userId := userId p; Jwt.email := email p;
         Jwt.sessionId := sid; Jwt.type := "access";
         Jwt.iat := iat p; Jwt.exp := exp p; Jwt.nbf := None;
         Jwt.iss := None; Jwt.aud := None; Jwt.sub := None |} in
    let signOptions :=
      {| Jwt.expiresIn := jwtAccessExpiry config;
         Jwt.issuer := issuer config;
         Jwt.audience := Some "kokoru-garden";
         Jwt.subject := Some (userId p) |} in
    match jwt_sign (now / 1000) tokenPayload (jwtAccessSecret config) signOptions with
    | Throw e => (Throw e, r, [])
    | Ok token =>
        let '(r1, l) := storeSession now r sid p in
        (Ok token, r1, l)
    end.

Definition generateRefreshToken (now : Z) (r : store) (sid : string) (p : JwtPayload)
  : result string * store * list string :=
  if String.eqb (userId p) "" then (Throw InvalidTokenError, r, [])
  else
    let tokenPayload :=
      {| Jwt.userId := userId p; Jwt.email := "";
         Jwt.sessionId := sid; Jwt.type := "refresh";
         Jwt.iat := None; Jwt.exp := None; Jwt.nbf := None;
         Jwt.iss := None; Jwt.aud := None; Jwt.sub := None |} in
    let signOptions :=
      {| Jwt.expiresIn := jwtRefreshExpiry config;
         Jwt.issuer := issuer config;
         Jwt.audience := None;
         Jwt.subject := None |} in
    match jwt_sign (now / 1000) tokenPayload (jwtRefreshSecret config) signOptions with
    | Throw e => (Throw e, r, [])
    | Ok token =>
        match setex now r (REFRESH_PREFIX +:+ sid) (jwtRefreshExpiry config) (RStr token) with
        | (Ok _, r1) => (Ok token, r1, [])
        | (Throw _, r1) => (Ok token, r1, ["Failed to store refresh token"])
        end
    end.

End WithPrimitives.

(** What [JSON.parse] gives on the texts the module keeps in the
    key-value store: a number, the record of an email or reset token, a
    session record, or something else. *)
Inductive json : Type :=
  | JNumber (n : Z)
  | JUser (userId email : string)
  | JSession (userId email : string) (createdAt : Z)
  | JOther.

(** [data.userId], when it is a string. *)
Definition json_userId (data : json) : option string :=
  match data with
  | JUser u _ => Some u
  | JSession u _ _ => Some u
  | JNumber _ | JOther => None
  end.

Section WithJson.
Context `{Primitives}.

(** [JSON.stringify({ userId, email })], and [JSON.parse] on a stored
    text that is neither the writing of an integer nor a session record
    (those are [RInt] and [RSession] in the store); it throws on a text
    that is not JSON. *)
Variable json_user : string -> string -> string.
Variable json_parse : string -> result json.

Definition parse_value (v : rvalue) : result json :=
  match v with
  | RInt n => Ok (JNumber n)
  | RStr s => json_parse s
  | RSession u e c => Ok (JSession u e c)
  end.

(** [!data] on what GET returned. *)
Definition no_data (v : option rvalue) : bool :=
  match v with
  | None => true
  | Some (RStr s) => String.eqb s ""
  | Some _ => false
  end.

Definition EMAIL_TOKEN_PREFIX : string := "token:email:".
Definition RESET_TOKEN_PREFIX : string := "token:reset:".

(** The token is [generateRandomToken()], given as [random]. *)
Definition generateEmailToken (now : Z) (r : store) (random userId email : string)
  : result string * store :=
  let token := random in
  let hashedToken := hashToken token in
  match setex now r (EMAIL_TOKEN_PREFIX +:+ hashedToken) 86400
          (RStr (json_user userId email)) with
  | (Ok _, r1) => (Ok token, r1)
  | (Throw e, r1) => (Throw e, r1)
  end.

Definition generateResetToken (now : Z) (r : store) (random userId email : string)
  : result string * store :=
  let token := random in
  let hashedToken := hashToken token in
  match setex now r (RESET_TOKEN_PREFIX +:+ hashedToken) 3600
          (RStr (json_user userId email)) with
  | (Ok _, r1) => (Ok token, r1)
  | (Throw e, r1) => (Throw e, r1)
  end.

(** The key is deleted before the text is parsed. *)
Definition verifyEmailToken (now : Z) (r : store) (token : string) : result json * store :=
  let hashedToken := hashToken token in
  let data := get now r (EMAIL_TOKEN_PREFIX +:+ hashedToken) in
  match data with
  | Some v =>
      if no_data data then (Throw InvalidTokenError, r)
      else (parse_value v, del r (EMAIL_TOKEN_PREFIX +:+ hashedToken))
  | None => (Throw InvalidTokenError, r)
  end.

Definition verifyResetToken (now : Z) (r : store) (token : string) : result json * store :=
  let hashedToken := hashToken token in
  let data := get now r (RESET_TOKEN_PREFIX +:+ hashedToken) in
  match data with
  | Some v =>
      if no_data data then (Throw InvalidTokenError, r)
      else (parse_value v, del r (RESET_TOKEN_PREFIX +:+ hashedToken))
  | None => (Throw InvalidTokenError, r)
  end.

(** [key.replace(SESSION_PREFIX, '')] on a key that starts with the
    prefix. *)
Definition sessionId_of_key (key : string) : string :=
  String.substring (String.length SESSION_PREFIX)
    (String.length key - String.length SESSION_PREFIX) key.

(** The loop of [revokeAllUserTokens] over the scanned keys: the keys it
    queues for deletion, unless a session text fails to parse. *)
Fixpoint queue_deletions (now : Z) (r : store) (userId : string) (keys : list string)
  : result (list string) :=
  match keys with
  | [] => Ok []
  | key :: rest =>
      let session := get now r key in
      match session with
      | Some v =>
          if no_data session then queue_deletions now r userId rest
          else
            match parse_value v with
            | Throw e => Throw e
            | Ok data =>
                if bool_decide (json_userId data = Some userId)
                then match queue_deletions now r userId rest with
                     | Ok queued =>
                         Ok (key :: (REFRESH_PREFIX +:+ sessionId_of_key key) :: queued)
                     | Throw e => Throw e
                     end
                else queue_deletions now r userId rest
            end
      | None => queue_deletions now r userId rest
      end
  end.

(** A live, non-empty session text of [userId] under [key]. *)
Definition session_of (now : Z) (r : store) (userId key : string) : Prop :=
  exists v d, get now r key = Some v /\ no_data (Some v) = false
              /\ parse_value v = Ok d /\ json_userId d = Some userId.

(** SCAN with the pattern of the session keys. *)
Definition scan_sessions (r : store) : list string :=
  List.filter (String.prefix SESSION_PREFIX) (map fst (map_to_list r)).

(** The deletions run as one pipeline after the scan; a failure during
    the scan is thrown again as InvalidTokenError before anything is
    deleted. *)
Definition revokeAllUserTokens (now : Z) (r : store) (userId : string)
  : result unit * store :=
  match queue_deletions now r userId (scan_sessions r) with
  | Ok queued => (Ok tt, foldr delete r queued)
  | Throw _ => (Throw InvalidTokenError, r)
  end.

End WithJson.
End TokenService.

(** ** Strings as JavaScript uses them here *)
Module Js.

(** A JavaScript string is kept as the bytes of the UTF-8 writing of
    its text.  JavaScript itself counts and matches in UTF-16 code
    units: a character of the basic plane is one unit, any other
    character two.  [code_points] gives the characters of a string,
    each as the bytes that write it, and the functions below that
    depend on characters or units go through it. *)
Definition chars (s : string) : list ascii := list_ascii_of_string s.

Definition in_range (lo hi : string) (c : ascii) : bool :=
  match chars lo, chars hi with
  | [l], [h] => (nat_of_ascii l <=? nat_of_ascii c)%nat && (nat_of_ascii c <=? nat_of_ascii h)%nat
  | _, _ => false
  end.

Definition is_upper : ascii -> bool := in_range "A" "Z".
Definition is_lower : ascii -> bool := in_range "a" "z".
Definition is_digit : ascii -> bool := in_range "0" "9".

(** [regex.test(s)] for a one-character class of ASCII characters: in
    UTF-8 a byte below 128 is always a character of its own. *)
Definition test_class (cls : ascii -> bool) (s : string) : bool :=
  existsb cls (chars s).

(** [s.slice(0, -1)], for a string of ASCII characters. *)
Definition drop_last (s : string) : string :=
  string_of_list_ascii (removelast (chars s)).

(** [!s]: the empty string is the only falsy string. *)
Definition falsy (s : string) : bool := String.eqb s "".

(** A byte that is an ASCII character. *)
Definition is_ascii (c : ascii) : bool := (nat_of_ascii c <? 128)%nat.

(** A byte that continues the writing of a character. *)
Definition is_continuation (c : ascii) : bool :=
  (128 <=? nat_of_ascii c)%nat && (nat_of_ascii c <? 192)%nat.

(** The characters of a string: each byte that is not a continuation
    byte starts one, and takes the continuation bytes after it. *)
Fixpoint code_points (l : list ascii) : list (list ascii) :=
  match l with
  | [] => []
  | c :: rest =>
      let gs := code_points rest in
      match rest, gs with
      | d :: _, g :: gs' => if is_continuation d then (c :: g) :: gs' else [c] :: gs
      | _, _ => [c] :: gs
      end
  end.

(** The code point that the bytes of a character write. *)
Definition code_point (g : list ascii) : N :=
  match g with
  | [a] => N_of_ascii a
  | [a; b] => (N_of_ascii a mod 32) * 64 + N_of_ascii b mod 64
  | [a; b; c] =>
      (N_of_ascii a mod 16) * 4096 + (N_of_ascii b mod 64) * 64 + N_of_ascii c mod 64
  | [a; b; c; d] =>
      (N_of_ascii a mod 8) * 262144 + (N_of_ascii b mod 64) * 4096
      + (N_of_ascii c mod 64) * 64 + N_of_ascii d mod 64
  | _ => 0
  end%N.

(** The UTF-16 code units of a character, and [s.length]. *)
Definition units (g : list ascii) : nat :=
  if (65536 <=? code_point g)%N then 2%nat else 1%nat.

Definition length (s : string) : nat :=
  list_sum (map units (code_points (chars s))).

Definition to_lower_char (c : ascii) : ascii :=
  if is_upper c then ascii_of_nat (nat_of_ascii c + 32) else c.

(** The lower case of one character.  Two characters outside ASCII
    have a lower case with an ASCII letter in it: the Kelvin sign
    (U+212A) becomes k, and the capital I with a dot (U+0130) becomes i
    followed by the combining dot (U+0307).  The lower case of every
    other character outside ASCII is outside ASCII, as the character
    is; the module tests the result against ASCII characters only, and
    these characters are left as they are. *)
Definition lower_char (g : list ascii) : list ascii :=
  if (code_point g =? 8490)%N then ["k"%char]
  else if (code_point g =? 304)%N then ["i"%char; ascii_of_nat 204; ascii_of_nat 135]
  else match g with
       | c :: continuation => to_lower_char c :: continuation
       | [] => []
       end.

(** [s.toLowerCase()]. *)
Definition toLowerCase (s : string) : string :=
  string_of_list_ascii (concat (map lower_char (code_points (chars s)))).

(** White space and line terminators, by code point: tab, line feed,
    vertical tab, form feed, carriage return, space, no-break space,
    the space separators U+1680, U+2000 to U+200A, U+202F, U+205F and
    U+3000, the line and paragraph separators, and the byte order
    mark. *)
Definition is_space (cp : N) : bool :=
  ((9 <=? cp) && (cp <=? 13) || (cp =? 32) || (cp =? 160) || (cp =? 5760)
   || (8192 <=? cp) && (cp <=? 8202) || (cp =? 8232) || (cp =? 8233)
   || (cp =? 8239) || (cp =? 8287) || (cp =? 12288) || (cp =? 65279))%N.

Fixpoint drop_space (gs : list (list ascii)) : list (list ascii) :=
  match gs with
  | g :: rest => if is_space (code_point g) then drop_space rest else gs
  | [] => []
  end.

(** [s.trim()]. *)
Definition trim (s : string) : string :=
  string_of_list_ascii
    (concat (rev (drop_space (rev (drop_space (code_points (chars s))))))).

(** The characters that fit in [n] code units.  (Where a character of
    two units straddles the cut, JavaScript keeps its first unit, which
    is no character: it is left out.) *)
Fixpoint take_units (n : nat) (gs : list (list ascii)) : list (list ascii) :=
  match gs with
  | g :: rest => if (units g <=? n)%nat then g :: take_units (n - units g) rest else []
  | [] => []
  end.

(** [s.substring(0, n)]. *)
Definition prefix (n : nat) (s : string) : string :=
  string_of_list_ascii (concat (take_units n (code_points (chars s)))).

End Js.

(** What a [try { body } catch { handler }] block evaluates to. *)
Definition try_catch {A} (body : result A) (handler : error -> result A) : result A :=
  match body with
  | Ok a => Ok a
  | Throw e => handler e
  end.

Definition rbind {A B} (m : result A) (k : A -> result B) : result B :=
  match m with
  | Ok a => k a
  | Throw e => Throw e
  end.

(** ** password.service.ts *)
Module PasswordService.

Record PasswordServiceConfig : Type := {
  minLength : Z;
  requireUppercase : bool;
  requireLowercase : bool;
  requireNumbers : bool;
  requireSpecialChars : bool;
}.

Definition defaultConfig : PasswordServiceConfig :=
  {| minLength := 8;
     requireUppercase := true;
     requireLowercase := true;
     requireNumbers := true;
     requireSpecialChars := false |}.

Definition hasUppercase : string -> bool := Js.test_class Js.is_upper.
Definition hasLowercase : string -> bool := Js.test_class Js.is_lower.
Definition hasNumber : string -> bool := Js.test_class Js.is_digit.

(** The characters of the class of [hasSpecialChar]; the double quote
    is given by its code. *)
Definition special_chars : list ascii :=
  ascii_of_nat 34 :: Js.chars "!@#$%^&*()_+-=[]{};':\|,.<>/?".

Definition is_special (c : ascii) : bool :=
  existsb (Ascii.eqb c) special_chars.

Definition hasSpecialChar : string -> bool := Js.test_class is_special.

Definition charset : string :=
  "abcdefghijklmnopqrstuvwxyzABCDEFGHIJKLMNOPQRSTUVWXYZ0123456789!@#$%^&*".

Definition length : nat := 12.

(** [charset[b % charset.length]]. *)
Definition pick (b : Byte.byte) : ascii :=
  nth (N.to_nat (Byte.to_N b mod N.of_nat (String.length charset)))
      (Js.chars charset) Ascii.zero.

(** The loop over the first [length] bytes of the random buffer. *)
Definition draw (randomBytesBuffer : list Byte.byte) : string :=
  string_of_list_ascii
    (map (fun i => pick (nth i randomBytesBuffer Byte.x00)) (seq 0 length)).

Definition generateTemporaryPassword (config : PasswordServiceConfig)
    (randomBytesBuffer : list Byte.byte) : string :=
  let password := draw randomBytesBuffer in
  let password :=
    if negb (hasUppercase password) then Js.drop_last password +:+ "A" else password in
  let password :=
    if negb (hasLowercase password) then Js.drop_last password +:+ "a" else password in
  let password :=
    if negb (hasNumber password) then Js.drop_last password +:+ "1" else password in
  let password :=
    if requireSpecialChars config && negb (hasSpecialChar password)
    then Js.drop_last password +:+ "!" else password in
  password.

Section WithPrimitives.
Context `{Primitives}.

Definition hash (password : string) : result string :=
  try_catch
    (if Js.falsy password
     then Throw (JsError "Password must be a non-empty string")
     else argon2_hash password)
    (fun _ => Throw (JsError "Failed to process password")).

Definition verify (hash password : string) : result bool :=
  try_catch
    (if Js.falsy hash || Js.falsy password then Ok false
     else
       rbind (argon2_verify hash password) (fun isValid =>
       if isValid
       then rbind (argon2_needsRehash hash) (fun _ => Ok isValid)
       else Ok isValid))
    (fun _ => Ok false).

Definition compare (password hash : string) : result bool :=
  verify hash password.

(** [needsRehash] of the service: a failure of the library reads as "no
    rehash needed". *)
Definition needsRehash (hash : string) : result bool :=
  try_catch (argon2_needsRehash hash) (fun _ => Ok false).

End WithPrimitives.

(** [sub] occurs in [s]. *)
Fixpoint contains (sub s : string) : bool :=
  String.prefix sub s ||
  match s with
  | String _ rest => contains sub rest
  | EmptyString => false
  end.

(** The patterns of [hasCommonPatterns], tested on the lower-cased
    password. *)
Definition commonPatterns : list string :=
  ["123"; "abc"; "qwerty"; "password"; "admin"; "letmein"; "welcome"; "monkey"; "dragon"].

Definition hasCommonPatterns (password : string) : bool :=
  existsb (fun pattern => contains pattern (Js.toLowerCase password)) commonPatterns.

(** The dot of a regular expression matches one code unit, any but the
    line terminators (line feed, carriage return, U+2028, U+2029). *)
Definition is_line_terminator (cp : N) : bool :=
  ((cp =? 10) || (cp =? 13) || (cp =? 8232) || (cp =? 8233))%N.

(** The same code unit three times in a row: the same character of one
    unit three times (the two units of a longer character differ, so
    its repetition alternates). *)
Fixpoint three_in_a_row (gs : list (list ascii)) : bool :=
  match gs with
  | a :: ((b :: c :: _) as rest) =>
      (negb (is_line_terminator (Js.code_point a)) && (Js.units a =? 1)%nat
       && bool_decide (a = b) && bool_decide (a = c))
      || three_in_a_row rest
  | _ => false
  end.

Definition hasRepeatedCharacters (password : string) : bool :=
  three_in_a_row (Js.code_points (Js.chars password)).

Inductive StrengthError : Type :=
  | PasswordRequired
  | TooShort
  | NoUppercase
  | NoLowercase
  | NoNumber
  | NoSpecialChar
  | CommonPattern
  | RepeatedCharacters.

(** The score is kept in half points: the code adds 1 and 0.5. *)
Record PasswordValidationResult : Type := {
  isValid : bool;
  errors : list StrengthError;
  score : Z;
}.

(** One character-class rule: an error when the class is required and
    missing, else a point when the class is there. *)
Definition class_rule (required present : bool) (e : StrengthError)
    (acc : list StrengthError * Z) : list StrengthError * Z :=
  let '(errors, score) := acc in
  if required && negb present then ((errors ++ [e])%list, score)
  else if present then (errors, score + 2)
  else (errors, score).

Definition validatePasswordStrength (config : PasswordServiceConfig) (password : string)
  : PasswordValidationResult :=
  if Js.falsy password
  then {| isValid := false; errors := [PasswordRequired]; score := 0 |}
  else
    let len := Z.of_nat (Js.length password) in
    let acc : list StrengthError * Z :=
      if len <? minLength config then ([TooShort], 0)
      else ([], 2 + (if 12 <=? len then 1 else 0) + (if 16 <=? len then 1 else 0)) in
    let acc := class_rule (requireUppercase config) (hasUppercase password) NoUppercase acc in
    let acc := class_rule (requireLowercase config) (hasLowercase password) NoLowercase acc in
    let acc := class_rule (requireNumbers config) (hasNumber password) NoNumber acc in
    let acc := class_rule (requireSpecialChars config) (hasSpecialChar password)
                 NoSpecialChar acc in
    let acc : list StrengthError * Z :=
      if hasCommonPatterns password
      then ((fst acc ++ [CommonPattern])%list, Z.max 0 (snd acc - 2)) else acc in
    let acc : list StrengthError * Z :=
      if hasRepeatedCharacters password
      then ((fst acc ++ [RepeatedCharacters])%list, Z.max 0 (snd acc - 1)) else acc in
    {| isValid := Nat.eqb (List.length (fst acc)) 0;
       errors := fst acc;
       score := Z.min 10 (Z.max 0 (snd acc)) |}.

Definition validateStrength (config : PasswordServiceConfig) (password : string)
  : bool * list StrengthError :=
  let result := validatePasswordStrength config password in
  (isValid result, errors result).

(** [timeEstimates[Math.min(5, Math.floor(score))]]. *)
Definition estimateCrackTime (config : PasswordServiceConfig) (password : string) : string :=
  let validation := validatePasswordStrength config password in
  nth (Z.to_nat (Z.min 5 (score validation / 2)))
      ["instantly"; "a few seconds"; "a few minutes"; "a few hours"; "several days";
       "months or years"]
      "".
End PasswordService.

(** ** users.table.ts: the identity record *)
Module Schema.

Inductive AuthProvider : Type := local | google.

Definition AuthProvider_eqb (a b : AuthProvider) : bool :=
  match a, b with
  | local, local | google, google => true
  | _, _ => false
  end.

Record User : Type := mkUser {
  id : string;
  email : string;
  firstName : string;
  lastName : string;
  password : option string;
  authProvider : AuthProvider;
  googleId : option string;
  profileImageUrl : option string;
  isEmailVerified : bool;
  emailVerificationToken : option string;
  emailVerificationExpires : option Z;
  passwordResetToken : option string;
  passwordResetExpires : option Z;
  passwordChangedAt : option Z;
  refreshToken : option string;
  loginAttempts : Z;
  lockedUntil : option Z;
  lastLoginAt : option Z;
  hasLoggedIn : bool;
  hasCompletedOnboarding : bool;
  onboardingStep : option Z;
  createdAt : Z;
  updatedAt : Z;
}.

(** The columns a caller of [create] gives; the others take the
    defaults of the table. *)
Record NewUser : Type := {
  new_email : string;
  new_firstName : string;
  new_lastName : string;
  new_password : option string;
  new_authProvider : AuthProvider;
  new_googleId : option string;
  new_isEmailVerified : bool;
  new_profileImageUrl : option string;
  new_emailVerificationToken : option string;
  new_emailVerificationExpires : option Z;
  new_onboardingStep : option Z;
}.

(** One column of a [Partial<User>] given to [update]. *)
Inductive assignment : Type :=
  | set_password (v : option string)
  | set_googleId (v : option string)
  | set_isEmailVerified (v : bool)
  | set_emailVerificationToken (v : option string)
  | set_emailVerificationExpires (v : option Z)
  | set_passwordResetToken (v : option string)
  | set_passwordResetExpires (v : option Z)
  | set_passwordChangedAt (v : option Z)
  | set_refreshToken (v : option string)
  | set_loginAttempts (v : Z)
  | set_lockedUntil (v : option Z)
  | set_lastLoginAt (v : option Z)
  | set_hasLoggedIn (v : bool)
  | set_updatedAt (v : Z).

Definition assign (a : assignment) (u : User) : User :=
  let '(mkUser i e fn ln pw ap gi img ev evt eve prt pre pca rt la lu ll hl hc os ca ua) := u in
  match a with
  | set_password v => mkUser i e fn ln v ap gi img ev evt eve prt pre pca rt la lu ll hl hc os ca ua
  | set_googleId v => mkUser i e fn ln pw ap v img ev evt eve prt pre pca rt la lu ll hl hc os ca ua
  | set_isEmailVerified v => mkUser i e fn ln pw ap gi img v evt eve prt pre pca rt la lu ll hl hc os ca ua
  | set_emailVerificationToken v => mkUser i e fn ln pw ap gi img ev v eve prt pre pca rt la lu ll hl hc os ca ua
  | set_emailVerificationExpires v => mkUser i e fn ln pw ap gi img ev evt v prt pre pca rt la lu ll hl hc os ca ua
  | set_passwordResetToken v => mkUser i e fn ln pw ap gi img ev evt eve v pre pca rt la lu ll hl hc os ca ua
  | set_passwordResetExpires v => mkUser i e fn ln pw ap gi img ev evt eve prt v pca rt la lu ll hl hc os ca ua
  | set_passwordChangedAt v => mkUser i e fn ln pw ap gi img ev evt eve prt pre v rt la lu ll hl hc os ca ua
  | set_refreshToken v => mkUser i e fn ln pw ap gi img ev evt eve prt pre pca v la lu ll hl hc os ca ua
  | set_loginAttempts v => mkUser i e fn ln pw ap gi img ev evt eve prt pre pca rt v lu ll hl hc os ca ua
  | set_lockedUntil v => mkUser i e fn ln pw ap gi img ev evt eve prt pre pca rt la v ll hl hc os ca ua
  | set_lastLoginAt v => mkUser i e fn ln pw ap gi img ev evt eve prt pre pca rt la lu v hl hc os ca ua
  | set_hasLoggedIn v => mkUser i e fn ln pw ap gi img ev evt eve prt pre pca rt la lu ll v hc os ca ua
  | set_updatedAt v => mkUser i e fn ln pw ap gi img ev evt eve prt pre pca rt la lu ll hl hc os ca v
  end.

(** The assignments of a patch, in the order given. *)
Definition assign_all (data : list assignment) (u : User) : User :=
  fold_left (fun u a => assign a u) data u.

End Schema.

(** ** The world the services run in *)

(** What one call finds around it: the clock, the health of the
    relational store and of the mail provider, and the random values it
    will draw. *)
Record Env : Type := {
  now : Z;
  db_reads_ok : bool;
  db_writes_ok : bool;
  mail_ok : bool;
  random_token : string;
  access_session_id : string;
  refresh_session_id : string;
  new_user_id : string;
}.

Inductive Mail : Type :=
  | VerificationEmail (to token : string)
  | WelcomeEmail (to : string)
  | PasswordResetEmail (to token : string)
  | PasswordChangedEmail (to : string).

Record World : Type := mkWorld {
  users : list Schema.User;
  kv : gmap string Redis.entry;
  outbox : list Mail;
  log : list string;
}.

(** A computation that reads and writes the world and may throw. *)
Definition M (A : Type) : Type := World -> result A * World.

Definition ret {A} (a : A) : M A := fun w => (Ok a, w).
Definition throw {A} (e : error) : M A := fun w => (Throw e, w).
Definition bind {A B} (m : M A) (k : A -> M B) : M B :=
  fun w =>
    match m w with
    | (Ok a, w1) => k a w1
    | (Throw e, w1) => (Throw e, w1)
    end.
Definition lift {A} (r : result A) : M A := fun w => (r, w).

(** [try { body } catch (error) { handler }] around a computation. *)
Definition catch {A} (body : M A) (handler : error -> M A) : M A :=
  fun w =>
    match body w with
    | (Ok a, w1) => (Ok a, w1)
    | (Throw e, w1) => handler e w1
    end.

Definition write_log (line : string) : M unit :=
  fun w => (Ok tt, mkWorld (users w) (kv w) (outbox w) (log w ++ [line])).

Definition write_logs (lines : list string) : M unit :=
  fun w => (Ok tt, mkWorld (users w) (kv w) (outbox w) (log w ++ lines)).

Definition set_users (us : list Schema.User) (w : World) : World :=
  mkWorld us (kv w) (outbox w) (log w).

Definition set_kv (r : gmap string Redis.entry) (w : World) : World :=
  mkWorld (users w) r (outbox w) (log w).

Notation "x <- m ;; k" := (bind m (fun x => k))
  (at level 100, m at next level, right associativity).
Notation "m ;;; k" := (bind m (fun _ => k))
  (at level 100, right associativity).

(** ** user.repository.ts, over a table held in memory *)
Module UserRepository.
Import Schema.

Definition is_hex (c : ascii) : bool :=
  Js.is_digit c || Js.in_range "a" "f" c || Js.in_range "A" "F" c.

Definition is_char (x : string) (c : ascii) : bool :=
  existsb (Ascii.eqb c) (Js.chars x).

(** A string matches a sequence of one-character classes. *)
Fixpoint matches (pattern : list (ascii -> bool)) (l : list ascii) : bool :=
  match pattern, l with
  | [], [] => true
  | p :: pattern', c :: l' => p c && matches pattern' l'
  | _, _ => false
  end.

(** The UUID v4 pattern of [validateUserId], case-insensitive. *)
Definition uuidRegex : list (ascii -> bool) :=
  repeat is_hex 8 ++ [is_char "-"] ++ repeat is_hex 4 ++ [is_char "-"] ++
  [is_char "4"] ++ repeat is_hex 3 ++ [is_char "-"] ++
  [is_char "89abAB"] ++ repeat is_hex 3 ++ [is_char "-"] ++ repeat is_hex 12.

(** The characters a UUID is written with. *)
Definition is_uuid_char (c : ascii) : bool := is_hex c || is_char "-" c.

Definition validateUserId (id : string) : result string :=
  if Js.falsy id then Throw ValidationError
  else if matches uuidRegex (Js.chars id) then Ok (Js.toLowerCase id)
  else Throw ValidationError.

Definition is_alnum (c : ascii) : bool := Js.is_lower c || Js.is_upper c || Js.is_digit c.
Definition is_local_char (c : ascii) : bool := is_alnum c || is_char "._%+-" c.
Definition is_domain_char (c : ascii) : bool := is_alnum c || is_char ".-" c.
Definition is_letter (c : ascii) : bool := Js.is_lower c || Js.is_upper c.

(** The part of [l] before the first character of class [p], and the
    part after it. *)
Fixpoint split_at (p : ascii -> bool) (l : list ascii) : option (list ascii * list ascii) :=
  match l with
  | [] => None
  | c :: rest =>
      if p c then Some ([], rest)
      else match split_at p rest with
           | Some (a, b) => Some (c :: a, b)
           | None => None
           end
  end.

Definition nonempty_all (p : ascii -> bool) (l : list ascii) : bool :=
  negb (Nat.eqb (List.length l) 0) && forallb p l.

(** [emailRegex.test]: one or more local characters, an at sign, one or
    more domain characters, a dot, two or more letters.  The local part
    holds no at sign and the last part no dot, so the only split that
    can match is at the first at sign and at the last dot. *)
Definition emailRegex (s : string) : bool :=
  match split_at (is_char "@") (Js.chars s) with
  | None => false
  | Some (local_part, rest) =>
      match split_at (is_char ".") (rev rest) with
      | None => false
      | Some (tld_rev, domain_rev) =>
          nonempty_all is_local_char local_part &&
          nonempty_all is_domain_char domain_rev &&
          (2 <=? List.length tld_rev)%nat && forallb is_letter tld_rev
      end
  end.

(** The characters an email that [emailRegex] accepts is written
    with. *)
Definition is_email_char (c : ascii) : bool := is_local_char c || is_char "@" c.

Definition validateEmail (email : string) : result string :=
  if Js.falsy email then Throw ValidationError
  else
    let sanitizedEmail := Js.trim (Js.toLowerCase email) in
    if emailRegex sanitizedEmail && (Js.length sanitizedEmail <=? 255)%nat
    then Ok sanitizedEmail
    else Throw ValidationError.

Definition opt_eqb (a : option string) (b : string) : bool :=
  match a with Some x => String.eqb x b | None => false end.

(** [googleId.trim().substring(0, 100)], applied to a non-empty value. *)
Definition sanitizeGoogleId (g : option string) : option string :=
  match g with
  | Some s => if Js.falsy s then Some s else Some (Js.prefix 100 (Js.trim s))
  | None => None
  end.

Definition sanitizeAssignment (a : assignment) : assignment :=
  match a with
  | set_googleId v => set_googleId (sanitizeGoogleId v)
  | _ => a
  end.

(** A SELECT ... LIMIT 1: the first row that satisfies the condition.
    Every failure of the query surfaces as [DatabaseError]. *)
Definition select (env : Env) (cond : User -> bool) : M (option User) :=
  fun w =>
    if db_reads_ok env then (Ok (find cond (users w)), w)
    else (Throw DatabaseError, w).

Definition findById (env : Env) (id : string) : M (option User) :=
  validatedId <- lift (validateUserId id) ;;
  select env (fun u => String.eqb (Schema.id u) validatedId).

Definition findByEmail (env : Env) (email : string) : M (option User) :=
  validatedEmail <- lift (validateEmail email) ;;
  select env (fun u => String.eqb (Schema.email u) validatedEmail).

Definition after (t : option Z) (now : Z) : bool :=
  match t with Some x => now <? x | None => false end.

Definition findByEmailVerificationToken (env : Env) (hashedToken : string) : M (option User) :=
  if Js.falsy hashedToken then ret None
  else select env (fun u => opt_eqb (emailVerificationToken u) hashedToken &&
                            after (emailVerificationExpires u) (now env)).

Definition findByPasswordResetToken (env : Env) (hashedToken : string) : M (option User) :=
  if Js.falsy hashedToken then ret None
  else select env (fun u => opt_eqb (passwordResetToken u) hashedToken &&
                            after (passwordResetExpires u) (now env)).

Definition findByRefreshToken (env : Env) (refreshToken : string) : M (option User) :=
  if Js.falsy refreshToken then ret None
  else select env (fun u => opt_eqb (Schema.refreshToken u) refreshToken).

(** Another row already holds this Google id (unique column). *)
Definition googleId_taken (us : list User) (self : string) (g : option string) : bool :=
  match g with
  | Some x => existsb (fun u => negb (String.eqb (Schema.id u) self) && opt_eqb (googleId u) x) us
  | None => false
  end.

Definition assigned_googleId (data : list assignment) : option string :=
  fold_left (fun acc a => match a with set_googleId v => v | _ => acc end) data None.

(** UPDATE users SET ... WHERE id = ..., as one statement. *)
Definition run_update (env : Env) (validatedId : string) (change : User -> User)
    (violates : list User -> bool) : M (option User) :=
  fun w =>
    if negb (db_writes_ok env) then (Throw DatabaseError, w)
    else
      match find (fun u => String.eqb (Schema.id u) validatedId) (users w) with
      | None => (Ok None, w)
      | Some _ =>
          if violates (users w) then (Throw DatabaseError, w)
          else
            let us := map (fun u => if String.eqb (Schema.id u) validatedId
                                    then change u else u) (users w) in
            (Ok (find (fun u => String.eqb (Schema.id u) validatedId) us), set_users us w)
      end.

Definition update (env : Env) (id : string) (data : list assignment) : M (option User) :=
  validatedId <- lift (validateUserId id) ;;
  let cleanData := (map sanitizeAssignment data ++ [set_updatedAt (now env)])%list in
  run_update env validatedId (assign_all cleanData)
    (fun us => googleId_taken us validatedId (assigned_googleId cleanData)).

Definition create (env : Env) (userData : NewUser) : M User :=
  email <- (if Js.falsy (new_email userData) then ret (new_email userData)
            else lift (validateEmail (new_email userData))) ;;
  let googleId := sanitizeGoogleId (new_googleId userData) in
  fun w =>
    if negb (db_writes_ok env) then (Throw DatabaseError, w)
    else if existsb (fun u => String.eqb (Schema.email u) email
                              || String.eqb (Schema.id u) (new_user_id env)) (users w)
            || googleId_taken (users w) "" googleId
    then (Throw UniqueConstraintError, w)
    else
      let u :=
        {| id := new_user_id env; email := email;
           firstName := new_firstName userData; lastName := new_lastName userData;
           password := new_password userData;
           authProvider := new_authProvider userData;
           googleId := googleId;
           profileImageUrl := new_profileImageUrl userData;
           isEmailVerified := new_isEmailVerified userData;
           emailVerificationToken := new_emailVerificationToken userData;
           emailVerificationExpires := new_emailVerificationExpires userData;
           passwordResetToken := None; passwordResetExpires := None;
           passwordChangedAt := None; refreshToken := None;
           loginAttempts := 0; lockedUntil := None; lastLoginAt := None;
           hasLoggedIn := false; hasCompletedOnboarding := false;
           onboardingStep := new_onboardingStep userData;
           createdAt := now env; updatedAt := now env |} in
      (Ok u, set_users (users w ++ [u]) w).

Definition incrementLoginAttempts (env : Env) (id : string) : M unit :=
  validatedId <- lift (validateUserId id) ;;
  _ <- run_update env validatedId
         (fun u => assign (set_updatedAt (now env))
                     (assign (set_loginAttempts (loginAttempts u + 1)) u))
         (fun _ => false) ;;
  ret tt.

Definition lockAccount (env : Env) (id : string) (until : Z) : M unit :=
  validatedId <- lift (validateUserId id) ;;
  _ <- run_update env validatedId
         (assign_all [set_lockedUntil (Some until); set_updatedAt (now env)])
         (fun _ => false) ;;
  ret tt.

End UserRepository.

(** ** The mail collaborator, by its contract: a send succeeds or throws *)
Module EmailService.

Definition send (env : Env) (m : Mail) : M unit :=
  fun w =>
    if mail_ok env
    then (Ok tt, mkWorld (users w) (kv w) (outbox w ++ [m]) (log w))
    else (Throw (JsError "Failed to send email"), w).

End EmailService.

(** ** oauth.service.ts *)
Module OAuthService.
Import Schema.

Record GoogleProfile : Type := {
  profile_id : string;
  profile_email : string;
  emailVerified : bool;
  name : string;
  profile_firstName : string;
  profile_lastName : string;
  picture : option string;
}.

Section WithPrimitives.
Context `{Primitives}.

(** Any failure of the exchange or of the verification is thrown
    again as the one plain error. *)
Definition processGoogleCode (code : string) : result GoogleProfile :=
  match google_verify_code code with
  | Some payload =>
      Ok {| profile_id := g_sub payload;
            profile_email := g_email payload;
            name := if Js.falsy (g_name payload)
                    then Js.trim (g_given_name payload +:+ " " +:+ g_family_name payload)
                    else g_name payload;
            profile_firstName := g_given_name payload;
            profile_lastName := g_family_name payload;
            picture := g_picture payload;
            emailVerified := g_email_verified payload |}
  | None => Throw (JsError "Google authentication failed")
  end.

(** [!user.googleId]. *)
Definition no_googleId (u : User) : bool :=
  match googleId u with Some g => Js.falsy g | None => true end.

Definition findOrCreateGoogleUser (env : Env) (profile : GoogleProfile)
  : M (User * bool) :=
  found <- UserRepository.findByEmail env (profile_email profile) ;;
  match found with
  | None =>
      user <- UserRepository.create env
                {| new_email := profile_email profile;
                   new_firstName := profile_firstName profile;
                   new_lastName := profile_lastName profile;
                   new_password := None;
                   new_authProvider := google;
                   new_googleId := Some (profile_id profile);
                   new_isEmailVerified := emailVerified profile;
                   new_profileImageUrl := picture profile;
                   new_emailVerificationToken := None;
                   new_emailVerificationExpires := None;
                   new_onboardingStep := Some 0 |} ;;
      ret (user, true)
  | Some user =>
      (if no_googleId user && AuthProvider_eqb (authProvider user) google
       then _ <- UserRepository.update env (id user) [set_googleId (Some (profile_id profile))] ;;
            ret tt
       else ret tt) ;;;
      ret (user, false)
  end.

End WithPrimitives.
End OAuthService.

(** ** auth.service.ts *)
Module AuthService.
Import Schema.

Definition AUTH_INVALID_CREDENTIALS : string := "Invalid credentials".
Definition AUTH_GOOGLE_ACCOUNT_REQUIRED : string :=
  "This account was created with Google. Please sign in with Google.".
Definition AUTH_EMAIL_ALREADY_VERIFIED : string := "Email is already verified".

Record RegisterRequest : Type := {
  reg_email : string;
  reg_password : string;
  reg_firstName : option string;
  reg_lastName : option string;
}.

Record LoginRequest : Type := {
  login_email : string;
  login_password : string;
}.

Record AuthTokens : Type := {
  at_accessToken : string;
  at_refreshToken : string;
  at_expiresIn : Z;
}.

Record AuthUser : Type := {
  au_id : string;
  au_email : string;
  au_firstName : string;
  au_lastName : string;
  au_authProvider : AuthProvider;
  au_isEmailVerified : bool;
  au_hasLoggedIn : bool;
  au_hasCompletedOnboarding : bool;
  au_onboardingStep : Z;
  au_createdAt : Z;
}.

Record Session : Type := {
  user : AuthUser;
  tokens : AuthTokens;
  requiresOnboarding : bool;
  onboardingStep : Z;
  isNewUser : bool;
}.

Inductive TokenType : Type := verification | reset.

Section WithPrimitives.
Context `{Primitives}.
Variable config : TokenService.TokenServiceConfig.

(** A call of the token service, which writes to the key-value store
    and logs. *)
Definition issue (f : gmap string Redis.entry -> result string * gmap string Redis.entry * list string)
  : M string :=
  fun w =>
    let '(r, kv1, lines) := f (kv w) in
    (r, mkWorld (users w) kv1 (outbox w) (log w ++ lines)).

Definition generateTokens (env : Env) (userId email : string) : M AuthTokens :=
  let payload :=
    {| TokenService.userId := userId;
       TokenService.email := email;
       TokenService.iat := Some (now env / 1000);
       TokenService.exp := Some (now env / 1000 + 15 * 60) |} in
  accessToken <- issue (fun r => TokenService.generateAccessToken config (now env) r
                                   (access_session_id env) payload) ;;
  refreshToken <- issue (fun r => TokenService.generateRefreshToken config (now env) r
                                    (refresh_session_id env) payload) ;;
  ret {| at_accessToken := accessToken; at_refreshToken := refreshToken;
         at_expiresIn := 15 * 60 |}.

Definition sanitizeUser (u : User) : AuthUser :=
  {| au_id := id u; au_email := email u;
     au_firstName := firstName u; au_lastName := lastName u;
     au_authProvider := authProvider u;
     au_isEmailVerified := isEmailVerified u;
     au_hasLoggedIn := hasLoggedIn u;
     au_hasCompletedOnboarding := hasCompletedOnboarding u;
     au_onboardingStep := default 0 (Schema.onboardingStep u);
     au_createdAt := createdAt u |}.

Definition session (u : User) (t : AuthTokens) (isNew : bool) : Session :=
  {| user := sanitizeUser u; tokens := t;
     requiresOnboarding := negb (hasCompletedOnboarding u);
     onboardingStep := default 0 (Schema.onboardingStep u);
     isNewUser := isNew |}.

(** [Math.ceil((lockedUntil - now) / 60000)]. *)
Definition lockTimeMinutes (lockedUntil now : Z) : Z :=
  (lockedUntil - now + 59999) / 60000.

Definition checkAccountStatus (env : Env) (u : User) : M unit :=
  match lockedUntil u with
  | Some t =>
      if now env <? t
      then throw (AccountLockedError (Some (lockTimeMinutes t (now env))))
      else ret tt
  | None => ret tt
  end.

Definition handleFailedLogin (env : Env) (userId : string) : M unit :=
  UserRepository.incrementLoginAttempts env userId ;;;
  rateLimitCheck <- (fun w => (Ok (RateLimiterService.checkLoginAttempts (now env) (kv w) userId), w)) ;;
  match RateLimiterService.canAttempt rateLimitCheck,
        RateLimiterService.lockedUntil rateLimitCheck with
  | false, Some until =>
      UserRepository.lockAccount env userId until ;;;
      throw (AccountLockedError None)
  | _, _ => ret tt
  end.

Definition getTokenExpiry (env : Env) (type : TokenType) : Z :=
  let expiryMs := match type with
                  | verification => 24 * 60 * 60 * 1000
                  | reset => 60 * 60 * 1000
                  end in
  now env + expiryMs.

(** A mail that is sent without being awaited: a failure is logged
    and goes no further. *)
Definition sendEmailSafe (env : Env) (m : Mail) : M unit :=
  catch (EmailService.send env m) (fun _ => write_log "Email sending failed").

Definition findUserByToken (env : Env) (token : string) (type : TokenType) : M User :=
  if Js.falsy token then throw InvalidTokenError
  else
    let hashedToken := TokenService.hashToken token in
    found <- match type with
             | verification => UserRepository.findByEmailVerificationToken env hashedToken
             | reset => UserRepository.findByPasswordResetToken env hashedToken
             end ;;
    match found with
    | None => throw InvalidTokenError
    | Some u =>
        let expirationField := match type with
                               | verification => emailVerificationExpires u
                               | reset => passwordResetExpires u
                               end in
        match expirationField with
        | None => throw TokenExpiredError
        | Some t => if t <? now env then throw TokenExpiredError else ret u
        end
    end.

Definition registerUser (env : Env) (data : RegisterRequest) : M Session :=
  existingUser <- UserRepository.findByEmail env (reg_email data) ;;
  match existingUser with
  | Some _ => throw ConflictError
  | None =>
      hashedPassword <- lift (PasswordService.hash (reg_password data)) ;;
      let verificationToken := random_token env in
      let hashedToken := TokenService.hashToken verificationToken in
      u <- UserRepository.create env
             {| new_email := reg_email data;
                new_firstName := default "" (reg_firstName data);
                new_lastName := default "" (reg_lastName data);
                new_password := Some hashedPassword;
                new_authProvider := local;
                new_googleId := None;
                new_isEmailVerified := false;
                new_profileImageUrl := None;
                new_emailVerificationToken := Some hashedToken;
                new_emailVerificationExpires := Some (getTokenExpiry env verification);
                new_onboardingStep := Some 0 |} ;;
      t <- generateTokens env (id u) (email u) ;;
      _ <- UserRepository.update env (id u)
             [set_refreshToken (Some (at_refreshToken t)); set_lastLoginAt (Some (now env))] ;;
      sendEmailSafe env (VerificationEmail (email u) verificationToken) ;;;
      ret (session u t false)
  end.

(** [!user.password]. *)
Definition no_password (u : User) : bool :=
  match password u with Some p => Js.falsy p | None => true end.

Definition loginUser (env : Env) (data : LoginRequest) : M Session :=
  found <- UserRepository.findByEmail env (login_email data) ;;
  match found with
  | None => throw (AuthenticationError AUTH_INVALID_CREDENTIALS)
  | Some u =>
      if AuthProvider_eqb (authProvider u) google
      then throw (AuthenticationError AUTH_GOOGLE_ACCOUNT_REQUIRED)
      else
        checkAccountStatus env u ;;;
        if no_password u then throw (AuthenticationError AUTH_INVALID_CREDENTIALS)
        else
          isPasswordValid <- lift (PasswordService.compare (login_password data)
                                     (default "" (password u))) ;;
          if negb isPasswordValid
          then handleFailedLogin env (id u) ;;;
               throw (AuthenticationError AUTH_INVALID_CREDENTIALS)
          else
            t <- generateTokens env (id u) (email u) ;;
            _ <- UserRepository.update env (id u)
                   [set_lastLoginAt (Some (now env)); set_loginAttempts 0;
                    set_lockedUntil None; set_refreshToken (Some (at_refreshToken t));
                    set_hasLoggedIn true] ;;
            (if negb (hasLoggedIn u) && isEmailVerified u
             then sendEmailSafe env (WelcomeEmail (email u))
             else ret tt) ;;;
            ret (session u t false)
  end.

Definition verifyEmail (env : Env) (token : string) : M unit :=
  u <- findUserByToken env token verification ;;
  _ <- UserRepository.update env (id u)
         [set_isEmailVerified true; set_emailVerificationToken None;
          set_emailVerificationExpires None] ;;
  if hasLoggedIn u then sendEmailSafe env (WelcomeEmail (email u)) else ret tt.

Definition forgotPassword (env : Env) (email : string) : M unit :=
  found <- UserRepository.findByEmail env email ;;
  match found with
  | Some u =>
      catch
        (let resetToken := random_token env in
         let hashedToken := TokenService.hashToken resetToken in
         _ <- UserRepository.update env (id u)
                [set_passwordResetToken (Some hashedToken);
                 set_passwordResetExpires (Some (getTokenExpiry env reset))] ;;
         EmailService.send env (PasswordResetEmail (Schema.email u) resetToken))
        (fun _ => write_log "Password reset email failed:")
  | None => ret tt
  end.

Definition resetPassword (env : Env) (token newPassword : string) : M unit :=
  u <- findUserByToken env token reset ;;
  hashedPassword <- lift (PasswordService.hash newPassword) ;;
  _ <- UserRepository.update env (id u)
         [set_password (Some hashedPassword); set_passwordResetToken None;
          set_passwordResetExpires None; set_passwordChangedAt (Some (now env));
          set_loginAttempts 0; set_lockedUntil None] ;;
  sendEmailSafe env (PasswordChangedEmail (email u)).

Definition refreshToken (env : Env) (refreshToken : string) : M AuthTokens :=
  if Js.falsy refreshToken then throw InvalidTokenError
  else
    decoded <- catch (lift (TokenService.verifyRefreshToken config (now env) refreshToken))
                     (fun _ => throw InvalidTokenError) ;;
    found <- UserRepository.findByRefreshToken env refreshToken ;;
    match found with
    | None => throw InvalidTokenError
    | Some u =>
        if negb (String.eqb (id u) (TokenService.userId decoded))
        then throw InvalidTokenError
        else
          t <- generateTokens env (id u) (email u) ;;
          _ <- UserRepository.update env (id u)
                 [set_refreshToken (Some (at_refreshToken t))] ;;
          ret t
    end.

Definition logoutUser (env : Env) (userId : string) : M unit :=
  _ <- UserRepository.update env userId [set_refreshToken None] ;;
  ret tt.

Definition getCurrentUser (env : Env) (userId : string) : M (AuthUser * bool * Z) :=
  found <- UserRepository.findById env userId ;;
  match found with
  | None => throw NotFoundError
  | Some u => ret (sanitizeUser u, negb (hasCompletedOnboarding u),
                   default 0 (Schema.onboardingStep u))
  end.

Definition checkEmailResend (env : Env) (userId : string)
  : M RateLimiterService.ResendCheck :=
  fun w =>
    let '(r, kv1) := RateLimiterService.checkEmailResend (now env) (kv w) userId in
    (r, set_kv kv1 w).

Definition resendVerificationEmail (env : Env) (userId : string) : M unit :=
  found <- UserRepository.findById env userId ;;
  match found with
  | None => throw NotFoundError
  | Some u =>
      if isEmailVerified u then throw (AuthenticationError AUTH_EMAIL_ALREADY_VERIFIED)
      else
        rateLimitCheck <- checkEmailResend env userId ;;
        if negb (RateLimiterService.canResend rateLimitCheck) then throw RateLimitError
        else
          let verificationToken := random_token env in
          let hashedToken := TokenService.hashToken verificationToken in
          _ <- UserRepository.update env userId
                 [set_emailVerificationToken (Some hashedToken);
                  set_emailVerificationExpires (Some (getTokenExpiry env verification))] ;;
          EmailService.send env (VerificationEmail (email u) verificationToken)
  end.

Definition authenticateWithGoogle (env : Env) (code : string) : M Session :=
  googleProfile <- lift (OAuthService.processGoogleCode code) ;;
  found <- OAuthService.findOrCreateGoogleUser env googleProfile ;;
  let '(u, isNew) := found in
  t <- generateTokens env (id u) (email u) ;;
  _ <- UserRepository.update env (id u)
         [set_refreshToken (Some (at_refreshToken t)); set_lastLoginAt (Some (now env));
          set_hasLoggedIn true] ;;
  ret (session u t isNew).

End WithPrimitives.
End AuthService.

(** ** auth.middleware.ts *)
Module AuthMiddleware.
Import Schema.

Definition AUTH_INVALID_TOKEN : string := "Invalid or expired token".
Definition AUTH_TOKEN_EXPIRED : string := "Token has expired".

(** [error.name]: BaseError sets it to the name of the class. *)
Definition error_name (e : error) : string :=
  match e with
  | ValidationError => "ValidationError"
  | ConflictError => "ConflictError"
  | AuthenticationError _ => "AuthenticationError"
  | AuthorizationError => "AuthorizationError"
  | NotFoundError => "NotFoundError"
  | RateLimitError => "RateLimitError"
  | AccountLockedError _ => "AccountLockedError"
  | TokenExpiredError => "TokenExpiredError"
  | InvalidTokenError => "InvalidTokenError"
  | DatabaseError => "DatabaseError"
  | UniqueConstraintError => "UniqueConstraintError"
  | JsError _ => "Error"
  end.

(** [request.user]. *)
Record RequestUser : Type := {
  ru_id : string;
  ru_email : string;
  ru_role : option string;
  ru_isEmailVerified : bool;
}.

(** The request, as far as the middleware reads and writes it. *)
Record Request : Type := {
  authorization : option string;
  req_user : option RequestUser;
}.

(** The token of a bearer header: [authHeader.substring(7)]. *)
Definition bearer (request : Request) : option string :=
  match authorization request with
  | None => None
  | Some authHeader =>
      if Js.falsy authHeader || negb (String.prefix "Bearer " authHeader) then None
      else Some (String.substring 7 (String.length authHeader - 7) authHeader)
  end.

(** The request with the identity attached; no role is set. *)
Definition attach (request : Request) (u : User) : Request :=
  {| authorization := authorization request;
     req_user := Some {| ru_id := id u; ru_email := email u; ru_role := None;
                         ru_isEmailVerified := isEmailVerified u |} |}.

Section WithPrimitives.
Context `{Primitives}.
Variable config : TokenService.TokenServiceConfig.

Definition verifyAccessToken (env : Env) (token : string) : M TokenService.JwtPayload :=
  fun w =>
    let '(r, lines) := TokenService.verifyAccessToken config (now env) (kv w) token in
    (r, mkWorld (users w) (kv w) (outbox w) (log w ++ lines)).

(** The request after the hook, when the hook returns. *)
Definition authenticate (env : Env) (request : Request) : M Request :=
  match bearer request with
  | None => throw (AuthenticationError AUTH_INVALID_TOKEN)
  | Some token =>
      catch
        (decoded <- verifyAccessToken env token ;;
         found <- UserRepository.findById env (TokenService.userId decoded) ;;
         match found with
         | None => throw (AuthenticationError AUTH_INVALID_TOKEN)
         | Some u => ret (attach request u)
         end)
        (fun error =>
           if String.eqb (error_name error) "TokenExpiredError"
           then throw (AuthenticationError AUTH_TOKEN_EXPIRED)
           else if String.eqb (error_name error) "JsonWebTokenError"
           then throw (AuthenticationError AUTH_INVALID_TOKEN)
           else throw error)
  end.

Definition optionalAuth (env : Env) (request : Request) : M Request :=
  match bearer request with
  | None => ret request
  | Some token =>
      catch
        (decoded <- verifyAccessToken env token ;;
         found <- UserRepository.findById env (TokenService.userId decoded) ;;
         match found with
         | None => ret request
         | Some u => ret (attach request u)
         end)
        (fun _ => ret request)
  end.

End WithPrimitives.

Definition requireEmailVerification (request : Request) : result unit :=
  match req_user request with
  | None => Throw (AuthenticationError AUTH_INVALID_TOKEN)
  | Some u => if negb (ru_isEmailVerified u) then Throw AuthorizationError else Ok tt
  end.

(** [!role]: no role, or the empty string. *)
Definition no_role (u : RequestUser) : bool :=
  match ru_role u with Some r => Js.falsy r | None => true end.

Definition authorize (roles : list string) (request : Request) : result unit :=
  match req_user request with
  | None => Throw (AuthenticationError AUTH_INVALID_TOKEN)
  | Some u =>
      if no_role u || negb (existsb (String.eqb (default "" (ru_role u))) roles)
      then Throw AuthorizationError
      else Ok tt
  end.

End AuthMiddleware.

(** ** The vocabulary of the properties *)

(** The instant at which a login window opened at [t1] closes. *)
Definition window_end (t1 : Z) : Z := t1 + RateLimiterService.LOGIN_WINDOW * 1000.

(** The payload [verifyAccessToken] hands back for these claims. *)
Definition access_payload (c : Jwt.claims) : TokenService.JwtPayload :=
  {| TokenService.userId := Jwt.userId c; TokenService.email := Jwt.email c;
     TokenService.iat := Jwt.iat c; TokenService.exp := Jwt.exp c |}.

Section Vocabulary.
Context `{Primitives}.
Variable config : TokenService.TokenServiceConfig.
Import Schema.

(** The columns that tell how an identity authenticates. *)
Definition credentials (u : User)
  : string * string * AuthProvider * option string * option string :=
  (id u, email u, authProvider u, password u, googleId u).

(** What [incrementLoginAttempts] does to the rows of the table. *)
Definition bump (env : Env) (userId : string) (x : User) : User :=
  if String.eqb (id x) userId
  then assign (set_updatedAt (now env)) (assign (set_loginAttempts (loginAttempts x + 1)) x)
  else x.

(** Password logins one after the other, each in its own
    surroundings. *)
Fixpoint loginUsers (envs : list Env) (data : AuthService.LoginRequest) (w : World)
  : list (result AuthService.Session) * World :=
  match envs with
  | [] => ([], w)
  | env :: rest =>
      let '(r, w1) := AuthService.loginUser config env data w in
      let '(rs, w2) := loginUsers rest data w1 in
      (r :: rs, w2)
  end.

Definition password_present (u : User) : bool :=
  match password u with Some _ => true | None => false end.

(** Exactly one of: a password hash is present, the provider is
    google. *)
Definition exactly_one (u : User) : bool :=
  xorb (password_present u) (AuthProvider_eqb (authProvider u) google).

(** The table is well formed (the primary keys are distinct canonical
    UUIDs) and every identity satisfies [exactly_one]. *)
Definition table_ok (us : list User) : Prop :=
  NoDup (map id us)
  /\ Forall (fun u => UserRepository.validateUserId (id u) = Ok (id u)
                      /\ exactly_one u = true) us.

(** A computation keeps the table well formed; a computation leaves
    the table alone. *)
Definition preserves {A} (m : M A) : Prop :=
  forall w r w', m w = (r, w') -> table_ok (users w) -> table_ok (users w').

Definition keeps_users {A} (m : M A) : Prop :=
  forall w r w', m w = (r, w') -> users w' = users w.

(** A computation leaves the login counter of [userId] in the key-value
    store as it is. *)
Definition keeps_login_counter {A} (userId : string) (m : M A) : Prop :=
  forall w r w', m w = (r, w') ->
    kv w' !! RateLimiterService.login_key userId = kv w !! RateLimiterService.login_key userId.

(** The columns that say who an identity is. *)
Definition identity (u : User) : string * string * AuthProvider :=
  (id u, email u, authProvider u).

(** Every run of the computation takes the table to one that is related
    to it by [R]. *)
Definition steps (R : list User -> list User -> Prop) {A} (m : M A) : Prop :=
  forall w r w', m w = (r, w') -> R (users w) (users w').

(** The second table holds the identities of the first, in place and
    unchanged, and perhaps more after them. *)
Definition appended (us us' : list User) : Prop :=
  exists extra, map identity us' = (map identity us ++ extra)%list.

(** Distinct emails stay distinct. *)
Definition emails_stay_distinct (us us' : list User) : Prop :=
  NoDup (map email us) -> NoDup (map email us').

(** An assignment other than to the password column. *)
Definition keeps_password (a : assignment) : bool :=
  match a with set_password _ => false | _ => true end.

(** The operations the orchestrator offers. *)
Inductive operation : Type :=
  | Register (data : AuthService.RegisterRequest)
  | Login (data : AuthService.LoginRequest)
  | VerifyEmail (token : string)
  | ForgotPassword (email : string)
  | ResetPassword (token newPassword : string)
  | Refresh (refreshToken : string)
  | Logout (userId : string)
  | CurrentUser (userId : string)
  | ResendVerification (userId : string)
  | GoogleLogin (code : string).

(** The world after one operation, whether it returned or threw. *)
Definition run (env : Env) (op : operation) (w : World) : World :=
  match op with
  | Register data => snd (AuthService.registerUser config env data w)
  | Login data => snd (AuthService.loginUser config env data w)
  | VerifyEmail token => snd (AuthService.verifyEmail env token w)
  | ForgotPassword email => snd (AuthService.forgotPassword env email w)
  | ResetPassword token newPassword => snd (AuthService.resetPassword env token newPassword w)
  | Refresh token => snd (AuthService.refreshToken config env token w)
  | Logout userId => snd (AuthService.logoutUser env userId w)
  | CurrentUser userId => snd (AuthService.getCurrentUser env userId w)
  | ResendVerification userId => snd (AuthService.resendVerificationEmail env userId w)
  | GoogleLogin code => snd (AuthService.authenticateWithGoogle config env code w)
  end.

End Vocabulary.

(** ** Concrete primitives, to run the model on examples

    A toy codec: the tokens it knows are listed; hashing prefixes the
    text; password hashes are the password behind a prefix. *)
Module Demo.

Definition access_claims : Jwt.claims :=
  {| Jwt.userId := "1b9d6bcd-bbfd-4b2d-9b5d-ab8dfbbd4bed";
     Jwt.email := "a@b.com"; Jwt.sessionId := "s1"; Jwt.type := "access";
     Jwt.iat := Some 1000; Jwt.exp := Some 1900; Jwt.nbf := None;
     Jwt.iss := Some "kokoru-garden"; Jwt.aud := Some "kokoru-garden";
     Jwt.sub := Some "1b9d6bcd-bbfd-4b2d-9b5d-ab8dfbbd4bed" |}.

Definition refresh_claims : Jwt.claims :=
  {| Jwt.userId := "1b9d6bcd-bbfd-4b2d-9b5d-ab8dfbbd4bed";
     Jwt.email := ""; Jwt.sessionId := "s2"; Jwt.type := "refresh";
     Jwt.iat := Some 1000; Jwt.exp := Some 2000; Jwt.nbf := None;
     Jwt.iss := Some "kokoru-garden"; Jwt.aud := None; Jwt.sub := None |}.

Definition parse (s : string) : option Jwt.token :=
  if String.eqb s "access.jwt"
  then Some {| Jwt.payload := access_claims; Jwt.signer := Some "access-secret" |}
  else if String.eqb s "refresh.jwt"
  then Some {| Jwt.payload := refresh_claims; Jwt.signer := Some "refresh-secret" |}
  else None.

Definition primitives : Primitives :=
  {| sha256_hex := fun s => "sha256:" +:+ s;
     parseInt_text := fun _ => NaN;
     jwt_encode := fun _ c _ _ => Ok (Jwt.type c +:+ ":" +:+ Jwt.sessionId c);
     jwt_parse := parse;
     argon2_hash := fun p => Ok ("argon2:" +:+ p);
     argon2_verify := fun h p => Ok (String.eqb h ("argon2:" +:+ p));
     argon2_needsRehash := fun _ => Ok false;
     google_verify_code := fun code =>
       if String.eqb code "code-for-a"
       then Some {| g_sub := "google-sub-1"; g_email := "a@b.com"; g_name := "A B";
                    g_given_name := "A"; g_family_name := "B"; g_picture := None;
                    g_email_verified := true |}
       else None |}.

(** A writing of [{ userId, email }] and its reading, for the one record
    of the examples. *)
Definition json_user (userId email : string) : string :=
  "{userId:" +:+ userId +:+ ",email:" +:+ email +:+ "}".

Definition json_parse (s : string) : result TokenService.json :=
  if String.eqb s (json_user "u1" "a@b.com")
  then Ok (TokenService.JUser "u1" "a@b.com")
  else Throw (JsError "Unexpected token in JSON").

(** A store with one session of u1 and one of u2. *)
Definition session_store : gmap string Redis.entry :=
  <["session:s1" := Redis.Entry (Redis.RSession "u1" "a@b.com" 0) (Some 604800000)]>
    (<["session:s2" := Redis.Entry (Redis.RSession "u2" "c@d.com" 0) (Some 604800000)]> ∅).

(** The store of [session_store] with the refresh-token record of
    another session id. *)
Definition refresh_store : gmap string Redis.entry :=
  <["token:refresh:sid-r" := Redis.Entry (Redis.RStr "refresh:sid-r") (Some 604800000)]>
    session_store.

Definition u1_payload : TokenService.JwtPayload :=
  {| TokenService.userId := "u1"; TokenService.email := "a@b.com";
     TokenService.iat := Some 0; TokenService.exp := Some 900 |}.

Definition config : TokenService.TokenServiceConfig :=
  {| TokenService.jwtAccessSecret := "access-secret";
     TokenService.jwtRefreshSecret := "refresh-secret";
     TokenService.jwtAccessExpiry := 900;
     TokenService.jwtRefreshExpiry := 604800;
     TokenService.issuer := "kokoru-garden" |}.

End Demo.

Definition demo_env : Env :=
  {| now := 3000000; db_reads_ok := true; db_writes_ok := true; mail_ok := true;
     random_token := "tok-1"; access_session_id := "sid-a"; refresh_session_id := "sid-r";
     new_user_id := "9b2e1c4d-7f3a-4c5b-8d6e-0a1b2c3d4e5f" |}.

(** The same surroundings with the mail provider down. *)
Definition mail_down_env : Env :=
  {| now := 3000000; db_reads_ok := true; db_writes_ok := true; mail_ok := false;
     random_token := "tok-1"; access_session_id := "sid-a"; refresh_session_id := "sid-r";
     new_user_id := "9b2e1c4d-7f3a-4c5b-8d6e-0a1b2c3d4e5f" |}.

Definition empty_world : World :=
  {| users := []; kv := ∅; outbox := []; log := [] |}.

(** A local identity with a verified email, and a world that holds it. *)
Definition alice : Schema.User :=
  {| Schema.id := "1b9d6bcd-bbfd-4b2d-9b5d-ab8dfbbd4bed";
     Schema.email := "a@b.com";
     Schema.firstName := "A"; Schema.lastName := "B";
     Schema.password := Some "argon2:Str0ngP@ss1";
     Schema.authProvider := Schema.local;
     Schema.googleId := None; Schema.profileImageUrl := None;
     Schema.isEmailVerified := true;
     Schema.emailVerificationToken := None; Schema.emailVerificationExpires := None;
     Schema.passwordResetToken := None; Schema.passwordResetExpires := None;
     Schema.passwordChangedAt := None; Schema.refreshToken := None;
     Schema.loginAttempts := 0; Schema.lockedUntil := None; Schema.lastLoginAt := None;
     Schema.hasLoggedIn := false; Schema.hasCompletedOnboarding := false;
     Schema.onboardingStep := Some 0; Schema.createdAt := 1000; Schema.updatedAt := 1000 |}.

Definition alice_world : World :=
  {| users := [alice]; kv := ∅; outbox := []; log := [] |}.

(** [alice] after she asked for a password reset with the token tok-1. *)
Definition alice_reset_world : World :=
  {| users := [Schema.assign_all
                 [Schema.set_passwordResetToken (Some "sha256:tok-1");
                  Schema.set_passwordResetExpires (Some 6600000)] alice];
     kv := ∅; outbox := []; log := [] |}.

(** The surroundings of [demo_env] at another instant. *)
Definition env_at (t : Z) : Env :=
  {| now := t; db_reads_ok := true; db_writes_ok := true; mail_ok := true;
     random_token := "tok-1"; access_session_id := "sid-a"; refresh_session_id := "sid-r";
     new_user_id := "9b2e1c4d-7f3a-4c5b-8d6e-0a1b2c3d4e5f" |}.

(** [alice] locked for ten more minutes after the instant of
    [demo_env]. *)
Definition locked_alice_world : World :=
  {| users := [Schema.assign (Schema.set_lockedUntil (Some 3600000)) alice];
     kv := ∅; outbox := []; log := [] |}.

(** [alice] holding the refresh token of the examples. *)
Definition alice_session_world : World :=
  {| users := [Schema.assign (Schema.set_refreshToken (Some "refresh.jwt")) alice];
     kv := ∅; outbox := []; log := [] |}.


(** The columns of an identity to create, its email not yet in
    canonical form. *)
Definition carol : Schema.NewUser :=
  {| Schema.new_email := " Carol@D.com";
     Schema.new_firstName := "C"; Schema.new_lastName := "D";
     Schema.new_password := Some "argon2:Garden4me";
     Schema.new_authProvider := Schema.local;
     Schema.new_googleId := None;
     Schema.new_isEmailVerified := false;
     Schema.new_profileImageUrl := None;
     Schema.new_emailVerificationToken := None;
     Schema.new_emailVerificationExpires := None;
     Schema.new_onboardingStep := Some 0 |}.

(** The no-break space (U+00A0). *)
Definition no_break_space : string :=
  String (ascii_of_nat 194) (String (ascii_of_nat 160) EmptyString).

(** The profile Google vouches for in the examples. *)
Definition google_profile : OAuthService.GoogleProfile :=
  {| OAuthService.profile_id := "google-sub-1"; OAuthService.profile_email := "a@b.com";
     OAuthService.emailVerified := true; OAuthService.name := "A B";
     OAuthService.profile_firstName := "A"; OAuthService.profile_lastName := "B";
     OAuthService.picture := None |}.

(** A Google login on the empty table, then a password reset asked for
    and redeemed by the identity it created. *)
Definition google_reset_trace : World :=
  run (H := Demo.primitives) Demo.config demo_env (ResetPassword "tok-1" "N3wPassw0rd")
    (run (H := Demo.primitives) Demo.config demo_env (ForgotPassword "a@b.com")
       (run (H := Demo.primitives) Demo.config demo_env (GoogleLogin "code-for-a")
          empty_world)).

(** * Properties *)

(** ** The login-attempt counter of the rate limiter *)
Section LoginCounter.
Context `{Primitives}.
Import Redis RateLimiterService.

Lemma recordFailedLogin_first (r : gmap string entry) userId t :
  get t r (login_key userId) = None ->
  snd (recordFailedLogin t r userId)
  = <[login_key userId := Entry (RInt 1) (Some (window_end t))]> r.
Proof.
  unfold get, recordFailedLogin, incr, expire, window_end. intros Hget.
  destruct (lookup_live t r (login_key userId)) eqn:E; [discriminate|].
  simpl. unfold lookup_live. rewrite lookup_insert_eq. simpl.
  now rewrite insert_insert_eq.
Qed.

Lemma recordFailedLogin_next (r : gmap string entry) userId t n x :
  r !! login_key userId = Some (Entry (RInt n) (Some x)) ->
  t <= x -> 1 <= n < int64_max ->
  snd (recordFailedLogin t r userId)
  = <[login_key userId := Entry (RInt (n + 1)) (Some x)]> r.
Proof.
  intros Hr Ht Hn. unfold recordFailedLogin, incr, lookup_live, expired.
  rewrite Hr. simpl.
  destruct (Z.ltb_spec x t); [lia|]. simpl.
  destruct (Z.ltb_spec n int64_max); [|lia].
  destruct (Z.eqb_spec (n + 1) 1); [lia|]. reflexivity.
Qed.

(** Failures recorded inside an open window only move the count. *)
Lemma recordFailedLogins_next (times : list Z) :
  forall (r : gmap string entry) userId n x,
    r !! login_key userId = Some (Entry (RInt n) (Some x)) ->
    Forall (fun t => t <= x) times ->
    1 <= n -> n + Z.of_nat (List.length times) < int64_max ->
    recordFailedLogins times r userId !! login_key userId
    = Some (Entry (RInt (n + Z.of_nat (List.length times))) (Some x)).
Proof.
  induction times as [|t rest IH]; intros r userId n x Hr Hall Hn Hmax.
  - simpl. now rewrite Z.add_0_r.
  - inversion Hall as [|? ? Ht Hrest]; subst. cbn [recordFailedLogins].
    rewrite (recordFailedLogin_next r userId t n x Hr Ht)
      by (cbn [List.length] in Hmax; lia).
    rewrite (IH _ userId (n + 1) x).
    + cbn [List.length]. do 3 f_equal. lia.
    + apply lookup_insert_eq.
    + exact Hrest.
    + lia.
    + cbn [List.length] in Hmax. lia.
Qed.

(** From no counter, [1 + length rest] failures inside the window that
    the first one opens leave that count, expiring at the end of that
    window. *)
Lemma recordFailedLogins_window (r : gmap string entry) userId t1 rest :
  get t1 r (login_key userId) = None ->
  Forall (fun t => t <= window_end t1) rest ->
  Z.of_nat (List.length rest) < 1000 ->
  recordFailedLogins (t1 :: rest) r userId !! login_key userId
  = Some (Entry (RInt (1 + Z.of_nat (List.length rest))) (Some (window_end t1))).
Proof.
  intros Hget Hall Hlen. cbn [recordFailedLogins].
  rewrite (recordFailedLogin_first r userId t1 Hget).
  apply recordFailedLogins_next; try assumption.
  - apply lookup_insert_eq.
  - lia.
  - unfold int64_max. lia.
Qed.

(** What [checkLoginAttempts] answers on a counter at or over the
    maximum whose key is still there. *)
Lemma checkLoginAttempts_counter (r : gmap string entry) userId t n x :
  r !! login_key userId = Some (Entry (RInt n) (Some x)) ->
  MAX_LOGIN_ATTEMPTS <= n ->
  checkLoginAttempts t r userId
  = if t <=? x
    then if 0 <? (x - t + 500) / 1000
         then {| canAttempt := false; attemptsRemaining := Num 0;
                 lockedUntil := Some (t + (x - t + 500) / 1000 * 1000) |}
         else {| canAttempt := true; attemptsRemaining := Num 0; lockedUntil := None |}
    else {| canAttempt := true; attemptsRemaining := Num 5; lockedUntil := None |}.
Proof.
  intros Hr Hn. unfold checkLoginAttempts, get, ttl, lookup_live, expired.
  rewrite Hr. cbn [ent_expire ent_value].
  destruct (Z.ltb_spec x t) as [Hx|Hx].
  - destruct (Z.leb_spec t x); [lia|]. reflexivity.
  - destruct (Z.leb_spec t x); [|lia]. cbn.
    destruct (Z.leb_spec MAX_LOGIN_ATTEMPTS n); [|lia]. cbn [andb].
    destruct (0 <? (x - t + 500) `div` 1000); [reflexivity|].
    unfold MAX_LOGIN_ATTEMPTS in *.
    replace (Z.max 0 (5 - n)) with 0 by lia.
    reflexivity.
Qed.

End LoginCounter.

Section LoginCounterProperties.
Context `{Primitives}.
Import Redis RateLimiterService.

(** C5. At the rate limiter: from no counter, five calls of
    [recordFailedLogin] for one identity inside the window opened by the
    first, checked while the counter's TTL is positive, make
    [checkLoginAttempts] answer canAttempt=false, attemptsRemaining=0
    and a lockedUntil strictly after the instant of the check.  The TTL
    is set by the first increment only: after a sixth failure in the
    window the key still expires at the end of the window opened by the
    first failure, and [checkLoginAttempts] answers at every instant
    what it answers without the sixth failure. *)
Theorem lockout_after_max_failed_logins
    (r : gmap string entry) (userId : string) (t1 t2 t3 t4 t5 t : Z) :
  get t1 r (login_key userId) = None ->
  t1 <= t2 -> t2 <= t3 -> t3 <= t4 -> t4 <= t5 -> t5 <= window_end t1 -> t5 <= t ->
  0 < ttl t (recordFailedLogins [t1; t2; t3; t4; t5] r userId) (login_key userId) ->
  (exists until,
      checkLoginAttempts t (recordFailedLogins [t1; t2; t3; t4; t5] r userId) userId
      = {| canAttempt := false; attemptsRemaining := Num 0; lockedUntil := Some until |}
      /\ t < until)
  /\ forall t6, t5 <= t6 -> t6 <= window_end t1 ->
       ent_expire <$> (recordFailedLogins [t1; t2; t3; t4; t5; t6] r userId !! login_key userId)
       = Some (Some (window_end t1))
       /\ forall t',
            checkLoginAttempts t' (recordFailedLogins [t1; t2; t3; t4; t5; t6] r userId) userId
            = checkLoginAttempts t' (recordFailedLogins [t1; t2; t3; t4; t5] r userId) userId.
Proof.
  intros Hget H12 H23 H34 H45 H5w H5t Httl.
  assert (E5 : recordFailedLogins [t1; t2; t3; t4; t5] r userId !! login_key userId
               = Some (Entry (RInt 5) (Some (window_end t1)))).
  { apply (recordFailedLogins_window r userId t1 [t2; t3; t4; t5] Hget).
    - repeat constructor; lia.
    - simpl. lia. }
  split.
  - unfold ttl, lookup_live, expired in Httl. rewrite E5 in Httl.
    cbn [ent_expire] in Httl. revert Httl.
    destruct (Z.ltb_spec (window_end t1) t) as [Hx|Hx]; [lia|]. intros Httl.
    cbn [ent_expire] in Httl.
    rewrite (checkLoginAttempts_counter _ userId t 5 (window_end t1) E5)
      by (unfold MAX_LOGIN_ATTEMPTS; lia).
    destruct (Z.leb_spec t (window_end t1)); [|lia].
    destruct (Z.ltb_spec 0 ((window_end t1 - t + 500) / 1000)); [|lia].
    eexists. split; [reflexivity|lia].
  - intros t6 H56 H6w.
    assert (E6 : recordFailedLogins [t1; t2; t3; t4; t5; t6] r userId !! login_key userId
                 = Some (Entry (RInt 6) (Some (window_end t1)))).
    { apply (recordFailedLogins_window r userId t1 [t2; t3; t4; t5; t6] Hget).
      - repeat constructor; lia.
      - simpl. lia. }
    split; [now rewrite E6|].
    intros t'.
    rewrite (checkLoginAttempts_counter _ userId t' 6 (window_end t1) E6)
      by (unfold MAX_LOGIN_ATTEMPTS; lia).
    rewrite (checkLoginAttempts_counter _ userId t' 5 (window_end t1) E5)
      by (unfold MAX_LOGIN_ATTEMPTS; lia).
    reflexivity.
Qed.

End LoginCounterProperties.

Lemma lockout_after_max_failed_logins_witness :
  exists until,
    RateLimiterService.checkLoginAttempts (H := Demo.primitives) 5000
      (RateLimiterService.recordFailedLogins [0; 1000; 2000; 3000; 4000] ∅ "u1") "u1"
    = {| RateLimiterService.canAttempt := false;
         RateLimiterService.attemptsRemaining := Num 0;
         RateLimiterService.lockedUntil := Some until |}
    /\ 5000 < until.
Proof.
  apply (lockout_after_max_failed_logins (H := Demo.primitives) ∅ "u1" 0 1000 2000 3000 4000 5000);
    try (vm_compute; congruence); reflexivity.
Defined.

(** ** Access tokens and the blacklist *)
Section TokenProperties.
Context `{Primitives}.
Variable config : TokenService.TokenServiceConfig.
Import Redis TokenService.

Lemma jwt_verify_valid (now : Z) (token : string) (t : Jwt.token) (e : Z) :
  jwt_parse token = Some t ->
  Jwt.signer t = Some (jwtAccessSecret config) ->
  Jwt.iss (Jwt.payload t) = Some (issuer config) ->
  Jwt.aud (Jwt.payload t) = Some "kokoru-garden" ->
  Jwt.nbf (Jwt.payload t) = None ->
  Jwt.exp (Jwt.payload t) = Some e ->
  now / 1000 < e ->
  jwt_verify now token (jwtAccessSecret config) (issuer config) (Some "kokoru-garden")
  = inl (Jwt.payload t).
Proof.
  intros Hp Hs Hi Ha Hn He Hlt. unfold jwt_verify. rewrite Hp, Hs, Hi, Ha, Hn, He.
  rewrite !bool_decide_eq_true_2 by reflexivity. cbn [negb].
  destruct (Z.leb_spec e (now / 1000)); [lia|].
  now rewrite andb_false_r.
Qed.

(** C3. An access token with a valid signature, issuer and audience
    that is not past its expiry is accepted by [verifyAccessToken]
    whatever the key-value store holds.  In particular after
    [revokeToken] put it on the blacklist: the lookup is a hit, the call
    logs the warning, and the decoded payload is returned all the
    same. *)
Theorem verifyAccessToken_accepts_revoked_token
    (now revokedAt : Z) (r0 : gmap string entry) (token : string)
    (t : Jwt.token) (e : Z) :
  jwt_parse token = Some t ->
  Jwt.signer t = Some (jwtAccessSecret config) ->
  Jwt.iss (Jwt.payload t) = Some (issuer config) ->
  Jwt.aud (Jwt.payload t) = Some "kokoru-garden" ->
  Jwt.nbf (Jwt.payload t) = None ->
  Jwt.exp (Jwt.payload t) = Some e ->
  now / 1000 < e ->
  0 <= revokedAt <= now ->
  fst (revokeToken revokedAt r0 token) = Ok tt
  /\ isTokenBlacklisted now (snd (revokeToken revokedAt r0 token)) token = true
  /\ verifyAccessToken config now (snd (revokeToken revokedAt r0 token)) token
     = (Ok (access_payload (Jwt.payload t)), ["Attempted to use blacklisted token"])
  /\ forall r, fst (verifyAccessToken config now r token) = Ok (access_payload (Jwt.payload t)).
Proof.
  intros Hp Hs Hi Ha Hn He Hlt Hrev.
  pose proof (jwt_verify_valid now token t e Hp Hs Hi Ha Hn He Hlt) as Hv.
  assert (Hdiv : revokedAt / 1000 <= now / 1000) by (apply Z.div_le_mono; lia).
  assert (H0 : 0 <= revokedAt / 1000) by (apply Z.div_pos; lia).
  assert (Hrevoke : revokeToken revokedAt r0 token
                    = (Ok tt, <[BLACKLIST_PREFIX +:+ hashToken token :=
                                 Entry (RInt 1) (Some (revokedAt + (e - revokedAt / 1000) * 1000))]> r0)).
  { unfold revokeToken, jwt_decode, setex. rewrite Hp. cbn [fmap option_fmap option_map].
    rewrite He.
    destruct (Z.eqb_spec e 0); [lia|].
    destruct (Z.leb_spec (e - revokedAt / 1000) 0); [lia|]. reflexivity. }
  assert (Hhit : isTokenBlacklisted now (snd (revokeToken revokedAt r0 token)) token = true).
  { rewrite Hrevoke. cbn [snd]. unfold isTokenBlacklisted, exists_, lookup_live, expired.
    rewrite lookup_insert_eq. cbn [ent_expire].
    pose proof (Z.mul_div_le revokedAt 1000 ltac:(lia)).
    pose proof (Z.mul_succ_div_gt now 1000 ltac:(lia)).
    destruct (Z.ltb_spec (revokedAt + (e - revokedAt / 1000) * 1000) now); [lia|].
    reflexivity. }
  split; [now rewrite Hrevoke|]. split; [exact Hhit|]. split.
  - unfold verifyAccessToken. rewrite Hv, Hhit. reflexivity.
  - intros r. unfold verifyAccessToken. rewrite Hv. reflexivity.
Qed.

(** A refresh token that parses, carries the signature of the refresh
    secret and is past its expiry: the token service reports the
    expiry. *)
Lemma verifyRefreshToken_expired (now : Z) (token : string) (t : Jwt.token) (e : Z) :
  jwt_parse token = Some t ->
  Jwt.signer t = Some (jwtRefreshSecret config) ->
  Jwt.nbf (Jwt.payload t) = None ->
  Jwt.exp (Jwt.payload t) = Some e ->
  e <= now / 1000 ->
  verifyRefreshToken config now token = Throw TokenExpiredError.
Proof.
  intros Hp Hs Hn He Hle. unfold verifyRefreshToken, jwt_verify.
  rewrite Hp, Hs, Hn, He. rewrite bool_decide_eq_true_2 by reflexivity. cbn [negb].
  destruct (Z.leb_spec e (now / 1000)); [reflexivity|lia].
Qed.

(** C6, as the code has it.  A refresh token that is well formed and
    correctly signed but past its expiry makes [verifyRefreshToken]
    throw TokenExpiredError; [refreshToken] catches whatever the
    verification throws and fails with InvalidTokenError, leaving the
    world as it was. *)
Theorem refreshToken_expired_is_invalid
    (env : Env) (w : World) (token : string) (t : Jwt.token) (e : Z) :
  jwt_parse token = Some t ->
  Jwt.signer t = Some (jwtRefreshSecret config) ->
  Jwt.nbf (Jwt.payload t) = None ->
  Jwt.exp (Jwt.payload t) = Some e ->
  e <= now env / 1000 ->
  verifyRefreshToken config (now env) token = Throw TokenExpiredError
  /\ AuthService.refreshToken config env token w = (Throw InvalidTokenError, w).
Proof.
  intros Hp Hs Hn He Hle.
  pose proof (verifyRefreshToken_expired _ token t e Hp Hs Hn He Hle) as Hv.
  split; [exact Hv|].
  unfold AuthService.refreshToken.
  destruct (Js.falsy token); [reflexivity|].
  unfold bind, catch, lift, throw. rewrite Hv. reflexivity.
Qed.

End TokenProperties.

Lemma verifyAccessToken_accepts_revoked_token_witness :
  TokenService.verifyAccessToken (H := Demo.primitives) Demo.config 1500000
    (snd (TokenService.revokeToken (H := Demo.primitives) 1200000 ∅ "access.jwt")) "access.jwt"
  = (Ok (access_payload Demo.access_claims), ["Attempted to use blacklisted token"]).
Proof.
  apply (verifyAccessToken_accepts_revoked_token (H := Demo.primitives) Demo.config
           1500000 1200000 ∅ "access.jwt"
           {| Jwt.payload := Demo.access_claims; Jwt.signer := Some "access-secret" |} 1900);
    try reflexivity; lia.
Defined.

Lemma refreshToken_expired_is_invalid_witness :
  TokenService.verifyRefreshToken (H := Demo.primitives) Demo.config 3000000 "refresh.jwt"
  = Throw TokenExpiredError
  /\ AuthService.refreshToken (H := Demo.primitives) Demo.config demo_env "refresh.jwt" empty_world
     = (Throw InvalidTokenError, empty_world).
Proof.
  apply (refreshToken_expired_is_invalid (H := Demo.primitives) Demo.config demo_env empty_world
           "refresh.jwt"
           {| Jwt.payload := Demo.refresh_claims; Jwt.signer := Some "refresh-secret" |} 2000);
    try reflexivity.
  vm_compute. discriminate.
Defined.

(** C6, as the specification states it, fails: for this correctly signed
    refresh token, expired at second 2000 and presented at second 3000,
    the refresh operation fails with InvalidTokenError, not with
    TokenExpiredError. *)
Lemma refreshToken_expired_not_TokenExpiredError :
  fst (AuthService.refreshToken (H := Demo.primitives) Demo.config demo_env "refresh.jwt" empty_world)
  = Throw InvalidTokenError
  /\ fst (AuthService.refreshToken (H := Demo.primitives) Demo.config demo_env "refresh.jwt" empty_world)
     <> Throw TokenExpiredError.
Proof. split; [reflexivity | vm_compute; discriminate]. Qed.

(** ** The credential hasher *)
Section PasswordProperties.
Context `{Primitives}.
Import PasswordService.

(** C9. [verify] returns a boolean for every pair (hash, password) and
    whatever the hashing library does: it never throws.  An empty hash
    or password gives false, and so does any failure inside the
    verification (a hash the library rejects as malformed, a failing
    re-hash check). *)
Theorem verify_never_throws (hash password : string) :
  (exists b : bool, verify hash password = Ok b)
  /\ (hash = "" \/ password = "" -> verify hash password = Ok false)
  /\ (forall e, argon2_verify hash password = Throw e -> verify hash password = Ok false)
  /\ (forall e, argon2_needsRehash hash = Throw e -> argon2_verify hash password = Ok true ->
                verify hash password = Ok false).
Proof.
  unfold verify, try_catch, rbind, Js.falsy.
  repeat split.
  - destruct (String.eqb hash "" || String.eqb password ""); [eauto|].
    destruct (argon2_verify hash password) as [[|]|]; eauto.
    destruct (argon2_needsRehash hash); eauto.
  - intros [-> | ->]; [reflexivity|]. now rewrite orb_true_r.
  - intros e He. rewrite He. now destruct (String.eqb hash "" || String.eqb password "").
  - intros e He Hv. rewrite Hv, He.
    now destruct (String.eqb hash "" || String.eqb password "").
Qed.

End PasswordProperties.

Lemma length_string_of_list (l : list ascii) :
  String.length (string_of_list_ascii l) = List.length l.
Proof. induction l; simpl; congruence. Qed.

Lemma length_chars (s : string) : List.length (Js.chars s) = String.length s.
Proof. induction s; simpl; congruence. Qed.

Lemma length_string_app (a b : string) :
  String.length (a +:+ b) = (String.length a + String.length b)%nat.
Proof.
  induction a as [|c a IH]; [reflexivity|].
  change (S (String.length (a +:+ b)) = S (String.length a + String.length b)).
  now rewrite IH.
Qed.

Lemma length_replace_last (s c : string) :
  String.length s <> 0%nat -> String.length c = 1%nat ->
  String.length (Js.drop_last s +:+ c) = String.length s.
Proof.
  intros Hs Hc. unfold Js.drop_last.
  rewrite length_string_app, length_string_of_list, removelast_firstn_len, length_take,
    length_chars, Hc.
  lia.
Qed.

(** The part of C8 that holds: the password has twelve characters, for
    every random buffer and every configuration. *)
Lemma generateTemporaryPassword_length (config : PasswordService.PasswordServiceConfig)
    (buffer : list Byte.byte) :
  String.length (PasswordService.generateTemporaryPassword config buffer) = 12%nat.
Proof.
  assert (Hdraw : String.length (PasswordService.draw buffer) = 12%nat).
  { unfold PasswordService.draw.
    now rewrite length_string_of_list, length_map, length_seq. }
  unfold PasswordService.generateTemporaryPassword.
  repeat match goal with
         | |- context [if ?b then _ else _] => destruct b
         end;
    repeat (rewrite length_replace_last; [|try lia|reflexivity]); try exact Hdraw;
    repeat (rewrite length_replace_last; [|try lia|reflexivity]); lia.
Qed.

(** C8 fails on the code.  When the twelve random bytes all select the
    digit 0, the password drawn has neither an uppercase nor a lowercase
    letter; both adjustments overwrite the last character, the second
    undoing the first, and the password returned has no uppercase
    letter. *)
Lemma generateTemporaryPassword_misses_uppercase :
  PasswordService.generateTemporaryPassword PasswordService.defaultConfig
    (repeat Byte.x34 12) = "00000000000a"
  /\ PasswordService.hasUppercase
       (PasswordService.generateTemporaryPassword PasswordService.defaultConfig
          (repeat Byte.x34 12)) = false.
Proof. split; reflexivity. Qed.

(** ** What the repository and the mail collaborator can throw *)
Section Collaborators.
Import Schema UserRepository.

Lemma select_inv env cond w r w' :
  select env cond w = (r, w') ->
  w' = w /\ (r = Throw DatabaseError \/ r = Ok (find cond (users w))).
Proof.
  unfold select. destruct (db_reads_ok env); intros [= <- <-]; auto.
Qed.

Lemma findById_inv env id w r w' :
  findById env id w = (r, w') ->
  w' = w /\ (r = Throw ValidationError \/ r = Throw DatabaseError \/ exists o, r = Ok o).
Proof.
  unfold findById, bind, lift, validateUserId.
  destruct (Js.falsy id); [intros [= <- <-]; auto|].
  destruct (matches uuidRegex (Js.chars id)); [|intros [= <- <-]; auto].
  intros Hs. apply select_inv in Hs as [-> [->| ->]]; eauto.
Qed.

Lemma run_update_throw env vid change violates w e w' :
  run_update env vid change violates w = (Throw e, w') ->
  e = DatabaseError /\ w' = w.
Proof.
  unfold run_update. destruct (db_writes_ok env); cbn [negb]; [|intros [= <- <-]; auto].
  destruct (find _ (users w)); [|discriminate].
  destruct (violates (users w)); [intros [= <- <-]; auto | discriminate].
Qed.

Lemma update_throw env id data w e w' :
  update env id data w = (Throw e, w') ->
  (e = ValidationError \/ e = DatabaseError) /\ w' = w.
Proof.
  unfold update, bind, lift. destruct (validateUserId id) as [vid|e0] eqn:Ev.
  - intros Hu. apply run_update_throw in Hu as [-> ->]. auto.
  - unfold validateUserId in Ev.
    destruct (Js.falsy id); [injection Ev as <-|].
    + intros [= <- <-]; auto.
    + destruct (matches uuidRegex (Js.chars id)); [discriminate|injection Ev as <-].
      intros [= <- <-]; auto.
Qed.

(** An update that returns went through the store, and wrote to the
    table only. *)
Lemma update_ok_inv env id data w o w' :
  update env id data w = (Ok o, w') ->
  db_writes_ok env = true /\ kv w' = kv w /\ outbox w' = outbox w /\ log w' = log w.
Proof.
  unfold update, bind, lift. destruct (validateUserId id) as [vid|e0]; [|discriminate].
  unfold run_update. destruct (db_writes_ok env); cbn [negb]; [|discriminate].
  destruct (find _ (users w)); [|now intros [= _ <-]].
  destruct (googleId_taken _ _ _); [discriminate|]. now intros [= _ <-].
Qed.

Lemma send_throw env m w e w' :
  EmailService.send env m w = (Throw e, w') ->
  e = JsError "Failed to send email" /\ w' = w.
Proof.
  unfold EmailService.send. destruct (mail_ok env); [discriminate|].
  intros [= <- <-]; auto.
Qed.

End Collaborators.

(** ** Resending the verification mail *)
Section ResendProperties.
Context `{Primitives}.
Import Schema.

(** A refusal of the resend cooldown writes nothing. *)
Lemma checkEmailResend_refusal now (r : gmap string Redis.entry) userId c r1 :
  RateLimiterService.checkEmailResend now r userId = (Ok c, r1) ->
  RateLimiterService.canResend c = false -> r1 = r.
Proof.
  unfold RateLimiterService.checkEmailResend.
  destruct (_ && _).
  - now intros [= <- <-].
  - destruct (Redis.setex _ _ _ _ _) as [[[]|e] r2]; [|discriminate].
    intros [= <- <-]. discriminate.
Qed.

(** C10. When [resendVerificationEmail] fails with NotFoundError (no
    identity with this id), with AuthenticationError (the email is
    already verified) or with RateLimitError (the resend cooldown), the
    table of identities is what it was before the call: in particular
    emailVerificationToken and emailVerificationExpires of every
    identity keep their values. *)
Theorem resendVerificationEmail_failure_keeps_identity
    (env : Env) (userId : string) (w w' : World) (e : error) :
  AuthService.resendVerificationEmail env userId w = (Throw e, w') ->
  e = NotFoundError \/ (exists m, e = AuthenticationError m) \/ e = RateLimitError ->
  users w' = users w.
Proof.
  intros Hrun He. unfold AuthService.resendVerificationEmail, bind in Hrun.
  destruct (UserRepository.findById env userId w) as [[found|e0] w0] eqn:Ef.
  2:{ injection Hrun as <- <-. now apply findById_inv in Ef as [-> _]. }
  apply findById_inv in Ef as [-> _].
  destruct found as [u|]; [|unfold throw in Hrun; now injection Hrun as <- <-].
  destruct (isEmailVerified u); [unfold throw in Hrun; now injection Hrun as <- <-|].
  unfold AuthService.checkEmailResend in Hrun.
  destruct (RateLimiterService.checkEmailResend (now env) (kv w) userId)
    as [[c|e1] kv1] eqn:Ec.
  2:{ injection Hrun as <- <-. reflexivity. }
  destruct (RateLimiterService.canResend c) eqn:Ecan; cbn [negb] in Hrun.
  2:{ unfold throw in Hrun. injection Hrun as <- <-. reflexivity. }
  destruct (UserRepository.update env userId _ (set_kv kv1 w)) as [[o|e2] w2] eqn:Eu.
  - apply send_throw in Hrun as [-> _].
    destruct He as [He | [[m He] | He]]; discriminate.
  - injection Hrun as <- <-. apply update_throw in Eu as [[-> | ->] ->];
      destruct He as [He | [[m He] | He]]; discriminate.
Qed.

End ResendProperties.

Lemma resendVerificationEmail_failure_keeps_identity_witness :
  users (snd (AuthService.resendVerificationEmail (H := Demo.primitives) demo_env
                (Schema.id alice) alice_world))
  = users alice_world.
Proof.
  apply (resendVerificationEmail_failure_keeps_identity (H := Demo.primitives) demo_env
           (Schema.id alice) alice_world _
           (AuthenticationError AuthService.AUTH_EMAIL_ALREADY_VERIFIED)).
  - reflexivity.
  - right. left. eexists. reflexivity.
Defined.

(** ** Forgotten passwords *)
Section ForgotPasswordProperties.
Context `{Primitives}.
Import Schema.

Lemma findByEmail_ok env email v w :
  UserRepository.validateEmail email = Ok v ->
  db_reads_ok env = true ->
  UserRepository.findByEmail env email w
  = (Ok (find (fun u => String.eqb (Schema.email u) v) (users w)), w).
Proof.
  intros Hv Hr. unfold UserRepository.findByEmail, bind, lift, UserRepository.select.
  now rewrite Hv, Hr.
Qed.

(** C7, as the code has it.  For every email input, what
    [forgotPassword] returns depends on the format of the email and on
    whether the lookup answers, and on nothing else: an email that the
    format check of the repository refuses makes the call throw
    ValidationError, a lookup that fails makes it throw DatabaseError
    (both happen before the try block), and in every other case the
    call returns, with the same (void) result whether an identity has
    the email or not.  Whatever happens while the reset token is
    persisted or the reset mail is sent is swallowed: when the store
    refuses the write or the mail provider the mail, the call still
    returns and the failure is in the log. *)
Theorem forgotPassword_uniform_success (env : Env) (w : World) (email : string) :
  fst (AuthService.forgotPassword env email w)
  = match UserRepository.validateEmail email with
    | Throw _ => Throw ValidationError
    | Ok _ => if db_reads_ok env then Ok tt else Throw DatabaseError
    end
  /\ forall v u,
       UserRepository.validateEmail email = Ok v ->
       db_reads_ok env = true ->
       find (fun x => String.eqb (Schema.email x) v) (users w) = Some u ->
       db_writes_ok env = false \/ mail_ok env = false ->
       log (snd (AuthService.forgotPassword env email w))
       = (log w ++ ["Password reset email failed:"])%list.
Proof.
  split.
  - unfold AuthService.forgotPassword, bind, UserRepository.findByEmail, bind, lift.
    destruct (UserRepository.validateEmail email) as [v|e] eqn:Ev.
    + unfold UserRepository.select. destruct (db_reads_ok env); [|reflexivity].
      destruct (find _ (users w)) as [u|]; [|reflexivity]. unfold catch.
      destruct (UserRepository.update env (id u) _ w) as [[o|e] w1]; [|reflexivity].
      destruct (EmailService.send env _ w1) as [[[]|e] w2]; reflexivity.
    + unfold UserRepository.validateEmail in Ev.
      destruct (Js.falsy email); [now injection Ev as <-|].
      destruct (_ && _); [discriminate|now injection Ev as <-].
  - intros v u Hv Hr Hf Hfail. unfold AuthService.forgotPassword, bind.
    rewrite (findByEmail_ok env email v w Hv Hr), Hf. unfold catch.
    destruct (UserRepository.update env (id u) _ w) as [[o|e] w1] eqn:Eu.
    + apply update_ok_inv in Eu as (Hw & _ & _ & Hlog).
      destruct Hfail as [Hfail|Hmail]; [congruence|].
      unfold EmailService.send. rewrite Hmail. cbn. now rewrite Hlog.
    + apply update_throw in Eu as [_ ->]. reflexivity.
Qed.

(** The failures that C7 speaks of do happen in the model and are
    swallowed: with the store refusing writes, the call still returns,
    the identity is unchanged and the failure is in the log. *)
Lemma forgotPassword_swallows_store_failure
    (env : Env) (w : World) (known v1 : string) (u : User) :
  UserRepository.validateEmail known = Ok v1 ->
  UserRepository.validateUserId (id u) = Ok (id u) ->
  db_reads_ok env = true -> db_writes_ok env = false ->
  find (fun x => String.eqb (email x) v1) (users w) = Some u ->
  AuthService.forgotPassword env known w
  = (Ok tt, mkWorld (users w) (kv w) (outbox w) (log w ++ ["Password reset email failed:"])).
Proof.
  intros Hv1 Hid Hr Hw Hf1. unfold AuthService.forgotPassword, bind.
  rewrite (findByEmail_ok env known v1 w Hv1 Hr), Hf1. unfold catch.
  unfold UserRepository.update, bind, lift, UserRepository.run_update.
  rewrite Hid, Hw. reflexivity.
Qed.

End ForgotPasswordProperties.

Lemma forgotPassword_uniform_success_witness :
  fst (AuthService.forgotPassword (H := Demo.primitives) mail_down_env "a@b.com" alice_world)
  = Ok tt
  /\ log (snd (AuthService.forgotPassword (H := Demo.primitives) mail_down_env "a@b.com"
                 alice_world))
     = ["Password reset email failed:"].
Proof.
  destruct (forgotPassword_uniform_success (H := Demo.primitives) mail_down_env alice_world
              "a@b.com") as (Hknown & Hlog).
  split; [exact Hknown|].
  apply (Hlog "a@b.com" alice); try reflexivity. right. reflexivity.
Defined.

(** C7, as the specification states it, fails: of the two emails
    a@b.com, which the identity [alice] has, and a!b@c.com, which no
    identity has, the first makes [forgotPassword] return and the second
    makes it throw ValidationError to the caller. *)
Lemma forgotPassword_malformed_email_throws :
  fst (AuthService.forgotPassword (H := Demo.primitives) demo_env "a@b.com" alice_world)
  = Ok tt
  /\ fst (AuthService.forgotPassword (H := Demo.primitives) demo_env "a!b@c.com" alice_world)
     = Throw ValidationError.
Proof. split; vm_compute; reflexivity. Qed.

(** ** Google sign-in *)
Section GoogleProperties.
Context `{Primitives}.
Variable config : TokenService.TokenServiceConfig.
Import Schema.

Lemma issue_users f w r w1 :
  AuthService.issue f w = (r, w1) -> users w1 = users w.
Proof.
  unfold AuthService.issue. destruct (f (kv w)) as [[r0 kv1] l]. now intros [= <- <-].
Qed.

(** Issuing tokens writes to the key-value store and to the log only. *)
Lemma generateTokens_users env userId email w r w1 :
  AuthService.generateTokens config env userId email w = (r, w1) -> users w1 = users w.
Proof.
  unfold AuthService.generateTokens, bind, ret.
  destruct (AuthService.issue _ w) as [[a|e] wa] eqn:Ea.
  - destruct (AuthService.issue _ wa) as [[b|e] wb] eqn:Eb.
    + intros [= <- <-]. apply issue_users in Ea, Eb. congruence.
    + intros [= <- <-]. apply issue_users in Ea, Eb. congruence.
  - intros [= <- <-]. now apply issue_users in Ea.
Qed.

Lemma find_by_id_of_member (us : list User) (u : User) :
  In u us -> exists x, find (fun y => String.eqb (id y) (id u)) us = Some x.
Proof.
  intros Hin. destruct (find _ us) as [x|] eqn:E; [eauto|].
  pose proof (find_none _ _ E u Hin) as Hx. cbn in Hx.
  now rewrite String.eqb_refl in Hx.
Qed.

(** As [generateTokens] is written, no token is ever issued: the payload
    it builds carries an [exp] claim, the access token is signed with
    the option expiresIn, and [jwt.sign] refuses the two together.  The
    call throws the plain [Error] of the library (InvalidTokenError for
    an empty user id) and writes nothing. *)
Lemma generateTokens_throws env userId email w :
  AuthService.generateTokens config env userId email w
  = (Throw (if String.eqb userId "" then InvalidTokenError
            else JsError Jwt.bad_expiresIn), w).
Proof.
  unfold AuthService.generateTokens, bind, AuthService.issue,
    TokenService.generateAccessToken.
  cbn [TokenService.userId TokenService.exp].
  destruct (String.eqb userId ""); [|unfold jwt_sign; cbn [Jwt.exp is_some]];
    destruct w; cbn; now rewrite app_nil_r.
Qed.


End GoogleProperties.



(** ** Failed logins and the lockout *)
Section LockoutProperties.
Context `{Primitives}.
Variable config : TokenService.TokenServiceConfig.
Import Schema.

Lemma find_map_preserving (p : User -> bool) (f : User -> User) (us : list User) :
  (forall x, p (f x) = p x) ->
  find p (map f us) = option_map f (find p us).
Proof.
  intros Hp. induction us as [|x us IH]; [reflexivity|].
  cbn [map find]. rewrite Hp. destruct (p x); [reflexivity | exact IH].
Qed.

Lemma bump_email env userId x : email (bump env userId x) = email x.
Proof. unfold bump. destruct (String.eqb _ _); [|reflexivity]. now destruct x. Qed.

(** The columns [incrementLoginAttempts] leaves alone, and the one it
    moves. *)
Lemma bump_columns env userId x :
  id (bump env userId x) = id x
  /\ authProvider (bump env userId x) = authProvider x
  /\ password (bump env userId x) = password x
  /\ lockedUntil (bump env userId x) = lockedUntil x.
Proof. unfold bump. destruct (String.eqb _ _); [|auto]. now destruct x. Qed.

Lemma bump_loginAttempts env x :
  loginAttempts (bump env (id x) x) = loginAttempts x + 1.
Proof. unfold bump. rewrite String.eqb_refl. now destruct x. Qed.

Lemma checkLoginAttempts_no_counter t (r : gmap string Redis.entry) userId :
  r !! RateLimiterService.login_key userId = None ->
  RateLimiterService.checkLoginAttempts t r userId
  = {| RateLimiterService.canAttempt := true;
       RateLimiterService.attemptsRemaining := Num 5;
       RateLimiterService.lockedUntil := None |}.
Proof.
  intros Hr. unfold RateLimiterService.checkLoginAttempts, Redis.get, Redis.lookup_live.
  now rewrite Hr.
Qed.

(** One login with a wrong password, for a local identity that is not
    locked and has no counter in the key-value store: the counter of
    the table goes up by one, nothing else is written, and the error is
    the generic AuthenticationError. *)
Lemma loginUser_wrong_password env w data v u h :
  UserRepository.validateEmail (AuthService.login_email data) = Ok v ->
  db_reads_ok env = true -> db_writes_ok env = true ->
  find (fun x => String.eqb (email x) v) (users w) = Some u ->
  authProvider u = local -> lockedUntil u = None ->
  password u = Some h -> Js.falsy h = false ->
  PasswordService.compare (AuthService.login_password data) h = Ok false ->
  UserRepository.validateUserId (id u) = Ok (id u) ->
  kv w !! RateLimiterService.login_key (id u) = None ->
  AuthService.loginUser config env data w
  = (Throw (AuthenticationError AuthService.AUTH_INVALID_CREDENTIALS),
     set_users (map (bump env (id u)) (users w)) w).
Proof.
  intros Hv Hr Hw Hfind Hlocal Hlock Hpw Hh Hcmp Hid Hkv.
  unfold AuthService.loginUser, bind.
  rewrite (findByEmail_ok env _ v w Hv Hr), Hfind, Hlocal. cbn [AuthProvider_eqb].
  unfold AuthService.checkAccountStatus. rewrite Hlock. unfold ret at 1.
  unfold AuthService.no_password. rewrite Hpw, Hh.
  change (default "" (Some h)) with h.
  unfold lift at 1. rewrite Hcmp. cbn [negb].
  unfold AuthService.handleFailedLogin, bind.
  unfold UserRepository.incrementLoginAttempts, bind, lift, UserRepository.run_update.
  rewrite Hid, Hw. cbn [negb].
  apply find_some in Hfind as [Hin _].
  destruct (find_by_id_of_member _ _ Hin) as [x Hx]. rewrite Hx.
  unfold ret at 1. cbn [kv set_users].
  rewrite (checkLoginAttempts_no_counter _ _ _ Hkv).
  reflexivity.
Qed.

(** However many wrong passwords are tried in a row, the login never
    locks the identity: [handleFailedLogin] counts in the table and
    consults the counter of the rate limiter, which no call of the
    orchestrator ever increments. *)
Lemma wrong_passwords_never_lock (envs : list Env) :
  forall w data v u h,
    UserRepository.validateEmail (AuthService.login_email data) = Ok v ->
    Forall (fun env => db_reads_ok env = true /\ db_writes_ok env = true) envs ->
    find (fun x => String.eqb (email x) v) (users w) = Some u ->
    authProvider u = local -> lockedUntil u = None ->
    password u = Some h -> Js.falsy h = false ->
    PasswordService.compare (AuthService.login_password data) h = Ok false ->
    UserRepository.validateUserId (id u) = Ok (id u) ->
    kv w !! RateLimiterService.login_key (id u) = None ->
    Forall (fun r => r = Throw (AuthenticationError AuthService.AUTH_INVALID_CREDENTIALS))
      (fst (loginUsers config envs data w))
    /\ exists u',
         find (fun x => String.eqb (email x) v) (users (snd (loginUsers config envs data w))) = Some u'
         /\ lockedUntil u' = None
         /\ loginAttempts u' = loginAttempts u + Z.of_nat (List.length envs).
Proof.
  induction envs as [|env rest IH]; intros w data v u h Hv Henvs Hfind Hlocal Hlock Hpw Hh Hcmp Hid Hkv.
  - cbn. split; [constructor|]. exists u. repeat split; [assumption..|lia].
  - inversion Henvs as [|? ? [Hr Hw] Hrest]; subst. cbn [loginUsers].
    rewrite (loginUser_wrong_password env w data v u h) by assumption.
    set (w1 := set_users (map (bump env (id u)) (users w)) w).
    assert (Hfind1 : find (fun x => String.eqb (email x) v) (users w1) = Some (bump env (id u) u)).
    { cbn [w1 users set_users]. rewrite find_map_preserving, Hfind; [reflexivity|].
      intros x. now rewrite bump_email. }
    destruct (bump_columns env (id u) u) as (Bid & Bap & Bpw & Blu).
    pose proof (bump_loginAttempts env u) as Bla.
    specialize (IH w1 data v (bump env (id u) u) h Hv Hrest Hfind1).
    rewrite Bid, Bap, Bpw, Blu, Bla in IH.
    specialize (IH Hlocal Hlock Hpw Hh Hcmp Hid Hkv).
    destruct (loginUsers config rest data w1) as [rs w2]. cbn [fst snd] in *.
    destruct IH as [Hall (u' & Hf' & Hl' & Ha')].
    split; [constructor; [reflexivity|exact Hall]|].
    exists u'. repeat split; try assumption. cbn [List.length]. lia.
Qed.

End LockoutProperties.

(** ** No operation of the orchestrator moves the login counter *)
Section LoginCounterUntouched.
Context `{Primitives}.
Variable config : TokenService.TokenServiceConfig.
Variable userId : string.
Import Schema.

Abbreviation counter_kept := (keeps_login_counter userId).

Lemma counter_ret {A} (a : A) : counter_kept (ret a).
Proof. intros w r w'. unfold ret. now intros [= <- <-]. Qed.

Lemma counter_throw {A} (e : error) : counter_kept (@throw A e).
Proof. intros w r w'. unfold throw. now intros [= <- <-]. Qed.

Lemma counter_lift {A} (x : result A) : counter_kept (lift x).
Proof. intros w r w'. unfold lift. now intros [= <- <-]. Qed.

Lemma counter_bind {A B} (m : M A) (k : A -> M B) :
  counter_kept m -> (forall a, counter_kept (k a)) -> counter_kept (bind m k).
Proof.
  intros Hm Hk w r w' Hb. unfold bind in Hb.
  destruct (m w) as [[a|e] w1] eqn:E.
  - rewrite (Hk a _ _ _ Hb). exact (Hm _ _ _ E).
  - injection Hb as <- <-. exact (Hm _ _ _ E).
Qed.

Lemma counter_catch {A} (m : M A) (h : error -> M A) :
  counter_kept m -> (forall e, counter_kept (h e)) -> counter_kept (catch m h).
Proof.
  intros Hm Hh w r w' Hc. unfold catch in Hc.
  destruct (m w) as [[a|e] w1] eqn:E.
  - injection Hc as <- <-. exact (Hm _ _ _ E).
  - rewrite (Hh e _ _ _ Hc). exact (Hm _ _ _ E).
Qed.

Lemma counter_select env cond : counter_kept (UserRepository.select env cond).
Proof. intros w r w' Hs. now apply select_inv in Hs as [-> _]. Qed.

Lemma counter_run_update env vid change violates :
  counter_kept (UserRepository.run_update env vid change violates).
Proof.
  intros w r w'. unfold UserRepository.run_update.
  destruct (negb (db_writes_ok env)); [now intros [= <- <-]|].
  destruct (find _ (users w)); [|now intros [= <- <-]].
  destruct (violates (users w)); now intros [= <- <-].
Qed.

Lemma counter_create env d : counter_kept (UserRepository.create env d).
Proof.
  unfold UserRepository.create. apply counter_bind.
  - destruct (Js.falsy (new_email d)); [apply counter_ret|apply counter_lift].
  - intros e w r w'.
    destruct (negb (db_writes_ok env)); [now intros [= <- <-]|].
    destruct (_ || _); now intros [= <- <-].
Qed.

Lemma counter_write_log line : counter_kept (write_log line).
Proof. intros w r w'. unfold write_log. now intros [= <- <-]. Qed.

Lemma counter_send env m : counter_kept (EmailService.send env m).
Proof.
  intros w r w'. unfold EmailService.send.
  destruct (mail_ok env); now intros [= <- <-].
Qed.

Lemma counter_read {A} (f : World -> A) : counter_kept (fun w => (Ok (f w), w)).
Proof. now intros w r w' [= <- <-]. Qed.

(** SETEX under another key. *)
Lemma setex_other_key t (r : gmap string Redis.entry) k seconds v :
  k <> RateLimiterService.login_key userId ->
  snd (Redis.setex t r k seconds v) !! RateLimiterService.login_key userId
  = r !! RateLimiterService.login_key userId.
Proof.
  intros Hk. unfold Redis.setex. destruct (seconds <=? 0); [reflexivity|].
  cbn [snd]. now apply lookup_insert_ne.
Qed.

Lemma session_key_other sid :
  TokenService.SESSION_PREFIX +:+ sid <> RateLimiterService.login_key userId.
Proof. discriminate. Qed.

Lemma refresh_key_other sid :
  TokenService.REFRESH_PREFIX +:+ sid <> RateLimiterService.login_key userId.
Proof. discriminate. Qed.

Lemma resend_key_other uid :
  RateLimiterService.resend_key uid <> RateLimiterService.login_key userId.
Proof. discriminate. Qed.

Lemma counter_generateTokens env a b :
  counter_kept (AuthService.generateTokens config env a b).
Proof.
  unfold AuthService.generateTokens.
  apply counter_bind; [|intros t1; apply counter_bind; [|intros; apply counter_ret]].
  - intros w r w'. unfold AuthService.issue, TokenService.generateAccessToken,
      TokenService.storeSession.
    destruct (String.eqb _ ""); [now intros [= <- <-]|].
    destruct (jwt_sign _ _ _ _); [|now intros [= <- <-]].
    pose proof (setex_other_key (now env) (kv w) _ (TokenService.jwtRefreshExpiry config)
                  (Redis.RSession a b (now env)) (session_key_other (access_session_id env)))
      as Hk.
    destruct (Redis.setex _ _ _ _ _) as [[[]|e] r1]; intros [= <- <-]; exact Hk.
  - intros w r w'. unfold AuthService.issue, TokenService.generateRefreshToken.
    destruct (String.eqb _ ""); [now intros [= <- <-]|].
    destruct (jwt_sign _ _ _ _) as [tok|e]; [|now intros [= <- <-]].
    pose proof (setex_other_key (now env) (kv w) _ (TokenService.jwtRefreshExpiry config)
                  (Redis.RStr tok) (refresh_key_other (refresh_session_id env)))
      as Hk.
    destruct (Redis.setex _ _ _ _ _) as [[[]|e] r1]; intros [= <- <-]; exact Hk.
Qed.

Lemma counter_checkEmailResend env uid :
  counter_kept (AuthService.checkEmailResend env uid).
Proof.
  intros w r w'. unfold AuthService.checkEmailResend, RateLimiterService.checkEmailResend.
  destruct (_ && _); [now intros [= <- <-]|].
  pose proof (setex_other_key (now env) (kv w) _ RateLimiterService.EMAIL_RESEND_DELAY
                (Redis.RInt (now env)) (resend_key_other uid)) as Hk.
  destruct (Redis.setex _ _ _ _ _) as [[[]|e] r1]; intros [= <- <-]; exact Hk.
Qed.

Ltac counter_step :=
  match goal with
  | |- keeps_login_counter _ (bind _ _) => apply counter_bind; [|intros ?]
  | |- keeps_login_counter _ (catch _ _) => apply counter_catch; [|intros ?]
  | |- keeps_login_counter _ (ret _) => apply counter_ret
  | |- keeps_login_counter _ (throw _) => apply counter_throw
  | |- keeps_login_counter _ (lift _) => apply counter_lift
  | |- keeps_login_counter _ (write_log _) => apply counter_write_log
  | |- keeps_login_counter _ (UserRepository.select _ _) => apply counter_select
  | |- keeps_login_counter _ (UserRepository.run_update _ _ _ _) => apply counter_run_update
  | |- keeps_login_counter _ (UserRepository.create _ _) => apply counter_create
  | |- keeps_login_counter _ (EmailService.send _ _) => apply counter_send
  | |- keeps_login_counter _ (AuthService.generateTokens _ _ _ _) =>
      apply counter_generateTokens
  | |- keeps_login_counter _ (AuthService.checkEmailResend _ _) =>
      apply counter_checkEmailResend
  | |- keeps_login_counter _ (fun w => (Ok _, w)) => apply counter_read
  | |- keeps_login_counter _ (match ?x with _ => _ end) => destruct x
  end.

(** Whatever operation of the orchestrator runs, and whether it returns
    or throws, the counter that [checkLoginAttempts] reads for an
    identity is afterwards what it was before: nothing reaches
    [recordFailedLogin]. *)
Lemma operations_keep_login_counter (env : Env) (op : operation) (w : World) :
  kv (run config env op w) !! RateLimiterService.login_key userId
  = kv w !! RateLimiterService.login_key userId.
Proof.
  assert (Hsnd : forall A (m : M A), counter_kept m ->
            kv (snd (m w)) !! RateLimiterService.login_key userId
            = kv w !! RateLimiterService.login_key userId).
  { intros A m Hm. apply (Hm w (fst (m w)) (snd (m w))). now destruct (m w). }
  destruct op; cbn [run]; apply Hsnd;
    unfold AuthService.registerUser, AuthService.loginUser, AuthService.verifyEmail,
      AuthService.forgotPassword, AuthService.resetPassword, AuthService.refreshToken,
      AuthService.logoutUser, AuthService.getCurrentUser,
      AuthService.resendVerificationEmail, AuthService.authenticateWithGoogle,
      AuthService.checkAccountStatus, AuthService.handleFailedLogin,
      AuthService.findUserByToken, AuthService.sendEmailSafe,
      OAuthService.findOrCreateGoogleUser,
      UserRepository.findByEmail, UserRepository.findById,
      UserRepository.findByRefreshToken, UserRepository.findByEmailVerificationToken,
      UserRepository.findByPasswordResetToken, UserRepository.update,
      UserRepository.incrementLoginAttempts, UserRepository.lockAccount;
    repeat counter_step.
Qed.

End LoginCounterUntouched.

(** C2 fails on the code.  Six logins in a row with a wrong password for
    the local identity [alice]: each one fails with the generic
    AuthenticationError, none with AccountLockedError, and at the end the
    table counts six attempts and holds no lockedUntil. *)
Lemma six_wrong_passwords_do_not_lock :
  fst (loginUsers (H := Demo.primitives) Demo.config (repeat demo_env 6)
         {| AuthService.login_email := "a@b.com"; AuthService.login_password := "wrong" |}
         alice_world)
  = repeat (Throw (AuthenticationError AuthService.AUTH_INVALID_CREDENTIALS)) 6
  /\ map (fun u => (Schema.loginAttempts u, Schema.lockedUntil u))
       (users (snd (loginUsers (H := Demo.primitives) Demo.config (repeat demo_env 6)
                      {| AuthService.login_email := "a@b.com";
                         AuthService.login_password := "wrong" |}
                      alice_world)))
     = [(6, None)].
Proof. split; reflexivity. Qed.

(** ** The password/provider invariant of the table *)
Section TableInvariant.
Context `{Primitives}.
Variable config : TokenService.TokenServiceConfig.
Import Schema.

Lemma keeps_preserves {A} (m : M A) : keeps_users m -> preserves m.
Proof. intros Hk w r w' Hm Hok. now rewrite (Hk _ _ _ Hm). Qed.

Lemma keeps_ret {A} (a : A) : keeps_users (ret a).
Proof. intros w r w'. unfold ret. now intros [= <- <-]. Qed.

Lemma keeps_throw {A} (e : error) : keeps_users (@throw A e).
Proof. intros w r w'. unfold throw. now intros [= <- <-]. Qed.

Lemma keeps_lift {A} (x : result A) : keeps_users (lift x).
Proof. intros w r w'. unfold lift. now intros [= <- <-]. Qed.

Lemma keeps_bind {A B} (m : M A) (k : A -> M B) :
  keeps_users m -> (forall a, keeps_users (k a)) -> keeps_users (bind m k).
Proof.
  intros Hm Hk w r w' Hb. unfold bind in Hb.
  destruct (m w) as [[a|e] w1] eqn:E.
  - rewrite (Hk a _ _ _ Hb). exact (Hm _ _ _ E).
  - injection Hb as <- <-. exact (Hm _ _ _ E).
Qed.

Lemma keeps_catch {A} (m : M A) (h : error -> M A) :
  keeps_users m -> (forall e, keeps_users (h e)) -> keeps_users (catch m h).
Proof.
  intros Hm Hh w r w' Hc. unfold catch in Hc.
  destruct (m w) as [[a|e] w1] eqn:E.
  - injection Hc as <- <-. exact (Hm _ _ _ E).
  - rewrite (Hh e _ _ _ Hc). exact (Hm _ _ _ E).
Qed.

Lemma preserves_bind {A B} (m : M A) (k : A -> M B) :
  preserves m -> (forall a, preserves (k a)) -> preserves (bind m k).
Proof.
  intros Hm Hk w r w' Hb Hok. unfold bind in Hb.
  destruct (m w) as [[a|e] w1] eqn:E.
  - exact (Hk a _ _ _ Hb (Hm _ _ _ E Hok)).
  - injection Hb as <- <-. exact (Hm _ _ _ E Hok).
Qed.

Lemma preserves_catch {A} (m : M A) (h : error -> M A) :
  preserves m -> (forall e, preserves (h e)) -> preserves (catch m h).
Proof.
  intros Hm Hh w r w' Hc Hok. unfold catch in Hc.
  destruct (m w) as [[a|e] w1] eqn:E.
  - injection Hc as <- <-. exact (Hm _ _ _ E Hok).
  - exact (Hh e _ _ _ Hc (Hm _ _ _ E Hok)).
Qed.

Lemma keeps_select env cond : keeps_users (UserRepository.select env cond).
Proof. intros w r w' Hs. now apply select_inv in Hs as [-> _]. Qed.

Lemma keeps_write_log line : keeps_users (write_log line).
Proof. intros w r w'. unfold write_log. now intros [= <- <-]. Qed.

Lemma keeps_send env m : keeps_users (EmailService.send env m).
Proof.
  intros w r w'. unfold EmailService.send.
  destruct (mail_ok env); now intros [= <- <-].
Qed.

Lemma keeps_issue f : keeps_users (AuthService.issue f).
Proof. intros w r w' Hi. exact (issue_users _ _ _ _ Hi). Qed.

Lemma keeps_generateTokens env a b : keeps_users (AuthService.generateTokens config env a b).
Proof. intros w r w' Hg. exact (generateTokens_users config _ _ _ _ _ _ Hg). Qed.

Lemma keeps_checkEmailResend env userId : keeps_users (AuthService.checkEmailResend env userId).
Proof.
  intros w r w'. unfold AuthService.checkEmailResend.
  destruct (RateLimiterService.checkEmailResend _ _ _) as [r0 kv1]. now intros [= <- <-].
Qed.

Lemma assign_columns a x :
  id (assign a x) = id x
  /\ (keeps_password a = true -> exactly_one (assign a x) = exactly_one x).
Proof. destruct x, a; cbn; split; auto; discriminate. Qed.

Lemma assign_all_columns data : forall x,
  id (assign_all data x) = id x
  /\ (forallb keeps_password data = true -> exactly_one (assign_all data x) = exactly_one x).
Proof.
  unfold assign_all.
  induction data as [|a data IH]; intros x; [auto|]. cbn [fold_left forallb].
  destruct (IH (assign a x)) as [Hid Hex]. destruct (assign_columns a x) as [Hid1 Hex1].
  split; [congruence|].
  intros [Ha Hd]%andb_true_iff. rewrite Hex, Hex1; auto.
Qed.

(** Rewriting rows in place, keeping their ids and their invariant. *)
Lemma table_ok_map (f : User -> User) (us : list User) :
  (forall x, id (f x) = id x) ->
  (forall x, In x us -> exactly_one x = true -> exactly_one (f x) = true) ->
  table_ok us -> table_ok (map f us).
Proof.
  intros Hid Hex [Hnd Hall]. split.
  - rewrite map_map. erewrite map_ext; [exact Hnd|]. intros x. apply Hid.
  - apply List.Forall_forall. intros y [x [<- Hin]]%in_map_iff.
    rewrite List.Forall_forall in Hall. destruct (Hall x Hin) as [Hc He].
    rewrite Hid. split; [exact Hc|]. now apply Hex.
Qed.

Lemma preserves_run_update env vid change violates :
  (forall x, id (change x) = id x /\ exactly_one (change x) = exactly_one x) ->
  preserves (UserRepository.run_update env vid change violates).
Proof.
  intros Hch w r w' Hu Hok. unfold UserRepository.run_update in Hu.
  destruct (negb (db_writes_ok env)); [now injection Hu as <- <-|].
  destruct (find _ (users w)); [|now injection Hu as <- <-].
  destruct (violates (users w)); [now injection Hu as <- <-|].
  injection Hu as <- <-. cbn [users set_users].
  apply table_ok_map; [| |exact Hok].
  - intros x. destruct (String.eqb _ _); [apply Hch|reflexivity].
  - intros x _ Hx. destruct (String.eqb _ _); [|exact Hx]. now rewrite (proj2 (Hch x)).
Qed.

Lemma preserves_update env userId data :
  forallb keeps_password data = true ->
  preserves (UserRepository.update env userId data).
Proof.
  intros Hdata. unfold UserRepository.update.
  apply preserves_bind; [apply keeps_preserves, keeps_lift|]. intros vid.
  apply preserves_run_update. intros x.
  destruct (assign_all_columns (map UserRepository.sanitizeAssignment data
                                  ++ [set_updatedAt (now env)]) x) as [Hid Hex].
  split; [exact Hid|]. apply Hex.
  rewrite forallb_app, andb_true_iff. split; [|reflexivity].
  rewrite forallb_forall in Hdata. apply forallb_forall.
  intros a [b [<- Hb]]%in_map_iff. specialize (Hdata b Hb). now destruct b.
Qed.

End TableInvariant.

(** ** The operations of the orchestrator and the invariant *)
Section AuthCoreInvariant.
Context `{Primitives}.
Variable config : TokenService.TokenServiceConfig.
Import Schema.

Lemma keeps_read {A} (f : World -> A) : keeps_users (fun w => (Ok (f w), w)).
Proof. now intros w r w' [= <- <-]. Qed.

Lemma preserves_create env (d : NewUser) :
  xorb (match new_password d with Some _ => true | None => false end)
       (AuthProvider_eqb (new_authProvider d) google) = true ->
  UserRepository.validateUserId (new_user_id env) = Ok (new_user_id env) ->
  preserves (UserRepository.create env d).
Proof.
  intros Hd Hid w r w' Hc [Hnd Hall]. unfold UserRepository.create, bind in Hc.
  destruct ((if Js.falsy (new_email d) then ret (new_email d)
             else lift (UserRepository.validateEmail (new_email d))) w)
    as [[e|err] w0] eqn:E.
  2:{ injection Hc as <- <-. destruct (Js.falsy (new_email d)); [discriminate|].
      unfold lift in E. injection E as _ <-. now split. }
  assert (w0 = w) as ->.
  { destruct (Js.falsy (new_email d)); unfold ret, lift in E; now injection E. }
  destruct (negb (db_writes_ok env)); [injection Hc as <- <-; now split|].
  destruct (existsb _ (users w) || _) eqn:Ex; [injection Hc as <- <-; now split|].
  injection Hc as <- <-. cbn [users set_users].
  apply orb_false_iff in Ex as [Ex _].
  split.
  - rewrite map_app. cbn [map id]. apply NoDup_app. repeat split.
    + exact Hnd.
    + intros i Hi Hin. apply list_elem_of_In in Hi, Hin. destruct Hin as [<-|[]].
      apply in_map_iff in Hi as [x [Hx Hin]].
      match type of Ex with
      | existsb ?f _ = false => assert (Ht : existsb f (users w) = true)
      end.
      { apply existsb_exists. exists x. split; [exact Hin|].
        rewrite Hx, String.eqb_refl. apply orb_true_r. }
      congruence.
    + apply NoDup_singleton.
  - apply Forall_app. split; [exact Hall|]. constructor; [|constructor].
    cbn [id]. split; [exact Hid|]. exact Hd.
Qed.

Lemma keeps_findByEmail env email : keeps_users (UserRepository.findByEmail env email).
Proof. apply keeps_bind; [apply keeps_lift|]. intros v. apply keeps_select. Qed.

Lemma keeps_findById env userId : keeps_users (UserRepository.findById env userId).
Proof. apply keeps_bind; [apply keeps_lift|]. intros v. apply keeps_select. Qed.

Lemma keeps_findByRefreshToken env t : keeps_users (UserRepository.findByRefreshToken env t).
Proof.
  unfold UserRepository.findByRefreshToken.
  destruct (Js.falsy t); [apply keeps_ret|apply keeps_select].
Qed.

Lemma keeps_findUserByToken env token type :
  keeps_users (AuthService.findUserByToken env token type).
Proof.
  unfold AuthService.findUserByToken.
  destruct (Js.falsy token); [apply keeps_throw|].
  apply keeps_bind.
  - destruct type; unfold UserRepository.findByEmailVerificationToken,
      UserRepository.findByPasswordResetToken;
      destruct (Js.falsy _); first [apply keeps_ret|apply keeps_select].
  - intros [u|]; [|apply keeps_throw].
    destruct type;
      match goal with
      | |- keeps_users (match ?x with _ => _ end) => destruct x as [t|]
      end;
      try apply keeps_throw;
      destruct (t <? now env); first [apply keeps_throw|apply keeps_ret].
Qed.

Lemma keeps_sendEmailSafe env m : keeps_users (AuthService.sendEmailSafe env m).
Proof. apply keeps_catch; [apply keeps_send|]. intros e. apply keeps_write_log. Qed.

Lemma preserves_incrementLoginAttempts env userId :
  preserves (UserRepository.incrementLoginAttempts env userId).
Proof.
  apply preserves_bind; [apply keeps_preserves, keeps_lift|]. intros vid.
  apply preserves_bind; [|intros; apply keeps_preserves, keeps_ret].
  apply preserves_run_update. intros x. now destruct x.
Qed.

Lemma preserves_lockAccount env userId until :
  preserves (UserRepository.lockAccount env userId until).
Proof.
  apply preserves_bind; [apply keeps_preserves, keeps_lift|]. intros vid.
  apply preserves_bind; [|intros; apply keeps_preserves, keeps_ret].
  apply preserves_run_update. intros x. now destruct x.
Qed.

End AuthCoreInvariant.

Section AuthCoreInvariantProofs.
Context `{Primitives}.
Variable config : TokenService.TokenServiceConfig.
Variable env : Env.
Hypothesis new_id_canonical :
  UserRepository.validateUserId (new_user_id env) = Ok (new_user_id env).
Import Schema.

Ltac preserve_step :=
  match goal with
  | |- preserves (bind _ _) => apply preserves_bind; [|intros ?]
  | |- preserves (catch _ _) => apply preserves_catch; [|intros ?]
  | |- preserves (ret _) => apply keeps_preserves, keeps_ret
  | |- preserves (throw _) => apply keeps_preserves, keeps_throw
  | |- preserves (lift _) => apply keeps_preserves, keeps_lift
  | |- preserves (write_log _) => apply keeps_preserves, keeps_write_log
  | |- preserves (UserRepository.findByEmail _ _) => apply keeps_preserves, keeps_findByEmail
  | |- preserves (UserRepository.findById _ _) => apply keeps_preserves, keeps_findById
  | |- preserves (UserRepository.findByRefreshToken _ _) =>
      apply keeps_preserves, keeps_findByRefreshToken
  | |- preserves (AuthService.findUserByToken _ _ _) =>
      apply keeps_preserves, keeps_findUserByToken
  | |- preserves (AuthService.sendEmailSafe _ _) => apply keeps_preserves, keeps_sendEmailSafe
  | |- preserves (EmailService.send _ _) => apply keeps_preserves, keeps_send
  | |- preserves (AuthService.generateTokens _ _ _ _) =>
      apply keeps_preserves, keeps_generateTokens
  | |- preserves (AuthService.checkEmailResend _ _) =>
      apply keeps_preserves, keeps_checkEmailResend
  | |- preserves (UserRepository.update _ _ _) => apply preserves_update; reflexivity
  | |- preserves (UserRepository.create _ _) =>
      apply preserves_create; [reflexivity | exact new_id_canonical]
  | |- preserves (UserRepository.incrementLoginAttempts _ _) =>
      apply preserves_incrementLoginAttempts
  | |- preserves (UserRepository.lockAccount _ _ _) => apply preserves_lockAccount
  | |- preserves (fun w => (Ok _, w)) => apply keeps_preserves, keeps_read
  | |- preserves (match ?x with _ => _ end) => destruct x
  end.

Lemma preserves_registerUser data : preserves (AuthService.registerUser config env data).
Proof. unfold AuthService.registerUser. repeat preserve_step. Qed.

Lemma preserves_loginUser data : preserves (AuthService.loginUser config env data).
Proof.
  unfold AuthService.loginUser, AuthService.checkAccountStatus,
    AuthService.handleFailedLogin.
  repeat preserve_step.
Qed.

Lemma preserves_verifyEmail token : preserves (AuthService.verifyEmail env token).
Proof. unfold AuthService.verifyEmail. repeat preserve_step. Qed.

Lemma preserves_forgotPassword email : preserves (AuthService.forgotPassword env email).
Proof. unfold AuthService.forgotPassword. repeat preserve_step. Qed.

Lemma preserves_refreshToken token : preserves (AuthService.refreshToken config env token).
Proof. unfold AuthService.refreshToken. repeat preserve_step. Qed.

Lemma preserves_logoutUser userId : preserves (AuthService.logoutUser env userId).
Proof. unfold AuthService.logoutUser. repeat preserve_step. Qed.

Lemma preserves_getCurrentUser userId : preserves (AuthService.getCurrentUser env userId).
Proof. unfold AuthService.getCurrentUser. repeat preserve_step. Qed.

Lemma preserves_resendVerificationEmail userId :
  preserves (AuthService.resendVerificationEmail env userId).
Proof. unfold AuthService.resendVerificationEmail. repeat preserve_step. Qed.

Lemma preserves_authenticateWithGoogle code :
  preserves (AuthService.authenticateWithGoogle config env code).
Proof.
  unfold AuthService.authenticateWithGoogle, OAuthService.findOrCreateGoogleUser.
  repeat preserve_step.
Qed.

End AuthCoreInvariantProofs.

Section ResetPasswordInvariant.
Context `{Primitives}.
Variable config : TokenService.TokenServiceConfig.
Import Schema.

Lemma NoDup_map_injective {A B} (f : A -> B) (l : list A) (x y : A) :
  NoDup (map f l) -> In x l -> In y l -> f x = f y -> x = y.
Proof.
  induction l as [|a l IH]; [intros _ []|].
  cbn [map]. intros [Hnotin Hnd]%NoDup_cons [->|Hx] [->|Hy] Hf; auto.
  - exfalso. apply Hnotin. rewrite Hf. apply list_elem_of_In, in_map. exact Hy.
  - exfalso. apply Hnotin. rewrite <- Hf. apply list_elem_of_In, in_map. exact Hx.
Qed.

(** The identity a token resolves to is a row of the table. *)
Lemma findUserByToken_member env token type w u w' :
  AuthService.findUserByToken env token type w = (Ok u, w') -> In u (users w).
Proof.
  unfold AuthService.findUserByToken. destruct (Js.falsy token); [discriminate|].
  unfold bind.
  destruct type;
    unfold UserRepository.findByEmailVerificationToken,
      UserRepository.findByPasswordResetToken;
    (destruct (Js.falsy (TokenService.hashToken token)); [discriminate|]);
    match goal with
    | |- context [UserRepository.select ?e ?c w] =>
        destruct (UserRepository.select e c w) as [[found|err] w0] eqn:Ef
    end; try discriminate;
    (apply select_inv in Ef as [-> [Ef|Ef]]; [discriminate|]);
    injection Ef as ->;
    match goal with
    | |- context [find ?c (users w)] => destruct (find c (users w)) as [x|] eqn:Efind
    end; try discriminate;
    apply find_some in Efind as [Hin _];
    match goal with
    | |- context [match ?t with Some _ => _ | None => _ end] => destruct t as [t0|]
    end; try discriminate;
    (destruct (t0 <? now env); [discriminate|]);
    unfold ret; intros [= <- _]; exact Hin.
Qed.

(** Rewriting the one row that has the id of [u]. *)
Lemma table_ok_update_one (us : list User) (u : User) (change : User -> User) :
  table_ok us -> In u us ->
  (forall x, id (change x) = id x) ->
  exactly_one (change u) = true ->
  table_ok (map (fun x => if String.eqb (id x) (id u) then change x else x) us).
Proof.
  intros Hok Hin Hid Hex. apply table_ok_map; [| |exact Hok].
  - intros x. destruct (String.eqb _ _); [apply Hid|reflexivity].
  - intros x Hx Hone. destruct (String.eqb (id x) (id u)) eqn:E; [|exact Hone].
    apply String.eqb_eq in E.
    now rewrite (NoDup_map_injective id us x u (proj1 Hok) Hx Hin E).
Qed.

(** Redeeming a reset token of a local identity keeps the table well
    formed: the identity had a password hash and gets a new one. *)
Lemma resetPassword_local env token newPassword w :
  table_ok (users w) ->
  (forall u, fst (AuthService.findUserByToken env token AuthService.reset w) = Ok u ->
             authProvider u = local) ->
  table_ok (users (snd (AuthService.resetPassword env token newPassword w))).
Proof.
  intros Hok Hlocal. unfold AuthService.resetPassword, bind.
  destruct (AuthService.findUserByToken env token AuthService.reset w)
    as [[u|e] w0] eqn:Ef; cbn [snd].
  2:{ now rewrite (keeps_findUserByToken _ _ _ _ _ _ Ef). }
  pose proof (findUserByToken_member _ _ _ _ _ _ Ef) as Hin.
  pose proof (keeps_findUserByToken _ _ _ _ _ _ Ef) as Hus.
  specialize (Hlocal u eq_refl).
  unfold lift at 1. destruct (PasswordService.hash newPassword) as [hp|e]; cbn [snd].
  2:{ now rewrite Hus. }
  destruct Hok as [Hnd Hall]. pose proof Hall as Hall'.
  rewrite List.Forall_forall in Hall'. destruct (Hall' u Hin) as [Hcan _].
  match goal with
  | |- context [UserRepository.update env (id u) ?data w0] =>
      destruct (UserRepository.update env (id u) data w0) as [r1 w1] eqn:Eu
  end.
  assert (Hw1 : table_ok (users w1)).
  { unfold UserRepository.update, bind, lift, UserRepository.run_update in Eu.
    rewrite Hcan in Eu.
    destruct (negb (db_writes_ok env)).
    { injection Eu as _ <-. rewrite Hus. now split. }
    destruct (find _ (users w0)).
    2:{ injection Eu as _ <-. rewrite Hus. now split. }
    cbn [map app UserRepository.sanitizeAssignment UserRepository.assigned_googleId
           fold_left UserRepository.googleId_taken] in Eu.
    injection Eu as _ <-. cbn [users set_users]. rewrite Hus.
    apply table_ok_update_one; [now split|exact Hin| |].
    - intros x. now destruct x.
    - unfold exactly_one. destruct u. cbn in *. now rewrite Hlocal. }
  destruct r1 as [o|e]; cbn [snd]; [|exact Hw1].
  destruct (AuthService.sendEmailSafe env _ w1) as [r2 w2] eqn:Es. cbn [snd].
  now rewrite (keeps_sendEmailSafe _ _ _ _ _ Es).
Qed.

(** A password login for an identity whose provider is google is
    refused before the password is looked at, whatever the table holds
    in the password column. *)
Lemma loginUser_refuses_google_identity env data v u w :
  UserRepository.validateEmail (AuthService.login_email data) = Ok v ->
  db_reads_ok env = true ->
  find (fun x => String.eqb (email x) v) (users w) = Some u ->
  authProvider u = google ->
  AuthService.loginUser config env data w
  = (Throw (AuthenticationError AuthService.AUTH_GOOGLE_ACCOUNT_REQUIRED), w).
Proof.
  intros Hv Hr Hfind Hg. unfold AuthService.loginUser, bind.
  now rewrite (findByEmail_ok env _ v w Hv Hr), Hfind, Hg.
Qed.

(** C4, as the code has it.  The table stays well formed, every
    identity with exactly one of a password hash and the provider
    google, under every operation of the orchestrator, but for
    [resetPassword] redeeming the reset token of a google identity, of
    which nothing is said.  And a google identity never logs in with a
    password: [loginUser] refuses it whatever its password column
    holds. *)
Theorem invariant_kept_but_for_google_reset
    (env : Env) (op : operation) (w : World) :
  table_ok (users w) ->
  UserRepository.validateUserId (new_user_id env) = Ok (new_user_id env) ->
  (forall token newPassword u,
      op = ResetPassword token newPassword ->
      fst (AuthService.findUserByToken env token AuthService.reset w) = Ok u ->
      authProvider u = local) ->
  table_ok (users (run config env op w))
  /\ forall data v u,
       UserRepository.validateEmail (AuthService.login_email data) = Ok v ->
       db_reads_ok env = true ->
       find (fun x => String.eqb (email x) v) (users w) = Some u ->
       authProvider u = google ->
       AuthService.loginUser config env data w
       = (Throw (AuthenticationError AuthService.AUTH_GOOGLE_ACCOUNT_REQUIRED), w).
Proof.
  intros Hok Hid Hreset. split.
  2:{ intros data v u. apply loginUser_refuses_google_identity. }
  assert (Hsnd : forall A (m : M A), preserves m -> table_ok (users (snd (m w)))).
  { intros A m Hm. apply (Hm w (fst (m w)) (snd (m w))); [|exact Hok].
    now destruct (m w). }
  destruct op; cbn [run].
  - apply Hsnd, preserves_registerUser, Hid.
  - apply Hsnd, preserves_loginUser.
  - apply Hsnd, preserves_verifyEmail.
  - apply Hsnd, preserves_forgotPassword.
  - apply resetPassword_local; [exact Hok|]. intros u Hu.
    exact (Hreset _ _ u eq_refl Hu).
  - apply Hsnd, preserves_refreshToken.
  - apply Hsnd, preserves_logoutUser.
  - apply Hsnd, preserves_getCurrentUser.
  - apply Hsnd, preserves_resendVerificationEmail.
  - apply Hsnd, preserves_authenticateWithGoogle, Hid.
Qed.

End ResetPasswordInvariant.

(** In a well-formed table the check of [exactly_one] passes on every
    row. *)
Lemma table_ok_exactly_one (us : list Schema.User) :
  table_ok us -> forallb exactly_one us = true.
Proof.
  intros [_ Hall]. apply forallb_forall. intros u Hin.
  rewrite List.Forall_forall in Hall. exact (proj2 (Hall u Hin)).
Qed.

Lemma invariant_kept_but_for_google_reset_witness :
  table_ok (users (run (H := Demo.primitives) Demo.config demo_env
                     (ResetPassword "tok-1" "N3wPassw0rd") alice_reset_world)).
Proof.
  apply (invariant_kept_but_for_google_reset (H := Demo.primitives) Demo.config demo_env
           (ResetPassword "tok-1" "N3wPassw0rd") alice_reset_world).
  - split.
    + apply NoDup_singleton.
    + constructor; [|constructor]. split; vm_compute; reflexivity.
  - vm_compute. reflexivity.
  - intros token newPassword u Hop Hfind. injection Hop as <- <-.
    vm_compute in Hfind. injection Hfind as <-. reflexivity.
Defined.

(** C4, as the specification states it, fails.  From the empty table, a
    Google login creates a google identity without a password; it then
    asks for a password reset and redeems the token.  The identity now
    has a password hash and the provider google: neither exactly one of
    the two holds, nor is the table well formed any more. *)
Lemma google_identity_acquires_password_hash :
  table_ok (users empty_world)
  /\ map (fun u => (Schema.authProvider u, Schema.password u, exactly_one u))
       (users google_reset_trace)
     = [(Schema.google, Some "argon2:N3wPassw0rd", false)]
  /\ ~ table_ok (users google_reset_trace).
Proof.
  split; [split; constructor|]. split; [vm_compute; reflexivity|].
  intros Hok%table_ok_exactly_one. vm_compute in Hok. discriminate.
Qed.


(** * Further properties of the modules *)

(** ** The rate limiter below the threshold, after the window, after a reset *)
Section RateLimiterMore.
Context `{Primitives}.
Import Redis RateLimiterService.

(** What [checkLoginAttempts] answers on a live counter under the
    maximum. *)
Lemma checkLoginAttempts_under_max (r : gmap string entry) userId t n x :
  r !! login_key userId = Some (Entry (RInt n) (Some x)) ->
  0 <= n < MAX_LOGIN_ATTEMPTS -> t <= x ->
  checkLoginAttempts t r userId
  = {| canAttempt := true; attemptsRemaining := Num (MAX_LOGIN_ATTEMPTS - n);
       lockedUntil := None |}.
Proof.
  intros Hr Hn Ht. unfold checkLoginAttempts, get, lookup_live, expired.
  rewrite Hr. cbn [ent_expire ent_value].
  destruct (Z.ltb_spec x t); [lia|]. cbn.
  unfold MAX_LOGIN_ATTEMPTS in *.
  destruct (Z.leb_spec 5 n); [lia|]. cbn [andb].
  now replace (Z.max 0 (5 - n)) with (5 - n) by lia.
Qed.

(** X1. Under the threshold nothing is locked: from no counter, one to
    four failures recorded inside the window that the first opens leave
    canAttempt=true and as many attempts as the maximum less the
    failures, at every instant of the window. *)
Theorem attempts_remaining_below_threshold
    (r : gmap string entry) (userId : string) (t1 t : Z) (rest : list Z) :
  get t1 r (login_key userId) = None ->
  Forall (fun x => x <= window_end t1) rest ->
  (List.length rest < 4)%nat ->
  t <= window_end t1 ->
  checkLoginAttempts t (recordFailedLogins (t1 :: rest) r userId) userId
  = {| canAttempt := true;
       attemptsRemaining := Num (4 - Z.of_nat (List.length rest));
       lockedUntil := None |}.
Proof.
  intros Hget Hall Hlen Ht.
  rewrite (checkLoginAttempts_under_max _ userId t (1 + Z.of_nat (List.length rest))
             (window_end t1)).
  - unfold MAX_LOGIN_ATTEMPTS. do 2 f_equal. lia.
  - apply recordFailedLogins_window; [assumption..|lia].
  - unfold MAX_LOGIN_ATTEMPTS. lia.
  - exact Ht.
Qed.

Lemma recordFailedLogins_app (a b : list Z) (r : gmap string entry) userId :
  recordFailedLogins (a ++ b) r userId = recordFailedLogins b (recordFailedLogins a r userId) userId.
Proof. revert r. induction a as [|t a IH]; intros r; [reflexivity|]. cbn. apply IH. Qed.

(** Whatever number of failures is recorded inside an open window, the
    counter stays an integer of at least one and keeps the expiry of the
    window (also at the largest integer of the store, where INCR fails
    and leaves the key as it is). *)
Lemma recordFailedLogins_expiry (times : list Z) :
  forall (r : gmap string entry) userId n x,
    r !! login_key userId = Some (Entry (RInt n) (Some x)) ->
    Forall (fun t => t <= x) times ->
    1 <= n ->
    exists m, 1 <= m
      /\ recordFailedLogins times r userId !! login_key userId
         = Some (Entry (RInt m) (Some x)).
Proof.
  induction times as [|t rest IH]; intros r userId n x Hr Hall Hn.
  - exists n. auto.
  - inversion Hall as [|? ? Ht Hrest]; subst. cbn [recordFailedLogins].
    destruct (Z.ltb_spec n int64_max) as [Hlt|Hge].
    + rewrite (recordFailedLogin_next r userId t n x Hr Ht) by lia.
      apply (IH _ userId (n + 1) x); [apply lookup_insert_eq | exact Hrest | lia].
    + assert (E : snd (recordFailedLogin t r userId) = r).
      { unfold recordFailedLogin, incr, lookup_live, expired. rewrite Hr. cbn.
        destruct (Z.ltb_spec x t); [lia|]. cbn.
        destruct (Z.ltb_spec n int64_max); [lia|]. reflexivity. }
      rewrite E. apply (IH _ userId n x); assumption.
Qed.

(** X2. The lockout ends with the window.  After any number of failures
    in one window (so also after a lockout), once the clock is past the
    end of that window [checkLoginAttempts] allows again with the full
    five attempts, and the next failure opens a new window of its own:
    it counts as the first, and the key expires fifteen minutes after
    it. *)
Theorem lockout_ends_with_window
    (r : gmap string entry) (userId : string) (t1 t : Z) (rest : list Z) :
  get t1 r (login_key userId) = None ->
  Forall (fun x => x <= window_end t1) rest ->
  window_end t1 < t ->
  checkLoginAttempts t (recordFailedLogins (t1 :: rest) r userId) userId
  = {| canAttempt := true; attemptsRemaining := Num 5; lockedUntil := None |}
  /\ recordFailedLogins ((t1 :: rest) ++ [t]) r userId !! login_key userId
     = Some (Entry (RInt 1) (Some (window_end t))).
Proof.
  intros Hget Hall Ht.
  assert (E : exists m, 1 <= m
                /\ recordFailedLogins (t1 :: rest) r userId !! login_key userId
                   = Some (Entry (RInt m) (Some (window_end t1)))).
  { cbn [recordFailedLogins]. rewrite (recordFailedLogin_first r userId t1 Hget).
    apply (recordFailedLogins_expiry rest _ userId 1 (window_end t1));
      [apply lookup_insert_eq | exact Hall | lia]. }
  destruct E as (m & _ & E).
  assert (Hgone : get t (recordFailedLogins (t1 :: rest) r userId) (login_key userId) = None).
  { unfold get, lookup_live, expired. rewrite E. cbn [ent_expire].
    destruct (Z.ltb_spec (window_end t1) t); [reflexivity|lia]. }
  rewrite recordFailedLogins_app.
  set (r5 := recordFailedLogins (t1 :: rest) r userId) in *.
  split.
  - unfold checkLoginAttempts. rewrite Hgone. reflexivity.
  - cbn [recordFailedLogins].
    rewrite (recordFailedLogin_first r5 userId t Hgone). apply lookup_insert_eq.
Qed.

(** X3. [resetLoginAttempts] clears a lockout at once: whatever the
    store held, afterwards [checkLoginAttempts] allows with five attempts
    left, and no other key of the store has changed. *)
Theorem resetLoginAttempts_unlocks (r : gmap string entry) (userId : string) (t : Z) :
  checkLoginAttempts t (resetLoginAttempts r userId) userId
  = {| canAttempt := true; attemptsRemaining := Num 5; lockedUntil := None |}
  /\ forall k, k <> login_key userId -> resetLoginAttempts r userId !! k = r !! k.
Proof.
  unfold resetLoginAttempts, del. split.
  - apply checkLoginAttempts_no_counter. apply lookup_delete_eq.
  - intros k Hk. now apply lookup_delete_ne.
Qed.

(** X4. The resend cooldown.  From no record of a send, a first
    [checkEmailResend] at [t0] allows and records [t0]; a second one less
    than sixty seconds later refuses, names the sixtieth second as the
    next allowed instant and writes nothing; from the sixtieth second on
    the next one allows again. *)
Theorem email_resend_cooldown (r : gmap string entry) (userId : string) (t0 t : Z) :
  get t0 r (resend_key userId) = None ->
  t0 <= t ->
  let r1 := snd (checkEmailResend t0 r userId) in
  fst (checkEmailResend t0 r userId) = Ok {| canResend := true; nextAllowedAt := None |}
  /\ (t < t0 + 60000 ->
      checkEmailResend t r1 userId
      = (Ok {| canResend := false; nextAllowedAt := Some (Num (t0 + 60000)) |}, r1))
  /\ (t0 + 60000 <= t ->
      fst (checkEmailResend t r1 userId) = Ok {| canResend := true; nextAllowedAt := None |}).
Proof.
  intros Hget Ht r1.
  assert (E1 : checkEmailResend t0 r userId
               = (Ok {| canResend := true; nextAllowedAt := None |},
                  <[resend_key userId := Entry (RInt t0) (Some (t0 + 60000))]> r)).
  { unfold checkEmailResend. rewrite Hget. reflexivity. }
  subst r1. rewrite E1. cbn [fst snd]. split; [reflexivity|].
  unfold checkEmailResend, get, lookup_live, expired. rewrite lookup_insert_eq.
  cbn [ent_expire ent_value fmap option_fmap option_map truthy parseInt within_delay andb].
  unfold EMAIL_RESEND_DELAY. split; intros Hlt.
  - destruct (Z.ltb_spec (t0 + 60000) t); [lia|]. cbn.
    destruct (Z.ltb_spec (t - t0) (60 * 1000)); [|lia]. reflexivity.
  - destruct (Z.ltb_spec (t0 + 60000) t); [reflexivity|]. cbn.
    destruct (Z.ltb_spec (t - t0) (60 * 1000)); [lia|]. reflexivity.
Qed.

End RateLimiterMore.

Lemma attempts_remaining_below_threshold_witness :
  RateLimiterService.checkLoginAttempts (H := Demo.primitives) 5000
    (RateLimiterService.recordFailedLogins [0; 1000; 2000] ∅ "u1") "u1"
  = {| RateLimiterService.canAttempt := true;
       RateLimiterService.attemptsRemaining := Num 2;
       RateLimiterService.lockedUntil := None |}.
Proof.
  apply (attempts_remaining_below_threshold (H := Demo.primitives) ∅ "u1" 0 5000 [1000; 2000]).
  - reflexivity.
  - repeat constructor; vm_compute; discriminate.
  - cbn. lia.
  - vm_compute. discriminate.
Defined.

Lemma lockout_ends_with_window_witness :
  RateLimiterService.checkLoginAttempts (H := Demo.primitives) 900001
    (RateLimiterService.recordFailedLogins [0; 1; 2; 3; 4] ∅ "u1") "u1"
  = {| RateLimiterService.canAttempt := true;
       RateLimiterService.attemptsRemaining := Num 5;
       RateLimiterService.lockedUntil := None |}.
Proof.
  apply (lockout_ends_with_window (H := Demo.primitives) ∅ "u1" 0 900001 [1; 2; 3; 4]).
  - reflexivity.
  - repeat constructor; vm_compute; discriminate.
  - reflexivity.
Defined.

Lemma email_resend_cooldown_witness :
  RateLimiterService.checkEmailResend (H := Demo.primitives) 30000
    (snd (RateLimiterService.checkEmailResend (H := Demo.primitives) 0 ∅ "u1")) "u1"
  = (Ok {| RateLimiterService.canResend := false;
           RateLimiterService.nextAllowedAt := Some (Num 60000) |},
     snd (RateLimiterService.checkEmailResend (H := Demo.primitives) 0 ∅ "u1")).
Proof.
  apply (email_resend_cooldown (H := Demo.primitives) ∅ "u1" 0 30000);
    [reflexivity | lia | lia].
Defined.

(** ** Revocation and the kinds of token *)
Section TokenServiceMore.
Context `{Primitives}.
Variable config : TokenService.TokenServiceConfig.
Import Redis TokenService.

(** X5. [revokeToken] has nothing to revoke, and writes nothing, when
    the token does not decode, carries no expiry, or is already past its
    expiry: the call returns and the store is what it was. *)
Theorem revokeToken_nothing_to_revoke (now : Z) (r : gmap string entry) (token : string) :
  (jwt_parse token = None
   \/ exists t, jwt_parse token = Some t
        /\ (Jwt.exp (Jwt.payload t) = None
            \/ exists e, Jwt.exp (Jwt.payload t) = Some e /\ e <= now / 1000)) ->
  revokeToken now r token = (Ok tt, r).
Proof.
  unfold revokeToken, jwt_decode.
  intros [-> | (t & -> & [He | (e & He & Hle)])]; cbn [fmap option_fmap option_map];
    [reflexivity | now rewrite He | rewrite He].
  destruct (e =? 0); [reflexivity|].
  destruct (Z.leb_spec (e - now / 1000) 0); [reflexivity|lia].
Qed.

(** X6. The blacklist entry lives as long as the token.  After
    [revokeToken] of a token that expires at second [e], the token reads
    as blacklisted at every instant before that second, and the entry is
    gone from the second after it on. *)
Theorem blacklist_entry_lives_with_token
    (revokedAt now : Z) (r : gmap string entry) (token : string) (t : Jwt.token) (e : Z) :
  jwt_parse token = Some t ->
  Jwt.exp (Jwt.payload t) = Some e ->
  e <> 0 -> revokedAt / 1000 < e ->
  (now < e * 1000 ->
   isTokenBlacklisted now (snd (revokeToken revokedAt r token)) token = true)
  /\ ((e + 1) * 1000 <= now ->
      isTokenBlacklisted now (snd (revokeToken revokedAt r token)) token = false).
Proof.
  intros Hp He H0 Hlt.
  assert (Hrevoke : snd (revokeToken revokedAt r token)
                    = <[BLACKLIST_PREFIX +:+ hashToken token :=
                          Entry (RInt 1) (Some (revokedAt + (e - revokedAt / 1000) * 1000))]> r).
  { unfold revokeToken, jwt_decode, setex. rewrite Hp. cbn [fmap option_fmap option_map].
    rewrite He. destruct (Z.eqb_spec e 0); [contradiction|].
    destruct (Z.leb_spec (e - revokedAt / 1000) 0); [lia|]. reflexivity. }
  rewrite Hrevoke. unfold isTokenBlacklisted, exists_, lookup_live, expired.
  rewrite lookup_insert_eq. cbn [ent_expire].
  pose proof (Z.mul_div_le revokedAt 1000 ltac:(lia)).
  pose proof (Z.mul_succ_div_gt revokedAt 1000 ltac:(lia)).
  split; intros Hnow.
  - destruct (Z.ltb_spec (revokedAt + (e - revokedAt / 1000) * 1000) now); [lia|reflexivity].
  - destruct (Z.ltb_spec (revokedAt + (e - revokedAt / 1000) * 1000) now); [reflexivity|lia].
Qed.

(** X7. A signature failure is never reported as an expiry, and the two
    kinds of token do not pass for each other.  A string that does not
    decode, or a token whose signature is not that of the access secret
    (so, with distinct secrets, every refresh token), makes
    [verifyAccessToken] throw InvalidTokenError at every instant, before
    or after the token's expiry; and [verifyRefreshToken] does the same
    for what the refresh secret did not sign. *)
Theorem wrong_signature_is_invalid_token
    (now : Z) (r : gmap string entry) (token : string) :
  (match jwt_parse token with
   | Some t => Jwt.signer t <> Some (jwtAccessSecret config)
   | None => True
   end ->
   verifyAccessToken config now r token = (Throw InvalidTokenError, []))
  /\ (match jwt_parse token with
      | Some t => Jwt.signer t <> Some (jwtRefreshSecret config)
      | None => True
      end ->
      verifyRefreshToken config now token = Throw InvalidTokenError).
Proof.
  unfold verifyAccessToken, verifyRefreshToken, jwt_verify.
  split; intros Hs; destruct (jwt_parse token) as [t|]; try reflexivity;
    now rewrite bool_decide_eq_false_2.
Qed.

End TokenServiceMore.

Lemma revokeToken_nothing_to_revoke_witness :
  TokenService.revokeToken (H := Demo.primitives) 3000000 ∅ "access.jwt" = (Ok tt, ∅).
Proof.
  apply (revokeToken_nothing_to_revoke (H := Demo.primitives)).
  right. eexists. split; [reflexivity|]. right. exists 1900. split; [reflexivity|].
  vm_compute. discriminate.
Defined.

Lemma blacklist_entry_lives_with_token_witness :
  TokenService.isTokenBlacklisted (H := Demo.primitives) 1899999
    (snd (TokenService.revokeToken (H := Demo.primitives) 1200500 ∅ "access.jwt")) "access.jwt"
  = true.
Proof.
  apply (blacklist_entry_lives_with_token (H := Demo.primitives) 1200500 1899999 ∅ "access.jwt"
           {| Jwt.payload := Demo.access_claims; Jwt.signer := Some "access-secret" |} 1900);
    try reflexivity; lia.
Defined.

Lemma wrong_signature_is_invalid_token_witness :
  TokenService.verifyAccessToken (H := Demo.primitives) Demo.config 1500000 ∅ "refresh.jwt"
  = (Throw InvalidTokenError, []).
Proof.
  apply (wrong_signature_is_invalid_token (H := Demo.primitives) Demo.config 1500000 ∅
           "refresh.jwt").
  vm_compute. discriminate.
Defined.

(** ** Opaque tokens kept in the key-value store, and the revocation scan *)
Section StoredTokens.
Context `{Primitives}.
Variable config : TokenService.TokenServiceConfig.
Variable json_user : string -> string -> string.
Variable json_parse : string -> result TokenService.json.
Import Redis TokenService.

(** X8. An email token is redeemed once, and within a day.  After
    [generateEmailToken] at [t0], [verifyEmailToken] with the token
    handed out returns the user id and email it was generated for, at any
    instant up to twenty-four hours later; a second redemption throws
    InvalidTokenError, and so does a first one after the twenty-four
    hours. *)
Theorem email_token_redeemed_once
    (t0 t : Z) (r : gmap string entry) (random userId email : string) :
  json_parse (json_user userId email) = Ok (JUser userId email) ->
  json_user userId email <> "" ->
  let r1 := snd (generateEmailToken json_user t0 r random userId email) in
  fst (generateEmailToken json_user t0 r random userId email) = Ok random
  /\ (t <= t0 + 86400000 ->
      fst (verifyEmailToken json_parse t r1 random) = Ok (JUser userId email)
      /\ forall t', fst (verifyEmailToken json_parse t'
                           (snd (verifyEmailToken json_parse t r1 random)) random)
                    = Throw InvalidTokenError)
  /\ (t0 + 86400000 < t ->
      verifyEmailToken json_parse t r1 random = (Throw InvalidTokenError, r1)).
Proof.
  intros Hparse Hne r1.
  assert (E1 : generateEmailToken json_user t0 r random userId email
               = (Ok random,
                  <[EMAIL_TOKEN_PREFIX +:+ hashToken random :=
                      Entry (RStr (json_user userId email)) (Some (t0 + 86400 * 1000))]> r))
    by reflexivity.
  subst r1. rewrite E1. cbn [fst snd]. split; [reflexivity|].
  set (key := EMAIL_TOKEN_PREFIX +:+ hashToken random).
  set (r1 := <[key := Entry (RStr (json_user userId email)) (Some (t0 + 86400 * 1000))]> r).
  assert (Hget : forall x, get x r1 key
                           = if t0 + 86400 * 1000 <? x then None
                             else Some (RStr (json_user userId email))).
  { intros x. unfold get, lookup_live, expired, r1. rewrite lookup_insert_eq.
    cbn [ent_expire]. now destruct (_ <? _). }
  apply String.eqb_neq in Hne.
  split; intros Ht.
  - assert (E2 : verifyEmailToken json_parse t r1 random
                 = (Ok (JUser userId email), delete key r1)).
    { unfold verifyEmailToken. fold key. rewrite Hget.
      destruct (Z.ltb_spec (t0 + 86400 * 1000) t); [lia|].
      cbn [no_data]. rewrite Hne. cbn [parse_value]. now rewrite Hparse. }
    rewrite E2. cbn [fst snd]. split; [reflexivity|]. intros t'.
    unfold verifyEmailToken, get, lookup_live. fold key. now rewrite lookup_delete_eq.
  - unfold verifyEmailToken. fold key. rewrite Hget.
    destruct (Z.ltb_spec (t0 + 86400 * 1000) t); [reflexivity|lia].
Qed.

Lemma lookup_foldr_delete_in (r : gmap string entry) (ds : list string) (k : string) :
  In k ds -> foldr delete r ds !! k = None.
Proof.
  induction ds as [|d ds IH]; [intros []|]. cbn [foldr]. intros [->|Hin].
  - apply lookup_delete_eq.
  - destruct (decide (d = k)) as [->|Hne]; [apply lookup_delete_eq|].
    rewrite lookup_delete_ne by exact Hne. now apply IH.
Qed.

Lemma lookup_foldr_delete_notin (r : gmap string entry) (ds : list string) (k : string) :
  ~ In k ds -> foldr delete r ds !! k = r !! k.
Proof.
  induction ds as [|d ds IH]; [reflexivity|]. cbn [foldr]. intros Hnot.
  rewrite lookup_delete_ne by (intros ->; apply Hnot; now left).
  apply IH. intros Hin. apply Hnot. now right.
Qed.

(** What the scan queues: the keys of the sessions of the user, each
    with the refresh key of the same session id. *)
Lemma queue_deletions_spec now (r : gmap string entry) userId (keys queued : list string) :
  queue_deletions json_parse now r userId keys = Ok queued ->
  forall k, In k queued <->
    exists key, In key keys /\ session_of json_parse now r userId key
                /\ (k = key \/ k = REFRESH_PREFIX +:+ sessionId_of_key key).
Proof.
  revert queued. induction keys as [|key rest IH]; intros queued Hq k.
  - injection Hq as <-. split; [intros []|intros (key & [] & _)].
  - cbn [queue_deletions] in Hq.
    assert (Hskip : ~ session_of json_parse now r userId key ->
              queue_deletions json_parse now r userId rest = Ok queued ->
              In k queued <->
              exists key0, In key0 (key :: rest) /\ session_of json_parse now r userId key0
                           /\ (k = key0 \/ k = REFRESH_PREFIX +:+ sessionId_of_key key0)).
    { intros Hno Hrest. rewrite (IH queued Hrest k). split.
      - intros (key0 & Hin & Hs & Hk). exists key0. split; [now right|]. now split.
      - intros (key0 & [<-|Hin] & Hs & Hk); [contradiction|]. exists key0. now split. }
    destruct (get now r key) as [v|] eqn:Eg.
    2:{ apply Hskip; [|exact Hq]. intros (v & d & Hv & _). congruence. }
    destruct (no_data (Some v)) eqn:End.
    { apply Hskip; [|exact Hq]. intros (v' & d & Hv & Hn & _). congruence. }
    destruct (parse_value json_parse v) as [d|e] eqn:Ep; [|discriminate].
    destruct (bool_decide (json_userId d = Some userId)) eqn:Eu.
    2:{ apply Hskip; [|exact Hq]. intros (v' & d' & Hv & _ & Hp & Hu).
        apply bool_decide_eq_false in Eu. congruence. }
    apply bool_decide_eq_true in Eu.
    destruct (queue_deletions json_parse now r userId rest) as [q|e] eqn:Er; [|discriminate].
    injection Hq as <-. cbn [In]. rewrite (IH q eq_refl k). split.
    + intros [<-|[<-|(key0 & Hin & Hs & Hk)]].
      * exists key. split; [now left|]. split; [|now left]. now exists v, d.
      * exists key. split; [now left|]. split; [|now right]. now exists v, d.
      * exists key0. split; [now right|]. now split.
    + intros (key0 & [<-|Hin] & Hs & [->| ->]); auto.
      * right. right. exists key0. split; [exact Hin|]. split; [exact Hs|now left].
      * right. right. exists key0. split; [exact Hin|]. split; [exact Hs|now right].
Qed.

Lemma scan_sessions_complete now (r : gmap string entry) key v :
  String.prefix SESSION_PREFIX key = true -> get now r key = Some v ->
  In key (scan_sessions r).
Proof.
  intros Hp Hg. unfold scan_sessions. apply filter_In. split; [|exact Hp].
  unfold get, lookup_live in Hg. destruct (r !! key) as [e|] eqn:E; [|discriminate].
  apply in_map_iff. exists (key, e). split; [reflexivity|].
  apply list_elem_of_In, elem_of_map_to_list. exact E.
Qed.

(** What the pipeline of deletions leaves, read off the queue. *)
Lemma revocation_scan_effect
    (now : Z) (r r' : gmap string entry) (userId : string) :
  revokeAllUserTokens json_parse now r userId = (Ok tt, r') ->
  (forall key, String.prefix SESSION_PREFIX key = true ->
               session_of json_parse now r userId key ->
               r' !! key = None
               /\ r' !! (REFRESH_PREFIX +:+ sessionId_of_key key) = None)
  /\ (forall key v d, String.prefix SESSION_PREFIX key = true ->
                      get now r key = Some v ->
                      parse_value json_parse v = Ok d ->
                      json_userId d <> Some userId ->
                      r' !! key = r !! key).
Proof.
  unfold revokeAllUserTokens.
  destruct (queue_deletions json_parse now r userId (scan_sessions r)) as [queued|e] eqn:Eq;
    [|discriminate].
  intros [= <-]. pose proof (queue_deletions_spec now r userId _ _ Eq) as Hspec. split.
  - intros key Hp Hs. destruct Hs as (v & d & Hg & Hrest).
    pose proof (scan_sessions_complete now r key v Hp Hg) as Hin.
    split; apply lookup_foldr_delete_in, Hspec; exists key;
      (split; [exact Hin|]); (split; [now exists v, d|]); auto.
  - intros key v d Hp Hg Hparse Hother. apply lookup_foldr_delete_notin.
    intros (key0 & Hin0 & (v0 & d0 & Hg0 & _ & Hp0 & Hu0) & [->| ->])%Hspec.
    + congruence.
    + discriminate Hp.
Qed.

(** X9. After [revokeAllUserTokens] has returned, no session record of
    the identity is left: every session key whose record named that user
    is gone, and so is the refresh key of the same session id.  The
    session records of other users are what they were. *)
Theorem revokeAllUserTokens_removes_sessions
    (now : Z) (r r' : gmap string entry) (userId : string) :
  revokeAllUserTokens json_parse now r userId = (Ok tt, r') ->
  (forall key, String.prefix SESSION_PREFIX key = true ->
               session_of json_parse now r userId key ->
               r' !! key = None
               /\ r' !! (REFRESH_PREFIX +:+ sessionId_of_key key) = None)
  /\ (forall key v d, String.prefix SESSION_PREFIX key = true ->
                      get now r key = Some v ->
                      parse_value json_parse v = Ok d ->
                      json_userId d <> Some userId ->
                      r' !! key = r !! key).
Proof. apply revocation_scan_effect. Qed.

Lemma substring_all (s : string) : String.substring 0 (String.length s) s = s.
Proof. induction s as [|c s IH]; [reflexivity|]. cbn. now rewrite IH. Qed.

Lemma prefix_app (p x : string) : String.prefix p (p +:+ x) = true.
Proof.
  induction p as [|c p IH]; [now destruct x|].
  change (String c p +:+ x) with (String c (p +:+ x)). cbn.
  destruct (Ascii.ascii_dec c c); [exact IH|contradiction].
Qed.

Lemma string_app_inj (p x y : string) : p +:+ x = p +:+ y -> x = y.
Proof.
  induction p as [|c p IH]; [easy|].
  change (String c (p +:+ x) = String c (p +:+ y) -> x = y). intros [= Hxy]. now apply IH.
Qed.

Lemma prefix_split (p key : string) :
  String.prefix p key = true ->
  key = p +:+ String.substring (String.length p) (String.length key - String.length p) key.
Proof.
  revert key. induction p as [|c p IH]; intros key Hp.
  - cbn. rewrite Nat.sub_0_r. symmetry. apply substring_all.
  - destruct key as [|c' key]; [discriminate|]. cbn in Hp.
    destruct (Ascii.ascii_dec c c') as [<-|]; [|discriminate].
    transitivity (String c (p +:+ String.substring (String.length p)
                                    (String.length key - String.length p) key));
      [f_equal; now apply IH | reflexivity].
Qed.

(** X10. The revocation scan misses the refresh-token record.
    [generateRefreshToken] writes, whether it returns or throws, at most
    the refresh-token record of its own session id: no session record is
    stored for a refresh token.  [revokeAllUserTokens] deletes the
    refresh keys of the session ids it finds among the session records
    of the user.  So a refresh-token record under a session id for which
    the user has no live session record is in the store after
    [revokeAllUserTokens] as it was before. *)
Theorem revokeAllUserTokens_misses_refresh_record
    (now now' : Z) (r r' : gmap string entry) (uid b : string) (p : JwtPayload) :
  (forall k, k <> REFRESH_PREFIX +:+ b ->
             snd (fst (generateRefreshToken config now r b p)) !! k = r !! k)
  /\ (revokeAllUserTokens json_parse now' r uid = (Ok tt, r') ->
      ~ session_of json_parse now' r uid (SESSION_PREFIX +:+ b) ->
      r' !! (REFRESH_PREFIX +:+ b) = r !! (REFRESH_PREFIX +:+ b)).
Proof.
  split.
  - intros k Hk. unfold generateRefreshToken, setex.
    destruct (String.eqb (userId p) ""); [reflexivity|].
    destruct (jwt_sign _ _ _ _); [|reflexivity].
    destruct (jwtRefreshExpiry config <=? 0); [reflexivity|].
    cbn [fst snd]. now apply lookup_insert_ne.
  - intros Hrev Hnone. unfold revokeAllUserTokens in Hrev.
    destruct (queue_deletions json_parse now' r uid (scan_sessions r))
      as [queued|e] eqn:Eq; [|discriminate].
    injection Hrev as <-. apply lookup_foldr_delete_notin.
    intros (key & Hin & Hs & Hk)%(queue_deletions_spec now' r uid _ _ Eq).
    apply filter_In in Hin as [_ Hp].
    destruct Hk as [<-|Hk]; [discriminate Hp|].
    apply string_app_inj in Hk. apply prefix_split in Hp.
    fold (sessionId_of_key key) in Hp. rewrite <- Hk in Hp. subst key.
    exact (Hnone Hs).
Qed.

End StoredTokens.

Lemma email_token_redeemed_once_witness :
  fst (TokenService.verifyEmailToken (H := Demo.primitives) Demo.json_parse 1000
         (snd (TokenService.generateEmailToken (H := Demo.primitives) Demo.json_user 0 ∅
                 "tok-1" "u1" "a@b.com")) "tok-1")
  = Ok (TokenService.JUser "u1" "a@b.com").
Proof.
  pose proof (email_token_redeemed_once (H := Demo.primitives) Demo.json_user Demo.json_parse
                0 1000 ∅ "tok-1" "u1" "a@b.com") as Hx.
  cbv zeta in Hx.
  destruct Hx as (_ & Hlive & _); [reflexivity | vm_compute; discriminate |].
  apply Hlive. lia.
Defined.

Lemma revokeAllUserTokens_removes_sessions_witness :
  snd (TokenService.revokeAllUserTokens Demo.json_parse 1000 Demo.session_store "u1")
    !! "session:s1" = None
  /\ snd (TokenService.revokeAllUserTokens Demo.json_parse 1000 Demo.session_store "u1")
       !! "session:s2" = Demo.session_store !! "session:s2".
Proof.
  destruct (revokeAllUserTokens_removes_sessions Demo.json_parse 1000 Demo.session_store
              (snd (TokenService.revokeAllUserTokens Demo.json_parse 1000
                      Demo.session_store "u1")) "u1") as [Hgone Hkept].
  - vm_compute. reflexivity.
  - split.
    + apply Hgone; [reflexivity|].
      exists (Redis.RSession "u1" "a@b.com" 0), (TokenService.JSession "u1" "a@b.com" 0).
      repeat split; vm_compute; reflexivity.
    + apply (Hkept "session:s2" (Redis.RSession "u2" "c@d.com" 0)
               (TokenService.JSession "u2" "c@d.com" 0));
        [reflexivity | vm_compute; reflexivity | reflexivity | vm_compute; discriminate].
Defined.

Lemma revokeAllUserTokens_misses_refresh_record_witness :
  snd (TokenService.revokeAllUserTokens Demo.json_parse 1000 Demo.refresh_store "u1")
    !! "token:refresh:sid-r"
  = Demo.refresh_store !! "token:refresh:sid-r".
Proof.
  apply (proj2 (revokeAllUserTokens_misses_refresh_record (H := Demo.primitives) Demo.config
                  Demo.json_parse 0 1000 Demo.refresh_store _ "u1" "sid-r"
                  Demo.u1_payload)).
  - vm_compute. reflexivity.
  - intros (v & d & Hg & _). vm_compute in Hg. discriminate.
Defined.

(** ** The password policy *)
Section PasswordPolicy.
Import PasswordService.

Lemma class_rule_fst required present e acc :
  fst (class_rule required present e acc)
  = if required && negb present then (fst acc ++ [e])%list else fst acc.
Proof.
  unfold class_rule. destruct acc as [errs sc].
  destruct required, present; reflexivity.
Qed.

Lemma class_rule_snd required present e acc :
  snd (class_rule required present e acc)
  = if negb (required && negb present) && present then snd acc + 2 else snd acc.
Proof.
  unfold class_rule. destruct acc as [errs sc].
  destruct required, present; reflexivity.
Qed.

Lemma falsy_spec (s : string) : Js.falsy s = true <-> s = "".
Proof. unfold Js.falsy. apply String.eqb_eq. Qed.

(** X11. A password is accepted exactly when it is not empty, has the
    configured minimum length (counted as [password.length] counts, in
    UTF-16 code units), has a character of every required class,
    contains none of the common patterns once in lower case, and has no
    code unit three times in a row (line terminators apart). *)
Theorem password_accepted_iff (config : PasswordServiceConfig) (password : string) :
  isValid (validatePasswordStrength config password) = true
  <-> password <> ""
      /\ minLength config <= Z.of_nat (Js.length password)
      /\ (requireUppercase config = true -> hasUppercase password = true)
      /\ (requireLowercase config = true -> hasLowercase password = true)
      /\ (requireNumbers config = true -> hasNumber password = true)
      /\ (requireSpecialChars config = true -> hasSpecialChar password = true)
      /\ hasCommonPatterns password = false
      /\ hasRepeatedCharacters password = false.
Proof.
  unfold validatePasswordStrength.
  destruct (Js.falsy password) eqn:Hf.
  { apply falsy_spec in Hf. cbn [isValid]. split; [discriminate | tauto]. }
  assert (Hne : password <> "").
  { intros Heq. apply falsy_spec in Heq. congruence. }
  cbv zeta. cbn [isValid].
  destruct (hasCommonPatterns password), (hasRepeatedCharacters password);
    cbn [fst snd]; rewrite ?length_app; cbn [List.length];
    try (rewrite Nat.add_1_r; cbn [Nat.eqb]; split; [discriminate | intuition discriminate]).
  rewrite !class_rule_fst.
  destruct (Z.ltb_spec (Z.of_nat (Js.length password)) (minLength config)) as [Hlen|Hlen];
    cbn [fst];
    destruct (requireUppercase config), (hasUppercase password),
      (requireLowercase config), (hasLowercase password),
      (requireNumbers config), (hasNumber password),
      (requireSpecialChars config), (hasSpecialChar password);
    cbn [andb negb fst app List.length Nat.eqb];
    (split; [try discriminate; intros _; repeat split; (lia || tauto || discriminate)
            | try reflexivity; intros (_ & ? & ? & ? & ? & ? & _);
              try lia; try (exfalso; intuition discriminate)]).
Qed.

(** X12. Under a policy that requires an uppercase letter, a lowercase
    letter and a digit, every accepted password has at least four of the
    five points (the score is counted in half points), and its estimated
    time to crack is "several days" or "months or years". *)
Theorem accepted_password_scores_four (config : PasswordServiceConfig) (password : string) :
  requireUppercase config = true ->
  requireLowercase config = true ->
  requireNumbers config = true ->
  isValid (validatePasswordStrength config password) = true ->
  8 <= score (validatePasswordStrength config password) <= 10
  /\ (estimateCrackTime config password = "several days"
      \/ estimateCrackTime config password = "months or years").
Proof.
  intros Hu Hl Hn Hv.
  assert (Hs : 8 <= score (validatePasswordStrength config password) <= 10).
  { revert Hv. unfold validatePasswordStrength.
    destruct (Js.falsy password); [discriminate|].
    cbv zeta. cbn [isValid score].
    destruct (hasCommonPatterns password), (hasRepeatedCharacters password);
      cbn [fst snd]; rewrite ?length_app; cbn [List.length];
      try (rewrite Nat.add_1_r; discriminate).
    rewrite !class_rule_fst, !class_rule_snd, Hu, Hl, Hn.
    destruct (Z.of_nat (Js.length password) <? minLength config);
      cbn [fst snd];
      destruct (hasUppercase password), (hasLowercase password), (hasNumber password),
        (requireSpecialChars config), (hasSpecialChar password);
      cbn [andb negb fst snd app List.length Nat.eqb]; try discriminate; intros _;
      destruct (12 <=? Z.of_nat (Js.length password)),
        (16 <=? Z.of_nat (Js.length password)); lia. }
  split; [exact Hs|].
  unfold estimateCrackTime. cbv zeta.
  set (sc := score (validatePasswordStrength config password)) in *.
  assert (Hi : sc / 2 = 4 \/ sc / 2 = 5).
  { assert (4 <= sc / 2) by (apply Z.div_le_lower_bound; lia).
    assert (sc / 2 <= 5) by (apply Z.div_le_upper_bound; lia).
    lia. }
  destruct Hi as [-> | ->]; [left | right]; reflexivity.
Qed.

Lemma chars_app (a b : string) : Js.chars (a +:+ b) = (Js.chars a ++ Js.chars b)%list.
Proof.
  unfold Js.chars. induction a as [|c a IH]; [reflexivity|].
  change (String c a +:+ b) with (String c (a +:+ b)). cbn. now rewrite IH.
Qed.

Lemma test_class_replace_last (cls : ascii -> bool) (s c : string) :
  Js.test_class cls c = true -> Js.test_class cls (Js.drop_last s +:+ c) = true.
Proof.
  unfold Js.test_class. intros Hc.
  rewrite chars_app, existsb_app, Hc. apply orb_true_r.
Qed.

(** X13. The adjustment made last always holds of the temporary
    password: it has a special character when the policy requires one,
    and a digit when the policy does not. *)
Theorem temporary_password_last_adjustment (config : PasswordServiceConfig)
    (buffer : list Byte.byte) :
  if requireSpecialChars config
  then hasSpecialChar (generateTemporaryPassword config buffer) = true
  else hasNumber (generateTemporaryPassword config buffer) = true.
Proof.
  unfold generateTemporaryPassword. cbv zeta.
  set (p2 := if negb (hasLowercase _) then _ else _).
  destruct (requireSpecialChars config); cbn [andb].
  - set (p3 := if negb (hasNumber p2) then _ else _).
    destruct (hasSpecialChar p3) eqn:Hs; cbn [negb]; [exact Hs|].
    now apply test_class_replace_last.
  - destruct (hasNumber p2) eqn:Hn; cbn [negb]; [exact Hn|].
    now apply test_class_replace_last.
Qed.

End PasswordPolicy.

Lemma accepted_password_scores_four_witness :
  8 <= PasswordService.score
         (PasswordService.validatePasswordStrength PasswordService.defaultConfig "Garden4me")
    <= 10.
Proof.
  apply (accepted_password_scores_four PasswordService.defaultConfig "Garden4me");
    vm_compute; reflexivity.
Defined.

Lemma password_accepted_iff_witness :
  PasswordService.isValid
    (PasswordService.validatePasswordStrength PasswordService.defaultConfig "Garden4me") = true.
Proof.
  apply (password_accepted_iff PasswordService.defaultConfig "Garden4me").
  repeat split; try (vm_compute; reflexivity); try discriminate.
Defined.

(** ** Logging in, refreshing and logging out *)
Section SessionLifecycle.
Context `{Primitives}.
Variable config : TokenService.TokenServiceConfig.
Import Schema.

Lemma lockTimeMinutes_ceil (t now : Z) :
  now < t ->
  60000 * (AuthService.lockTimeMinutes t now - 1) < t - now
    <= 60000 * AuthService.lockTimeMinutes t now.
Proof.
  intros Hlt. unfold AuthService.lockTimeMinutes.
  pose proof (Z.div_mod (t - now + 59999) 60000 ltac:(lia)) as Hdm.
  pose proof (Z.mod_pos_bound (t - now + 59999) 60000 ltac:(lia)) as Hb.
  lia.
Qed.

(** X14. While an identity is locked, a password login is refused with
    AccountLockedError before the password is looked at, whatever the
    password is, and nothing is written.  The minutes the error names
    are the time left, rounded up. *)
Theorem loginUser_locked_account env data v u t w :
  UserRepository.validateEmail (AuthService.login_email data) = Ok v ->
  db_reads_ok env = true ->
  find (fun x => String.eqb (email x) v) (users w) = Some u ->
  authProvider u = local ->
  lockedUntil u = Some t ->
  now env < t ->
  AuthService.loginUser config env data w
  = (Throw (AccountLockedError (Some (AuthService.lockTimeMinutes t (now env)))), w)
  /\ 60000 * (AuthService.lockTimeMinutes t (now env) - 1) < t - now env
       <= 60000 * AuthService.lockTimeMinutes t (now env).
Proof.
  intros Hv Hr Hfind Hlocal Hlock Hlt. split; [|now apply lockTimeMinutes_ceil].
  unfold AuthService.loginUser, bind.
  rewrite (findByEmail_ok env _ v w Hv Hr), Hfind, Hlocal. cbn [AuthProvider_eqb].
  unfold AuthService.checkAccountStatus. rewrite Hlock.
  apply Z.ltb_lt in Hlt. now rewrite Hlt.
Qed.

(** X15. A login with an email no identity has and a login with the
    wrong password of a local identity fail with the same error, the
    AuthenticationError with the generic message. *)
Theorem loginUser_unknown_email_like_wrong_password env w data data' v v' u h :
  db_reads_ok env = true -> db_writes_ok env = true ->
  UserRepository.validateEmail (AuthService.login_email data) = Ok v ->
  find (fun x => String.eqb (email x) v) (users w) = None ->
  UserRepository.validateEmail (AuthService.login_email data') = Ok v' ->
  find (fun x => String.eqb (email x) v') (users w) = Some u ->
  authProvider u = local -> lockedUntil u = None ->
  password u = Some h -> Js.falsy h = false ->
  PasswordService.compare (AuthService.login_password data') h = Ok false ->
  UserRepository.validateUserId (id u) = Ok (id u) ->
  kv w !! RateLimiterService.login_key (id u) = None ->
  fst (AuthService.loginUser config env data w)
  = Throw (AuthenticationError AuthService.AUTH_INVALID_CREDENTIALS)
  /\ fst (AuthService.loginUser config env data' w)
     = fst (AuthService.loginUser config env data w).
Proof.
  intros Hr Hw Hv Hnone Hv' Hfind Hlocal Hlock Hpw Hh Hcmp Hid Hkv.
  assert (Hunknown : fst (AuthService.loginUser config env data w)
                     = Throw (AuthenticationError AuthService.AUTH_INVALID_CREDENTIALS)).
  { unfold AuthService.loginUser, bind.
    now rewrite (findByEmail_ok env _ v w Hv Hr), Hnone. }
  split; [exact Hunknown|]. rewrite Hunknown.
  now rewrite (loginUser_wrong_password config env w data' v' u h).
Qed.

Lemma map_if_id_none (vid : string) (f : User -> User) (us : list User) :
  find (fun x => String.eqb (id x) vid) us = None ->
  map (fun x => if String.eqb (id x) vid then f x else x) us = us.
Proof.
  induction us as [|a us IH]; [reflexivity|]. cbn [find map].
  destruct (String.eqb (id a) vid); [discriminate|]. intros Hn. now rewrite IH.
Qed.

(** The table after an update that returned. *)
Lemma update_ok_users env userId data w o w' :
  UserRepository.update env userId data w = (Ok o, w') ->
  exists vid,
    UserRepository.validateUserId userId = Ok vid
    /\ users w'
       = map (fun x => if String.eqb (id x) vid
                       then assign_all (map UserRepository.sanitizeAssignment data
                                        ++ [set_updatedAt (now env)]) x
                       else x) (users w).
Proof.
  unfold UserRepository.update, bind, lift.
  destruct (UserRepository.validateUserId userId) as [vid|e0]; [|discriminate].
  unfold UserRepository.run_update. destruct (db_writes_ok env); cbn [negb]; [|discriminate].
  destruct (find _ (users w)) eqn:Ef.
  - destruct (UserRepository.googleId_taken _ _ _); [discriminate|].
    intros [= _ <-]. exists vid. split; reflexivity.
  - intros [= _ <-]. exists vid. split; [reflexivity|].
    now rewrite map_if_id_none.
Qed.

Lemma verifyRefreshToken_userId now1 now2 token d1 d2 :
  TokenService.verifyRefreshToken config now1 token = Ok d1 ->
  TokenService.verifyRefreshToken config now2 token = Ok d2 ->
  TokenService.userId d1 = TokenService.userId d2.
Proof.
  unfold TokenService.verifyRefreshToken, TokenService.jwt_verify.
  destruct (jwt_parse token) as [t|]; [|discriminate].
  repeat match goal with
         | |- context [if ?b then _ else _] => destruct b
         end; try discriminate; intros [= <-] [= <-]; reflexivity.
Qed.

(** When no row that stores the token belongs to the identity the token
    names, the refresh is refused and nothing is written. *)
Lemma refreshToken_refused env token w :
  (forall u d, In u (users w) -> refreshToken u = Some token ->
               TokenService.verifyRefreshToken config (now env) token = Ok d ->
               id u <> TokenService.userId d) ->
  AuthService.refreshToken config env token w = (Throw InvalidTokenError, w)
  \/ AuthService.refreshToken config env token w = (Throw DatabaseError, w).
Proof.
  intros Hno. unfold AuthService.refreshToken.
  destruct (Js.falsy token) eqn:Hf; [now left|].
  unfold bind, catch, lift.
  destruct (TokenService.verifyRefreshToken config (now env) token) as [d|e] eqn:Ev;
    [|now left].
  unfold UserRepository.findByRefreshToken. rewrite Hf.
  unfold UserRepository.select. destruct (db_reads_ok env); [|now right].
  destruct (find _ (users w)) as [u|] eqn:Efind; [|now left].
  apply find_some in Efind as [Hin Hm].
  unfold UserRepository.opt_eqb in Hm.
  destruct (refreshToken u) as [x|] eqn:Ex; [|discriminate].
  apply String.eqb_eq in Hm. subst x.
  specialize (Hno u d Hin Ex eq_refl).
  apply String.eqb_neq in Hno. rewrite Hno. now left.
Qed.

(** X16. After a logout that returned, no refresh token of the identity
    is accepted any more: [refreshToken] throws InvalidTokenError (or
    the DatabaseError of a failed lookup) and writes nothing. *)
Theorem logoutUser_ends_refresh env userId w w' env' token d :
  AuthService.logoutUser env userId w = (Ok tt, w') ->
  TokenService.verifyRefreshToken config (now env') token = Ok d ->
  UserRepository.validateUserId userId = Ok (TokenService.userId d) ->
  AuthService.refreshToken config env' token w' = (Throw InvalidTokenError, w')
  \/ AuthService.refreshToken config env' token w' = (Throw DatabaseError, w').
Proof.
  intros Hlogout Hd Hid. apply refreshToken_refused.
  intros u d' Hin Htok Hd'. rewrite Hd in Hd'. injection Hd' as <-.
  unfold AuthService.logoutUser, bind in Hlogout.
  destruct (UserRepository.update env userId _ w) as [[o|e] w1] eqn:Eu; [|discriminate].
  injection Hlogout as <-.
  apply update_ok_users in Eu as (vid & Hvid & Hus).
  rewrite Hid in Hvid. injection Hvid as <-.
  rewrite Hus in Hin. apply in_map_iff in Hin as (x & <- & Hx).
  destruct (String.eqb (id x) (TokenService.userId d)) eqn:E.
  - exfalso. revert Htok. destruct x; cbn. discriminate.
  - now apply String.eqb_neq in E.
Qed.

(** X17. [refreshToken] never returns a token pair and never writes.
    A token that is refused gives InvalidTokenError (DatabaseError when
    the lookup fails).  A token that verifies and is stored for the
    identity it names gets as far as the token generation, which throws
    the plain [Error] of [jwt.sign]: the stored token is not replaced,
    there is no rotation. *)
Theorem refreshToken_never_rotates env token w :
  (exists e, AuthService.refreshToken config env token w = (Throw e, w)
             /\ (e = InvalidTokenError \/ e = DatabaseError
                 \/ e = JsError Jwt.bad_expiresIn))
  /\ (forall d u,
        Js.falsy token = false ->
        TokenService.verifyRefreshToken config (now env) token = Ok d ->
        db_reads_ok env = true ->
        find (fun x => UserRepository.opt_eqb (refreshToken x) token) (users w) = Some u ->
        id u = TokenService.userId d ->
        id u <> "" ->
        AuthService.refreshToken config env token w
        = (Throw (JsError Jwt.bad_expiresIn), w)).
Proof.
  split.
  - unfold AuthService.refreshToken.
    destruct (Js.falsy token) eqn:Hf; [eauto|].
    unfold bind, catch, lift.
    destruct (TokenService.verifyRefreshToken config (now env) token) as [d|e] eqn:Ev;
      [|unfold throw; eauto].
    unfold UserRepository.findByRefreshToken. rewrite Hf.
    unfold UserRepository.select. destruct (db_reads_ok env); [|eauto].
    destruct (find _ (users w)) as [u|]; [|unfold throw; eauto].
    destruct (negb (String.eqb (id u) (TokenService.userId d))); [unfold throw; eauto|].
    rewrite generateTokens_throws. destruct (String.eqb (id u) ""); eauto 6.
  - intros d u Hf Hd Hr Hfind Hid Hne.
    unfold AuthService.refreshToken. rewrite Hf. unfold bind, catch, lift. rewrite Hd.
    unfold UserRepository.findByRefreshToken. rewrite Hf.
    unfold UserRepository.select. rewrite Hr, Hfind, Hid, String.eqb_refl. cbn [negb].
    rewrite generateTokens_throws, <- Hid.
    apply String.eqb_neq in Hne. now rewrite Hne.
Qed.

End SessionLifecycle.

Lemma loginUser_locked_account_witness :
  AuthService.loginUser (H := Demo.primitives) Demo.config demo_env
    {| AuthService.login_email := "A@b.com "; AuthService.login_password := "Str0ngP@ss1" |}
    locked_alice_world
  = (Throw (AccountLockedError (Some (AuthService.lockTimeMinutes 3600000 3000000))),
     locked_alice_world).
Proof.
  apply (loginUser_locked_account (H := Demo.primitives) Demo.config demo_env
           {| AuthService.login_email := "A@b.com ";
              AuthService.login_password := "Str0ngP@ss1" |}
           "a@b.com" (Schema.assign (Schema.set_lockedUntil (Some 3600000)) alice)
           3600000 locked_alice_world);
    try (vm_compute; reflexivity).
Defined.

Lemma loginUser_unknown_email_like_wrong_password_witness :
  fst (AuthService.loginUser (H := Demo.primitives) Demo.config demo_env
         {| AuthService.login_email := "a@b.com"; AuthService.login_password := "guess" |}
         alice_world)
  = fst (AuthService.loginUser (H := Demo.primitives) Demo.config demo_env
           {| AuthService.login_email := "nobody@b.com";
              AuthService.login_password := "guess" |}
           alice_world).
Proof.
  apply (loginUser_unknown_email_like_wrong_password (H := Demo.primitives) Demo.config
           demo_env alice_world
           {| AuthService.login_email := "nobody@b.com";
              AuthService.login_password := "guess" |}
           {| AuthService.login_email := "a@b.com"; AuthService.login_password := "guess" |}
           "nobody@b.com" "a@b.com" alice "argon2:Str0ngP@ss1");
    vm_compute; reflexivity.
Defined.

Lemma logoutUser_ends_refresh_witness :
  AuthService.refreshToken (H := Demo.primitives) Demo.config (env_at 1600000) "refresh.jwt"
    (snd (AuthService.logoutUser (env_at 1500000) "1B9D6BCD-BBFD-4B2D-9B5D-AB8DFBBD4BED"
            alice_session_world))
  = (Throw InvalidTokenError,
     snd (AuthService.logoutUser (env_at 1500000) "1B9D6BCD-BBFD-4B2D-9B5D-AB8DFBBD4BED"
            alice_session_world))
  \/ AuthService.refreshToken (H := Demo.primitives) Demo.config (env_at 1600000)
       "refresh.jwt"
       (snd (AuthService.logoutUser (env_at 1500000) "1B9D6BCD-BBFD-4B2D-9B5D-AB8DFBBD4BED"
               alice_session_world))
     = (Throw DatabaseError,
        snd (AuthService.logoutUser (env_at 1500000) "1B9D6BCD-BBFD-4B2D-9B5D-AB8DFBBD4BED"
               alice_session_world)).
Proof.
  apply (logoutUser_ends_refresh (H := Demo.primitives) Demo.config (env_at 1500000)
           "1B9D6BCD-BBFD-4B2D-9B5D-AB8DFBBD4BED" alice_session_world _ (env_at 1600000)
           "refresh.jwt"
           {| TokenService.userId := "1b9d6bcd-bbfd-4b2d-9b5d-ab8dfbbd4bed";
              TokenService.email := ""; TokenService.iat := Some 1000;
              TokenService.exp := Some 2000 |});
    vm_compute; reflexivity.
Defined.

Lemma refreshToken_never_rotates_witness :
  AuthService.refreshToken (H := Demo.primitives) Demo.config (env_at 1500000) "refresh.jwt"
    alice_session_world
  = (Throw (JsError Jwt.bad_expiresIn), alice_session_world).
Proof.
  apply (proj2 (refreshToken_never_rotates (H := Demo.primitives) Demo.config
                  (env_at 1500000) "refresh.jwt" alice_session_world)
           {| TokenService.userId := "1b9d6bcd-bbfd-4b2d-9b5d-ab8dfbbd4bed";
              TokenService.email := ""; TokenService.iat := Some 1000;
              TokenService.exp := Some 2000 |}
           (Schema.assign (Schema.set_refreshToken (Some "refresh.jwt")) alice));
    try (vm_compute; reflexivity).
  discriminate.
Defined.

(** ** The request hooks *)
Section Middleware.
Context `{Primitives}.
Variable config : TokenService.TokenServiceConfig.
Import Schema AuthMiddleware.

Lemma verifyAccessToken_inv env token w r w' :
  AuthMiddleware.verifyAccessToken config env token w = (r, w') ->
  users w' = users w /\ kv w' = kv w
  /\ (r = Throw TokenExpiredError \/ r = Throw InvalidTokenError \/ exists d, r = Ok d).
Proof.
  unfold AuthMiddleware.verifyAccessToken, TokenService.verifyAccessToken.
  destruct (TokenService.jwt_verify _ _ _ _ _) as [c|[]]; intros [= <- <-]; cbn; eauto 6.
Qed.

(** X18. A request that passed [authenticate] carries an identity of the
    table and no role, so [authorize] refuses it with
    AuthorizationError whatever roles are allowed. *)
Theorem authorize_refuses_after_authenticate env request w request' w' :
  authenticate config env request w = (Ok request', w') ->
  (exists u, In u (users w) /\ request' = attach request u)
  /\ forall roles, authorize roles request' = Throw AuthorizationError.
Proof.
  unfold authenticate. destruct (bearer request) as [token|]; [|discriminate].
  unfold catch, bind.
  destruct (AuthMiddleware.verifyAccessToken config env token w) as [[d|e] w1] eqn:Ev.
  - apply verifyAccessToken_inv in Ev as (Hus & _ & _).
    destruct (UserRepository.findById env (TokenService.userId d) w1) as [[found|e] w2] eqn:Ef.
    + destruct found as [u|].
      * unfold ret. intros [= <- <-]. split; [|reflexivity].
        exists u. split; [|reflexivity]. rewrite <- Hus.
        unfold UserRepository.findById, bind, lift in Ef.
        destruct (UserRepository.validateUserId _); [|discriminate].
        apply select_inv in Ef as [_ [Ef|Ef]]; [discriminate|].
        injection Ef as Ef. symmetry in Ef. now apply find_some in Ef as [Hin _].
      * unfold throw. cbn. discriminate.
    + destruct (String.eqb (error_name e) "TokenExpiredError"); [discriminate|].
      destruct (String.eqb (error_name e) "JsonWebTokenError"); discriminate.
  - destruct (String.eqb (error_name e) "TokenExpiredError"); [discriminate|].
    destruct (String.eqb (error_name e) "JsonWebTokenError"); discriminate.
Qed.

(** X19. When [authenticate] throws, the table and the key-value store
    are as before, and the error is one of: the AuthenticationError for
    a missing, unknown or malformed credential, the AuthenticationError
    for an expired token, the InvalidTokenError of the token service
    (which no branch of the handler renames), or the ValidationError
    or DatabaseError of the lookup. *)
Theorem authenticate_failures env request w e w' :
  authenticate config env request w = (Throw e, w') ->
  users w' = users w /\ kv w' = kv w
  /\ (e = AuthenticationError AUTH_INVALID_TOKEN
      \/ e = AuthenticationError AUTH_TOKEN_EXPIRED
      \/ e = InvalidTokenError
      \/ e = ValidationError
      \/ e = DatabaseError).
Proof.
  unfold authenticate. destruct (bearer request) as [token|];
    [|intros [= <- <-]; auto].
  unfold catch, bind.
  destruct (AuthMiddleware.verifyAccessToken config env token w) as [[d|e0] w1] eqn:Ev;
    apply verifyAccessToken_inv in Ev as (Hus & Hkv & Hr).
  - destruct (UserRepository.findById env (TokenService.userId d) w1) as [[found|e1] w2] eqn:Ef;
      apply findById_inv in Ef as [-> Hf].
    + destruct found; [discriminate|]. intros [= <- <-]. auto.
    + destruct Hf as [[= ->]|[[= ->]|[o [=]]]]; cbn; intros [= <- <-]; auto 8.
  - destruct Hr as [[= ->]|[[= ->]|[d [=]]]]; cbn; intros [= <- <-]; auto 8.
Qed.

(** X20. [optionalAuth] never throws: the request comes back as it was,
    or with an identity of the table attached. *)
Theorem optionalAuth_never_throws env request w :
  exists request',
    fst (optionalAuth config env request w) = Ok request'
    /\ (request' = request \/ exists u, In u (users w) /\ request' = attach request u).
Proof.
  unfold optionalAuth. destruct (bearer request) as [token|]; [|cbn; eauto].
  unfold catch, bind.
  destruct (AuthMiddleware.verifyAccessToken config env token w) as [[d|e0] w1] eqn:Ev;
    [|cbn; eauto].
  apply verifyAccessToken_inv in Ev as (Hus & _ & _).
  destruct (UserRepository.findById env (TokenService.userId d) w1) as [[found|e1] w2] eqn:Ef;
    [|cbn; eauto].
  destruct found as [u|]; [|cbn; eauto].
  exists (attach request u). split; [reflexivity|]. right. exists u. split; [|reflexivity].
  rewrite <- Hus.
  unfold UserRepository.findById, bind, lift in Ef.
  destruct (UserRepository.validateUserId _); [|discriminate].
  apply select_inv in Ef as [_ [Ef|Ef]]; [discriminate|].
  injection Ef as Ef. symmetry in Ef. now apply find_some in Ef as [Hin _].
Qed.

End Middleware.

Lemma authorize_refuses_after_authenticate_witness :
  AuthMiddleware.authorize ["admin"; "user"]
    (AuthMiddleware.attach
       {| AuthMiddleware.authorization := Some "Bearer access.jwt";
          AuthMiddleware.req_user := None |} alice)
  = Throw AuthorizationError.
Proof.
  destruct (authorize_refuses_after_authenticate (H := Demo.primitives) Demo.config
              (env_at 1500000)
              {| AuthMiddleware.authorization := Some "Bearer access.jwt";
                 AuthMiddleware.req_user := None |}
              alice_world
              (AuthMiddleware.attach
                 {| AuthMiddleware.authorization := Some "Bearer access.jwt";
                    AuthMiddleware.req_user := None |} alice)
              alice_world) as [_ Hroles].
  - vm_compute. reflexivity.
  - apply Hroles.
Defined.

Lemma authenticate_failures_witness :
  users alice_world = users alice_world /\ kv alice_world = kv alice_world
  /\ (AuthenticationError AuthMiddleware.AUTH_TOKEN_EXPIRED
        = AuthenticationError AuthMiddleware.AUTH_INVALID_TOKEN
      \/ AuthenticationError AuthMiddleware.AUTH_TOKEN_EXPIRED
           = AuthenticationError AuthMiddleware.AUTH_TOKEN_EXPIRED
      \/ AuthenticationError AuthMiddleware.AUTH_TOKEN_EXPIRED = InvalidTokenError
      \/ AuthenticationError AuthMiddleware.AUTH_TOKEN_EXPIRED = ValidationError
      \/ AuthenticationError AuthMiddleware.AUTH_TOKEN_EXPIRED = DatabaseError).
Proof.
  apply (authenticate_failures (H := Demo.primitives) Demo.config demo_env
           {| AuthMiddleware.authorization := Some "Bearer access.jwt";
              AuthMiddleware.req_user := None |}
           alice_world (AuthenticationError AuthMiddleware.AUTH_TOKEN_EXPIRED) alice_world).
  vm_compute. reflexivity.
Defined.

(** ** What every operation does to the table *)
Section EveryOperation.
Context `{Primitives}.
Variable config : TokenService.TokenServiceConfig.
Import Schema.

Variable R : list User -> list User -> Prop.
Hypothesis R_refl : forall us, R us us.
Hypothesis R_trans : forall a b c, R a b -> R b c -> R a c.
Hypothesis R_map : forall (f : User -> User) us,
  (forall x, identity (f x) = identity x) -> R us (map f us).
Hypothesis R_new : forall us u,
  (forall x, In x us -> email x <> email u) -> R us (us ++ [u]).

Lemma steps_keeps {A} (m : M A) : keeps_users m -> steps R m.
Proof. intros Hk w r w' Hm. rewrite (Hk w r w' Hm). apply R_refl. Qed.

Lemma steps_bind {A B} (m : M A) (k : A -> M B) :
  steps R m -> (forall a, steps R (k a)) -> steps R (bind m k).
Proof.
  intros Hm Hk w r w'. unfold bind. destruct (m w) as [[a|e] w1] eqn:E.
  - intros Hka. eapply R_trans; [exact (Hm _ _ _ E)|exact (Hk a _ _ _ Hka)].
  - intros [= <- <-]. exact (Hm _ _ _ E).
Qed.

Lemma steps_catch {A} (m : M A) (h : error -> M A) :
  steps R m -> (forall e, steps R (h e)) -> steps R (catch m h).
Proof.
  intros Hm Hh w r w'. unfold catch. destruct (m w) as [[a|e] w1] eqn:E.
  - intros [= <- <-]. exact (Hm _ _ _ E).
  - intros Hhe. eapply R_trans; [exact (Hm _ _ _ E)|exact (Hh e _ _ _ Hhe)].
Qed.

Lemma identity_assign a x : identity (assign a x) = identity x.
Proof. now destruct x, a. Qed.

Lemma identity_assign_all data : forall x, identity (assign_all data x) = identity x.
Proof.
  unfold assign_all. induction data as [|a data IH]; intros x; [reflexivity|].
  cbn [fold_left]. now rewrite IH, identity_assign.
Qed.

Lemma steps_run_update env vid change violates :
  (forall x, identity (change x) = identity x) ->
  steps R (UserRepository.run_update env vid change violates).
Proof.
  intros Hch w r w'. unfold UserRepository.run_update.
  destruct (negb (db_writes_ok env)); [intros [= <- <-]; apply R_refl|].
  destruct (find _ (users w)); [|intros [= <- <-]; apply R_refl].
  destruct (violates (users w)); [intros [= <- <-]; apply R_refl|].
  intros [= <- <-]. cbn [users set_users]. apply R_map.
  intros x. destruct (String.eqb _ _); [apply Hch|reflexivity].
Qed.

Lemma steps_update env userId data : steps R (UserRepository.update env userId data).
Proof.
  apply steps_bind; [apply steps_keeps, keeps_lift|]. intros vid.
  apply steps_run_update, identity_assign_all.
Qed.

Lemma steps_incrementLoginAttempts env userId :
  steps R (UserRepository.incrementLoginAttempts env userId).
Proof.
  apply steps_bind; [apply steps_keeps, keeps_lift|]. intros vid.
  apply steps_bind; [|intros; apply steps_keeps, keeps_ret].
  apply steps_run_update. intros x. now rewrite !identity_assign.
Qed.

Lemma steps_lockAccount env userId until :
  steps R (UserRepository.lockAccount env userId until).
Proof.
  apply steps_bind; [apply steps_keeps, keeps_lift|]. intros vid.
  apply steps_bind; [|intros; apply steps_keeps, keeps_ret].
  apply steps_run_update, identity_assign_all.
Qed.

Lemma steps_create env d : steps R (UserRepository.create env d).
Proof.
  intros w r w' Hc. unfold UserRepository.create, bind in Hc.
  destruct ((if Js.falsy (new_email d) then ret (new_email d)
             else lift (UserRepository.validateEmail (new_email d))) w)
    as [[e|err] w0] eqn:E.
  2:{ injection Hc as <- <-. destruct (Js.falsy (new_email d)); [discriminate|].
      unfold lift in E. injection E as _ <-. apply R_refl. }
  assert (w0 = w) as ->.
  { destruct (Js.falsy (new_email d)); unfold ret, lift in E; now injection E. }
  destruct (negb (db_writes_ok env)); [injection Hc as <- <-; apply R_refl|].
  destruct (existsb _ (users w) || _) eqn:Ex; [injection Hc as <- <-; apply R_refl|].
  injection Hc as <- <-. cbn [users set_users].
  apply orb_false_iff in Ex as [Ex _].
  apply R_new. cbn [email]. intros x Hin Heq.
  match type of Ex with
  | existsb ?f _ = false => assert (Ht : existsb f (users w) = true)
  end.
  { apply existsb_exists. exists x. split; [exact Hin|].
    rewrite Heq, String.eqb_refl. reflexivity. }
  congruence.
Qed.

Ltac step :=
  match goal with
  | |- steps R (bind _ _) => apply steps_bind; [|intros ?]
  | |- steps R (catch _ _) => apply steps_catch; [|intros ?]
  | |- steps R (ret _) => apply steps_keeps, keeps_ret
  | |- steps R (throw _) => apply steps_keeps, keeps_throw
  | |- steps R (lift _) => apply steps_keeps, keeps_lift
  | |- steps R (write_log _) => apply steps_keeps, keeps_write_log
  | |- steps R (UserRepository.findByEmail _ _) => apply steps_keeps, keeps_findByEmail
  | |- steps R (UserRepository.findById _ _) => apply steps_keeps, keeps_findById
  | |- steps R (UserRepository.findByRefreshToken _ _) =>
      apply steps_keeps, keeps_findByRefreshToken
  | |- steps R (AuthService.findUserByToken _ _ _) =>
      apply steps_keeps, keeps_findUserByToken
  | |- steps R (AuthService.sendEmailSafe _ _) => apply steps_keeps, keeps_sendEmailSafe
  | |- steps R (EmailService.send _ _) => apply steps_keeps, keeps_send
  | |- steps R (AuthService.generateTokens _ _ _ _) =>
      apply steps_keeps, keeps_generateTokens
  | |- steps R (AuthService.checkEmailResend _ _) =>
      apply steps_keeps, keeps_checkEmailResend
  | |- steps R (UserRepository.update _ _ _) => apply steps_update
  | |- steps R (UserRepository.create _ _) => apply steps_create
  | |- steps R (UserRepository.incrementLoginAttempts _ _) =>
      apply steps_incrementLoginAttempts
  | |- steps R (UserRepository.lockAccount _ _ _) => apply steps_lockAccount
  | |- steps R (fun w => (Ok _, w)) => apply steps_keeps, keeps_read
  | |- steps R (match ?x with _ => _ end) => destruct x
  end.

(** The table before and after one operation of the orchestrator,
    whether it returned or threw, are related by every relation that is
    reflexive and transitive, holds when rows are rewritten with their
    id, email and provider kept, and holds when a row with a new email is
    added at the end. *)
Lemma run_steps env (op : operation) (w : World) :
  R (users w) (users (run config env op w)).
Proof.
  assert (Hsnd : forall A (m : M A), steps R m -> R (users w) (users (snd (m w)))).
  { intros A m Hm. destruct (m w) as [r w'] eqn:E. exact (Hm _ _ _ E). }
  destruct op; cbn [run]; apply Hsnd;
    unfold AuthService.registerUser, AuthService.loginUser, AuthService.checkAccountStatus,
      AuthService.handleFailedLogin, AuthService.verifyEmail, AuthService.forgotPassword,
      AuthService.resetPassword, AuthService.refreshToken, AuthService.logoutUser,
      AuthService.getCurrentUser, AuthService.resendVerificationEmail,
      AuthService.authenticateWithGoogle, OAuthService.findOrCreateGoogleUser;
    repeat step.
Qed.

End EveryOperation.

Section TableHistory.
Context `{Primitives}.
Variable config : TokenService.TokenServiceConfig.
Import Schema.

(** X21. No operation of the orchestrator removes an identity, reorders
    the table, or changes the id, the email or the provider of an
    identity: after the operation, whether it returned or threw, the
    table holds the identities it held, in place, and perhaps new ones
    after them. *)
Theorem identities_are_append_only env (op : operation) (w : World) :
  appended (users w) (users (run config env op w)).
Proof.
  apply run_steps.
  - intros us. exists []. now rewrite app_nil_r.
  - intros a b c [x Hx] [y Hy]. exists (x ++ y)%list. now rewrite Hy, Hx, <- app_assoc.
  - intros f us Hf. exists []. rewrite app_nil_r, map_map.
    apply map_ext. exact Hf.
  - intros us u _. exists [identity u]. now rewrite map_app.
Qed.

(** X22. No two identities come to share an email: when the emails of
    the table are distinct before an operation of the orchestrator, they
    are distinct after it. *)
Theorem emails_stay_unique env (op : operation) (w : World) :
  NoDup (map email (users w)) ->
  NoDup (map email (users (run config env op w))).
Proof.
  change (emails_stay_distinct (users w) (users (run config env op w))).
  apply run_steps; unfold emails_stay_distinct.
  - auto.
  - auto.
  - intros f us Hf. rewrite map_map.
    erewrite map_ext; [exact (fun Hnd => Hnd)|].
    intros x. pose proof (Hf x) as Hx. unfold identity in Hx. congruence.
  - intros us u Hnew Hnd. rewrite map_app. cbn [map]. apply NoDup_app. repeat split.
    + exact Hnd.
    + intros e He Hin. apply list_elem_of_In in He, Hin. destruct Hin as [<-|[]].
      apply in_map_iff in He as [x [Hx Hin]]. exact (Hnew x Hin Hx).
    + apply NoDup_singleton.
Qed.

End TableHistory.

(** ** Registration and the verification link *)
Section Registration.
Context `{Primitives}.
Variable config : TokenService.TokenServiceConfig.
Import Schema.

Lemma validateEmail_nonempty e v :
  UserRepository.validateEmail e = Ok v -> Js.falsy e = false.
Proof. unfold UserRepository.validateEmail. now destruct (Js.falsy e). Qed.

Lemma find_exists {A} (p : A -> bool) (l : list A) (x : A) :
  In x l -> p x = true -> exists y, find p l = Some y.
Proof.
  intros Hin Hp. destruct (find p l) eqn:E; [eauto|].
  pose proof (find_none _ _ E x Hin). congruence.
Qed.

Lemma find_map_last {A} (p : A -> bool) (g : A -> A) (l : list A) (u : A) :
  (forall x, In x l -> p (g x) = false) -> p (g u) = true ->
  find p (map g (l ++ [u])) = Some (g u).
Proof.
  intros Hl Hu. induction l as [|a l IH]; cbn [app map find].
  - now rewrite Hu.
  - rewrite (Hl a (or_introl eq_refl)). apply IH. intros x Hx. apply Hl. now right.
Qed.

Lemma sendEmailSafe_returns env m w :
  exists w', AuthService.sendEmailSafe env m w = (Ok tt, w') /\ users w' = users w.
Proof.
  unfold AuthService.sendEmailSafe, catch, EmailService.send, write_log.
  destruct (mail_ok env); eexists; split; reflexivity.
Qed.

Lemma find_none_all {A} (p : A -> bool) (l : list A) :
  (forall x, In x l -> p x = false) -> find p l = None.
Proof.
  intros Hl. destruct (find p l) as [y|] eqn:E; [|reflexivity].
  apply find_some in E as [Hin Hp]. rewrite (Hl y Hin) in Hp. discriminate.
Qed.

Lemma existsb_none {A} (p : A -> bool) (l : list A) :
  (forall x, In x l -> p x = false) -> existsb p l = false.
Proof.
  intros Hl. destruct (existsb p l) eqn:E; [|reflexivity].
  apply existsb_exists in E as (x & Hin & Hp). rewrite (Hl x Hin) in Hp. discriminate.
Qed.

(** X23. A registration creates the identity and then fails.  For an
    email no identity has, with the store answering, [registerUser] adds
    the identity at the end of the table, with the password hash, the
    hash of the verification token and the email not verified, and then
    throws the plain [Error] of [jwt.sign] at the token generation: no
    token is issued and no verification mail is sent.  The identity
    stays: a later registration with an email that the repository reads
    as the same throws ConflictError and writes nothing. *)
Theorem registerUser_creates_then_throws env data v hp w :
  UserRepository.validateEmail (AuthService.reg_email data) = Ok v ->
  db_reads_ok env = true -> db_writes_ok env = true ->
  (forall x, In x (users w) -> email x <> v /\ id x <> new_user_id env) ->
  PasswordService.hash (AuthService.reg_password data) = Ok hp ->
  new_user_id env <> "" ->
  exists u w',
    AuthService.registerUser config env data w = (Throw (JsError Jwt.bad_expiresIn), w')
    /\ users w' = (users w ++ [u])%list
    /\ identity u = (new_user_id env, v, local)
    /\ password u = Some hp
    /\ isEmailVerified u = false
    /\ emailVerificationToken u = Some (TokenService.hashToken (random_token env))
    /\ refreshToken u = None
    /\ kv w' = kv w /\ outbox w' = outbox w
    /\ forall env' data',
         db_reads_ok env' = true ->
         UserRepository.validateEmail (AuthService.reg_email data') = Ok v ->
         AuthService.registerUser config env' data' w' = (Throw ConflictError, w').
Proof.
  intros Hv Hr Hw Hnew Hhp Hid.
  unfold AuthService.registerUser, bind.
  rewrite (findByEmail_ok env _ v w Hv Hr), find_none_all.
  2:{ intros x Hx. apply String.eqb_neq. exact (proj1 (Hnew x Hx)). }
  unfold lift at 1. rewrite Hhp.
  unfold UserRepository.create, bind. cbn [new_email new_googleId].
  rewrite (validateEmail_nonempty _ _ Hv). unfold lift at 1. rewrite Hv, Hw. cbn [negb].
  rewrite existsb_none.
  2:{ intros x Hx. destruct (Hnew x Hx) as [He Hi].
      apply String.eqb_neq in He, Hi. now rewrite He, Hi. }
  cbn [UserRepository.sanitizeGoogleId UserRepository.googleId_taken orb].
  rewrite generateTokens_throws. cbn [id].
  apply String.eqb_neq in Hid. rewrite Hid.
  eexists _, _. split; [reflexivity|]. cbn [users set_users kv outbox].
  repeat (split; [reflexivity|]).
  intros env' data' Hr' Hv'. unfold AuthService.registerUser, bind.
  rewrite (findByEmail_ok env' _ v _ Hv' Hr'). cbn [users set_users].
  match goal with
  | |- context [find ?p (users w ++ [?u])] =>
      destruct (find_exists p (users w ++ [u]) u) as [y ->]
  end; [apply in_or_app; right; now left | cbn [email]; apply String.eqb_refl | reflexivity].
Qed.


End Registration.

Lemma emails_stay_unique_witness :
  NoDup (map Schema.email
           (users (run (H := Demo.primitives) Demo.config demo_env
                     (Register {| AuthService.reg_email := "c@d.com";
                                  AuthService.reg_password := "Garden4me";
                                  AuthService.reg_firstName := None;
                                  AuthService.reg_lastName := None |})
                     alice_world))).
Proof.
  apply (emails_stay_unique (H := Demo.primitives) Demo.config demo_env).
  cbn. apply NoDup_singleton.
Defined.

Lemma registerUser_creates_then_throws_witness :
  fst (AuthService.registerUser (H := Demo.primitives) Demo.config demo_env
         {| AuthService.reg_email := "c@d.com"; AuthService.reg_password := "Garden4me";
            AuthService.reg_firstName := None; AuthService.reg_lastName := None |}
         alice_world)
  = Throw (JsError Jwt.bad_expiresIn)
  /\ List.length
       (users (snd (AuthService.registerUser (H := Demo.primitives) Demo.config demo_env
                      {| AuthService.reg_email := "c@d.com";
                         AuthService.reg_password := "Garden4me";
                         AuthService.reg_firstName := None;
                         AuthService.reg_lastName := None |}
                      alice_world)))
     = 2%nat.
Proof.
  destruct (registerUser_creates_then_throws (H := Demo.primitives) Demo.config demo_env
              {| AuthService.reg_email := "c@d.com"; AuthService.reg_password := "Garden4me";
                 AuthService.reg_firstName := None; AuthService.reg_lastName := None |}
              "c@d.com" "argon2:Garden4me" alice_world)
    as (u & w' & E & Hus & _); try (vm_compute; reflexivity).
  - intros x [<-|[]]. split; discriminate.
  - discriminate.
  - rewrite E. cbn [fst snd]. rewrite Hus. split; reflexivity.
Defined.

(** ** The canonical form of ids and emails *)
Section CanonicalForms.
Import Schema UserRepository.

Lemma chars_of_list (l : list ascii) : Js.chars (string_of_list_ascii l) = l.
Proof. apply list_ascii_of_string_of_list_ascii. Qed.

Lemma of_chars (s : string) : string_of_list_ascii (Js.chars s) = s.
Proof. apply string_of_list_ascii_of_string. Qed.

Lemma chars_inj (a b : string) : Js.chars a = Js.chars b -> a = b.
Proof.
  intros Hab. apply (f_equal string_of_list_ascii) in Hab. now rewrite !of_chars in Hab.
Qed.

(** *** The characters of a string *)

Lemma code_points_cons (c : ascii) (rest : list ascii) :
  Js.code_points (c :: rest)
  = match rest, Js.code_points rest with
    | d :: _, g :: gs => if Js.is_continuation d then (c :: g) :: gs
                         else [c] :: g :: gs
    | _, gs => [c] :: gs
    end.
Proof.
  destruct rest as [|d rest]; [reflexivity|].
  assert (E : Js.code_points (c :: d :: rest)
              = match Js.code_points (d :: rest) with
                | g :: gs' => if Js.is_continuation d then (c :: g) :: gs'
                              else [c] :: Js.code_points (d :: rest)
                | [] => [c] :: Js.code_points (d :: rest)
                end) by reflexivity.
  rewrite E. now destruct (Js.code_points (d :: rest)).
Qed.

Lemma code_points_nonempty (c : ascii) (rest : list ascii) :
  exists g gs, Js.code_points (c :: rest) = (c :: g) :: gs.
Proof.
  rewrite code_points_cons. destruct rest as [|d rest]; [now exists [], []|].
  destruct (Js.code_points (d :: rest)) as [|g gs]; [now exists [], []|].
  destruct (Js.is_continuation d); eauto.
Qed.

Lemma concat_code_points (l : list ascii) : concat (Js.code_points l) = l.
Proof.
  induction l as [|c rest IH]; [reflexivity|]. rewrite code_points_cons.
  destruct rest as [|d rest]; [reflexivity|].
  destruct (Js.code_points (d :: rest)) as [|g gs]; [discriminate IH|].
  destruct (Js.is_continuation d); cbn [concat app] in *; now rewrite IH.
Qed.

Lemma ascii_not_continuation (c : ascii) :
  Js.is_ascii c = true -> Js.is_continuation c = false.
Proof. destruct c as [[] [] [] [] [] [] [] []]; vm_compute; congruence. Qed.

Lemma code_points_ascii (l : list ascii) :
  forallb Js.is_ascii l = true -> Js.code_points l = map (fun c => [c]) l.
Proof.
  induction l as [|c rest IH]; [reflexivity|]. cbn [forallb].
  intros [_ Hrest]%andb_true_iff. rewrite code_points_cons.
  destruct rest as [|d rest]; [reflexivity|]. rewrite (IH Hrest). cbn [map].
  cbn [forallb] in Hrest. apply andb_true_iff in Hrest as [Hd _].
  now rewrite (ascii_not_continuation d Hd).
Qed.

Lemma concat_singletons {A} (l : list A) : concat (map (fun c => [c]) l) = l.
Proof. induction l as [|c l IH]; [reflexivity|]. cbn. now rewrite IH. Qed.

(** The bytes after the first of a character are continuation bytes. *)
Lemma code_points_tails (l : list ascii) :
  Forall (fun g => forallb Js.is_continuation (tl g) = true) (Js.code_points l).
Proof.
  induction l as [|c rest IH]; [constructor|]. rewrite code_points_cons.
  destruct rest as [|d rest]; [repeat constructor|].
  destruct (code_points_nonempty d rest) as (g & gs & E). rewrite E in *.
  apply List.Forall_cons_iff in IH as [Hg Hgs].
  destruct (Js.is_continuation d) eqn:Hd.
  - constructor; [|exact Hgs]. cbn [tl forallb] in *. now rewrite Hd.
  - constructor; [reflexivity|]. now constructor.
Qed.

(** *** Lower case *)

Lemma lower_char_single (c : ascii) : Js.lower_char [c] = [Js.to_lower_char c].
Proof. destruct c as [[] [] [] [] [] [] [] []]; vm_compute; reflexivity. Qed.

Lemma lower_char_cases (c : ascii) (continuation : list ascii) :
  Js.lower_char (c :: continuation) = ["k"%char]
  \/ Js.lower_char (c :: continuation) = ["i"%char; ascii_of_nat 204; ascii_of_nat 135]
  \/ Js.lower_char (c :: continuation) = Js.to_lower_char c :: continuation.
Proof.
  unfold Js.lower_char.
  destruct (_ =? 8490)%N; [auto|]. destruct (_ =? 304)%N; auto.
Qed.

Lemma toLowerCase_ascii (s : string) :
  forallb Js.is_ascii (Js.chars s) = true ->
  Js.chars (Js.toLowerCase s) = map Js.to_lower_char (Js.chars s).
Proof.
  intros Ha. unfold Js.toLowerCase. rewrite chars_of_list, (code_points_ascii _ Ha), map_map.
  erewrite map_ext; [|intros c; apply lower_char_single].
  rewrite <- (map_map Js.to_lower_char (fun c => [c])). apply concat_singletons.
Qed.

Lemma falsy_toLowerCase (s : string) : Js.falsy (Js.toLowerCase s) = Js.falsy s.
Proof.
  destruct s as [|c s]; [reflexivity|]. unfold Js.toLowerCase.
  change (Js.chars (String c s)) with (c :: Js.chars s).
  destruct (code_points_nonempty c (Js.chars s)) as (g & gs & ->). cbn [map concat].
  destruct (lower_char_cases c g) as [-> | [-> | ->]]; reflexivity.
Qed.

Lemma to_lower_char_idempotent (c : ascii) :
  Js.to_lower_char (Js.to_lower_char c) = Js.to_lower_char c.
Proof. destruct c as [[] [] [] [] [] [] [] []]; vm_compute; reflexivity. Qed.

Lemma to_lower_char_ascii (c : ascii) :
  Js.is_ascii (Js.to_lower_char c) = Js.is_ascii c.
Proof. destruct c as [[] [] [] [] [] [] [] []]; vm_compute; reflexivity. Qed.

Lemma is_uuid_char_to_lower (c : ascii) :
  is_uuid_char (Js.to_lower_char c) = is_uuid_char c.
Proof. destruct c as [[] [] [] [] [] [] [] []]; vm_compute; reflexivity. Qed.

Lemma is_uuid_char_ascii (c : ascii) : is_uuid_char c = true -> Js.is_ascii c = true.
Proof. destruct c as [[] [] [] [] [] [] [] []]; vm_compute; congruence. Qed.

Lemma is_hex_to_lower (c : ascii) : is_hex (Js.to_lower_char c) = is_hex c.
Proof. destruct c as [[] [] [] [] [] [] [] []]; vm_compute; reflexivity. Qed.

Lemma is_dash_to_lower (c : ascii) : is_char "-" (Js.to_lower_char c) = is_char "-" c.
Proof. destruct c as [[] [] [] [] [] [] [] []]; vm_compute; reflexivity. Qed.

Lemma is_four_to_lower (c : ascii) : is_char "4" (Js.to_lower_char c) = is_char "4" c.
Proof. destruct c as [[] [] [] [] [] [] [] []]; vm_compute; reflexivity. Qed.

Lemma is_variant_to_lower (c : ascii) :
  is_char "89abAB" (Js.to_lower_char c) = is_char "89abAB" c.
Proof. destruct c as [[] [] [] [] [] [] [] []]; vm_compute; reflexivity. Qed.

Lemma is_hex_uuid (c : ascii) : is_hex c = true -> is_uuid_char c = true.
Proof. unfold is_uuid_char. now intros ->. Qed.

Lemma is_dash_uuid (c : ascii) : is_char "-" c = true -> is_uuid_char c = true.
Proof. unfold is_uuid_char. intros ->. apply orb_true_r. Qed.

Lemma is_four_uuid (c : ascii) : is_char "4" c = true -> is_uuid_char c = true.
Proof. destruct c as [[] [] [] [] [] [] [] []]; vm_compute; congruence. Qed.

Lemma is_variant_uuid (c : ascii) : is_char "89abAB" c = true -> is_uuid_char c = true.
Proof. destruct c as [[] [] [] [] [] [] [] []]; vm_compute; congruence. Qed.

Lemma forallb_map_same {A} (q : A -> bool) (f : A -> A) (l : list A) :
  (forall c, q (f c) = q c) -> forallb q (map f l) = forallb q l.
Proof.
  intros Hq. induction l as [|c l IH]; [reflexivity|]. cbn. now rewrite Hq, IH.
Qed.

Lemma matches_map (f : ascii -> ascii) (pattern : list (ascii -> bool)) :
  Forall (fun p => forall c, p (f c) = p c) pattern ->
  forall l, matches pattern (map f l) = matches pattern l.
Proof.
  induction 1 as [|p pattern Hp _ IH]; intros [|c l]; cbn [map matches]; try reflexivity.
  now rewrite Hp, IH.
Qed.

Lemma matches_forallb (q : ascii -> bool) (pattern : list (ascii -> bool)) :
  Forall (fun p => forall c, p c = true -> q c = true) pattern ->
  forall l, matches pattern l = true -> forallb q l = true.
Proof.
  induction 1 as [|p pattern Hp _ IH]; intros [|c l]; cbn [matches forallb];
    try reflexivity; try discriminate.
  intros [Hc Hl]%andb_true_iff. now rewrite (Hp c Hc), (IH l Hl).
Qed.

Lemma uuidRegex_to_lower :
  Forall (fun p => forall c, p (Js.to_lower_char c) = p c) uuidRegex.
Proof.
  unfold uuidRegex. cbn [repeat app].
  repeat (constructor;
          [first [exact is_hex_to_lower | exact is_dash_to_lower
                 | exact is_four_to_lower | exact is_variant_to_lower]|]).
  constructor.
Qed.

Lemma uuidRegex_chars :
  Forall (fun p => forall c, p c = true -> is_uuid_char c = true) uuidRegex.
Proof.
  unfold uuidRegex. cbn [repeat app].
  repeat (constructor;
          [first [exact is_hex_uuid | exact is_dash_uuid
                 | exact is_four_uuid | exact is_variant_uuid]|]).
  constructor.
Qed.

(** A character that no UUID is written with stays one in lower
    case. *)
Lemma lower_char_foreign (g : list ascii) :
  forallb is_uuid_char g = false -> forallb is_uuid_char (Js.lower_char g) = false.
Proof.
  destruct g as [|c continuation]; [discriminate|].
  destruct (lower_char_cases c continuation) as [-> | [-> | ->]];
    [reflexivity | reflexivity |].
  cbn [forallb]. now rewrite is_uuid_char_to_lower.
Qed.

Lemma forallb_concat_false {A} (q : A -> bool) (f : list A -> list A) (gs : list (list A)) :
  (forall g, forallb q g = false -> forallb q (f g) = false) ->
  forallb q (concat gs) = false -> forallb q (concat (map f gs)) = false.
Proof.
  intros Hf. induction gs as [|g gs IH]; [discriminate|].
  cbn [concat map]. rewrite !forallb_app.
  destruct (forallb q g) eqn:Hg.
  - cbn [andb]. intros Hgs. rewrite (IH Hgs). apply andb_false_r.
  - intros _. now rewrite (Hf g Hg).
Qed.

Lemma validateUserId_toLowerCase (id : string) :
  validateUserId (Js.toLowerCase id) = validateUserId id.
Proof.
  unfold validateUserId. rewrite falsy_toLowerCase.
  destruct (Js.falsy id); [reflexivity|].
  destruct (forallb Js.is_ascii (Js.chars id)) eqn:Ha.
  - rewrite (toLowerCase_ascii id Ha), (matches_map _ _ uuidRegex_to_lower).
    destruct (matches uuidRegex (Js.chars id)); [|reflexivity].
    f_equal. apply chars_inj. rewrite toLowerCase_ascii.
    + rewrite (toLowerCase_ascii id Ha), map_map.
      apply map_ext, to_lower_char_idempotent.
    + now rewrite (toLowerCase_ascii id Ha), (forallb_map_same _ _ _ to_lower_char_ascii).
  - assert (Hforeign : forallb is_uuid_char (Js.chars id) = false).
    { destruct (forallb is_uuid_char (Js.chars id)) eqn:Hu; [|reflexivity].
      rewrite <- Ha. symmetry. apply forallb_forall. intros c Hc.
      rewrite forallb_forall in Hu. apply is_uuid_char_ascii, Hu, Hc. }
    assert (Hm : forall l, forallb is_uuid_char l = false -> matches uuidRegex l = false).
    { intros l Hl. destruct (matches uuidRegex l) eqn:Hmatch; [|reflexivity].
      rewrite (matches_forallb _ _ uuidRegex_chars l Hmatch) in Hl. discriminate. }
    rewrite (Hm _ Hforeign), Hm; [reflexivity|].
    unfold Js.toLowerCase. rewrite chars_of_list.
    apply forallb_concat_false; [exact lower_char_foreign|].
    now rewrite concat_code_points.
Qed.


(** X25. User ids are read without regard to case, and what
    [validateUserId] returns is a fixed point of it: an id and its
    lower-case form are accepted or refused together, with the same
    result, so [findById] answers the same for both. *)
Theorem findById_ignores_case (env : Env) (userId : string) (w : World) :
  findById env (Js.toLowerCase userId) w = findById env userId w
  /\ forall v, validateUserId userId = Ok v -> validateUserId v = Ok v.
Proof.
  split.
  - unfold findById, bind. now rewrite validateUserId_toLowerCase.
  - intros v Hv. assert (Hlow : v = Js.toLowerCase userId).
    { unfold validateUserId in Hv. destruct (Js.falsy userId); [discriminate|].
      destruct (matches _ _); [now injection Hv|discriminate]. }
    rewrite Hlow, validateUserId_toLowerCase, Hv. now rewrite Hlow.
Qed.

(** *** Emails *)

Lemma split_at_spec (p : ascii -> bool) (l a b : list ascii) :
  split_at p l = Some (a, b) -> exists c, l = (a ++ c :: b)%list /\ p c = true.
Proof.
  revert a. induction l as [|x l IH]; intros a; [discriminate|]. cbn [split_at].
  destruct (p x) eqn:Hx.
  - intros [= <- <-]. now exists x.
  - destruct (split_at p l) as [[a' b']|]; [|discriminate].
    intros [= <- <-]. destruct (IH a' eq_refl) as (c & -> & Hc). now exists c.
Qed.

Lemma is_local_char_email (c : ascii) : is_local_char c = true -> is_email_char c = true.
Proof. unfold is_email_char. now intros ->. Qed.

Lemma is_at_email (c : ascii) : is_char "@" c = true -> is_email_char c = true.
Proof. unfold is_email_char. intros ->. apply orb_true_r. Qed.

Lemma is_domain_char_email (c : ascii) : is_domain_char c = true -> is_email_char c = true.
Proof. destruct c as [[] [] [] [] [] [] [] []]; vm_compute; congruence. Qed.

Lemma is_dot_email (c : ascii) : is_char "." c = true -> is_email_char c = true.
Proof. destruct c as [[] [] [] [] [] [] [] []]; vm_compute; congruence. Qed.

Lemma is_letter_email (c : ascii) : is_letter c = true -> is_email_char c = true.
Proof. destruct c as [[] [] [] [] [] [] [] []]; vm_compute; congruence. Qed.

Lemma is_email_char_ascii (c : ascii) : is_email_char c = true -> Js.is_ascii c = true.
Proof. destruct c as [[] [] [] [] [] [] [] []]; vm_compute; congruence. Qed.

Lemma is_local_char_not_space (c : ascii) :
  is_local_char c = true -> Js.is_space (Js.code_point [c]) = false.
Proof. destruct c as [[] [] [] [] [] [] [] []]; vm_compute; congruence. Qed.

Lemma is_letter_not_space (c : ascii) :
  is_letter c = true -> Js.is_space (Js.code_point [c]) = false.
Proof. destruct c as [[] [] [] [] [] [] [] []]; vm_compute; congruence. Qed.

Lemma forallb_Forall {A} (q : A -> bool) (l : list A) :
  forallb q l = true <-> Forall (fun c => q c = true) l.
Proof.
  rewrite forallb_forall, List.Forall_forall. reflexivity.
Qed.

(** An email that [emailRegex] accepts starts with a character of the
    local part, ends with a letter, and is written with the characters
    of the pattern. *)
Lemma emailRegex_shape (s : string) :
  emailRegex s = true ->
  exists a middle z,
    Js.chars s = (a :: middle ++ [z])%list
    /\ is_local_char a = true /\ is_letter z = true
    /\ forallb is_email_char (Js.chars s) = true.
Proof.
  unfold emailRegex.
  destruct (split_at (is_char "@") (Js.chars s)) as [[local_part rest]|] eqn:E1;
    [|discriminate].
  destruct (split_at (is_char ".") (rev rest)) as [[tld_rev domain_rev]|] eqn:E2;
    [|discriminate].
  intros Hre. apply andb_true_iff in Hre as [Hre Htld].
  apply andb_true_iff in Hre as [Hre Hlen].
  apply andb_true_iff in Hre as [Hlocal Hdomain].
  apply split_at_spec in E1 as (c1 & Hl & Hc1).
  apply split_at_spec in E2 as (c2 & Hr & Hc2).
  apply (f_equal (@rev ascii)) in Hr. rewrite rev_involutive in Hr.
  unfold nonempty_all in Hlocal, Hdomain.
  apply andb_true_iff in Hlocal as [Hlocal_ne Hlocal].
  apply andb_true_iff in Hdomain as [_ Hdomain].
  destruct local_part as [|a local_part]; [discriminate|].
  destruct tld_rev as [|z tld_rev]; [discriminate|].
  cbn [forallb] in Hlocal, Htld.
  apply andb_true_iff in Hlocal as [Ha Hlocal].
  apply andb_true_iff in Htld as [Hz Htld].
  cbn [app rev] in Hr. rewrite Hr in Hl.
  exists a, (local_part ++ c1 :: rev (tld_rev ++ c2 :: domain_rev))%list, z.
  split; [rewrite Hl; cbn [app]; now rewrite <- app_assoc|].
  split; [exact Ha|]. split; [exact Hz|].
  rewrite Hl. cbn [app]. apply forallb_Forall.
  apply forallb_Forall in Hlocal, Htld, Hdomain.
  constructor; [exact (is_local_char_email a Ha)|].
  apply List.Forall_app. split.
  { exact (List.Forall_impl _ is_local_char_email Hlocal). }
  constructor; [exact (is_at_email c1 Hc1)|].
  apply List.Forall_app. split.
  - apply List.Forall_rev, List.Forall_app. split.
    + exact (List.Forall_impl _ is_letter_email Htld).
    + constructor; [exact (is_dot_email c2 Hc2)|].
      exact (List.Forall_impl _ is_domain_char_email Hdomain).
  - constructor; [exact (is_letter_email z Hz)|constructor].
Qed.

Lemma to_lower_char_not_upper (c : ascii) : Js.is_upper (Js.to_lower_char c) = false.
Proof. destruct c as [[] [] [] [] [] [] [] []]; vm_compute; reflexivity. Qed.

Lemma continuation_not_upper (c : ascii) :
  Js.is_continuation c = true -> Js.is_upper c = false.
Proof. destruct c as [[] [] [] [] [] [] [] []]; vm_compute; congruence. Qed.

Lemma to_lower_char_fixed (c : ascii) : Js.is_upper c = false -> Js.to_lower_char c = c.
Proof. unfold Js.to_lower_char. now intros ->. Qed.

Lemma map_to_lower_fixed (l : list ascii) :
  Forall (fun c => Js.is_upper c = false) l -> map Js.to_lower_char l = l.
Proof.
  induction 1 as [|c l Hc _ IH]; [reflexivity|]. cbn [map].
  now rewrite (to_lower_char_fixed c Hc), IH.
Qed.

Lemma lower_char_no_upper (g : list ascii) :
  forallb Js.is_continuation (tl g) = true ->
  Forall (fun c => Js.is_upper c = false) (Js.lower_char g).
Proof.
  destruct g as [|c continuation]; [constructor|]. cbn [tl]. intros Hc.
  destruct (lower_char_cases c continuation) as [-> | [-> | ->]].
  - repeat constructor.
  - repeat constructor.
  - constructor; [apply to_lower_char_not_upper|].
    apply forallb_Forall in Hc. exact (List.Forall_impl _ continuation_not_upper Hc).
Qed.

Lemma Forall_concat_iff {A} (P : A -> Prop) (gs : list (list A)) :
  Forall P (concat gs) <-> Forall (Forall P) gs.
Proof.
  induction gs as [|g gs IH]; cbn [concat].
  - split; constructor.
  - rewrite List.Forall_app, List.Forall_cons_iff, IH. reflexivity.
Qed.

Lemma Forall_drop_space (Q : list ascii -> Prop) (gs : list (list ascii)) :
  Forall Q gs -> Forall Q (Js.drop_space gs).
Proof.
  induction 1 as [|g gs Hg Hgs IH]; [constructor|]. cbn [Js.drop_space].
  destruct (Js.is_space _); [exact IH|now constructor].
Qed.

(** No capital ASCII letter is left in a lower-cased string, nor in
    what [trim] keeps of it. *)
Lemma toLowerCase_no_upper (s : string) :
  Forall (fun c => Js.is_upper c = false) (Js.chars (Js.toLowerCase s)).
Proof.
  unfold Js.toLowerCase. rewrite chars_of_list. apply Forall_concat_iff.
  apply List.Forall_forall. intros x [g [<- Hg]]%in_map_iff.
  apply lower_char_no_upper.
  pose proof (code_points_tails (Js.chars s)) as Ht.
  rewrite List.Forall_forall in Ht. exact (Ht g Hg).
Qed.

Lemma trim_keeps (P : ascii -> Prop) (s : string) :
  Forall P (Js.chars s) -> Forall P (Js.chars (Js.trim s)).
Proof.
  intros Hs. unfold Js.trim. rewrite chars_of_list. apply Forall_concat_iff.
  apply List.Forall_rev, Forall_drop_space, List.Forall_rev, Forall_drop_space.
  apply Forall_concat_iff. now rewrite concat_code_points.
Qed.

(** The email the repository stores is in canonical form: validated
    again it is returned as it is. *)
Lemma validateEmail_idempotent (email v : string) :
  validateEmail email = Ok v -> validateEmail v = Ok v.
Proof.
  unfold validateEmail at 1. destruct (Js.falsy email); [discriminate|].
  cbv zeta. set (s := Js.trim (Js.toLowerCase email)).
  destruct (emailRegex s && (Js.length s <=? 255)%nat) eqn:Hre; [|discriminate].
  intros [= <-].
  pose proof Hre as Hrx. apply andb_true_iff in Hrx as [Hrx _].
  destruct (emailRegex_shape s Hrx) as (a & middle & z & Hchars & Ha & Hz & Hall).
  assert (Hascii : forallb Js.is_ascii (Js.chars s) = true).
  { apply forallb_Forall. apply forallb_Forall in Hall.
    exact (List.Forall_impl _ is_email_char_ascii Hall). }
  assert (Hlow : Js.toLowerCase s = s).
  { apply chars_inj. rewrite (toLowerCase_ascii s Hascii).
    apply map_to_lower_fixed. exact (trim_keeps _ _ (toLowerCase_no_upper email)). }
  assert (Htrim : Js.trim s = s).
  { apply chars_inj. unfold Js.trim. rewrite chars_of_list, (code_points_ascii _ Hascii).
    rewrite Hchars. cbn [map Js.drop_space]. rewrite (is_local_char_not_space a Ha).
    change ([a] :: map (fun c => [c]) (middle ++ [z]))
      with (map (fun c : ascii => [c]) (a :: middle ++ [z])).
    rewrite app_comm_cons, map_app, rev_app_distr. cbn [map rev app Js.drop_space].
    rewrite (is_letter_not_space z Hz). cbn [rev].
    rewrite rev_app_distr, rev_involutive. cbn [rev app].
    cbn [concat app]. rewrite concat_app. cbn [concat app].
    now rewrite concat_singletons. }
  unfold validateEmail. replace (Js.falsy s) with false.
  - cbv zeta. now rewrite Hlow, Htrim, Hre.
  - symmetry. apply String.eqb_neq. intros Hs. rewrite Hs in Hchars. discriminate.
Qed.

Lemma find_last {A} (p : A -> bool) (l : list A) (u : A) :
  (forall x, In x l -> p x = false) -> p u = true -> find p (l ++ [u]) = Some u.
Proof.
  intros Hl Hu. induction l as [|a l IH]; cbn [app find].
  - now rewrite Hu.
  - rewrite (Hl a (or_introl eq_refl)). apply IH. intros x Hx. apply Hl. now right.
Qed.

(** What a creation that returned has stored: one row at the end of the
    table, with the validated email, which no earlier row has. *)
Lemma create_ok_inv env (d : NewUser) w u w' :
  create env d w = (Ok u, w') ->
  Js.falsy (new_email d) = false ->
  validateEmail (new_email d) = Ok (email u)
  /\ users w' = (users w ++ [u])%list
  /\ find (fun x => String.eqb (email x) (email u)) (users w') = Some u
  /\ authProvider u = new_authProvider d
  /\ password u = new_password d
  /\ googleId u = sanitizeGoogleId (new_googleId d).
Proof.
  intros Hc Hf. unfold create, bind in Hc.
  rewrite Hf in Hc. unfold lift in Hc.
  destruct (validateEmail (new_email d)) as [v|] eqn:Ev; [|discriminate].
  destruct (negb (db_writes_ok env)); [discriminate|].
  destruct (existsb _ (users w) || _) eqn:Ex; [discriminate|].
  apply orb_false_iff in Ex as [Ex _].
  injection Hc as <- <-. cbn [email users set_users authProvider password googleId].
  repeat split.
  apply find_last; [|cbn [email]; apply String.eqb_refl].
  intros x Hx. destruct (String.eqb (email x) v) eqn:E; [|reflexivity].
  match type of Ex with
  | existsb ?f _ = false => assert (Ht : existsb f (users w) = true)
  end.
  { apply existsb_exists. exists x. split; [exact Hx|]. now rewrite E. }
  congruence.
Qed.

(** X26. What [create] stores, [findByEmail] finds.  After a creation
    that returned, the email stored is what [validateEmail] makes of the
    email given (lower case, no white space around it), and it is a
    fixed point of [validateEmail]; a lookup with any email that
    [validateEmail] reads as the stored one, so the email as it was
    given, the stored email, and any other casing of it with any white
    space around it, returns the identity created. *)
Theorem create_then_findByEmail env (d : NewUser) w u w' env' :
  create env d w = (Ok u, w') ->
  new_email d <> "" ->
  db_reads_ok env' = true ->
  validateEmail (new_email d) = Ok (email u)
  /\ validateEmail (email u) = Ok (email u)
  /\ forall e, validateEmail e = Ok (email u) ->
               findByEmail env' e w' = (Ok (Some u), w').
Proof.
  intros Hc Hne Hr.
  assert (Hf : Js.falsy (new_email d) = false).
  { unfold Js.falsy. now apply String.eqb_neq. }
  destruct (create_ok_inv _ _ _ _ _ Hc Hf) as (Ev & _ & Hfind & _).
  split; [exact Ev|]. split; [exact (validateEmail_idempotent _ _ Ev)|].
  intros e He. now rewrite (findByEmail_ok env' _ _ _ He Hr), Hfind.
Qed.

Section GoogleIdentity.

(** X27. A Google identity is created once.  When
    [findOrCreateGoogleUser] has created an identity for a profile, the
    identity has the provider google, no password hash and the Google id
    of the profile; a later call with the same profile returns that
    same identity with isNewUser=false and writes nothing. *)
Theorem google_identity_created_once env profile w u w' env' :
  OAuthService.findOrCreateGoogleUser env profile w = (Ok (u, true), w') ->
  OAuthService.no_googleId u = false ->
  db_reads_ok env' = true ->
  authProvider u = google /\ password u = None
  /\ googleId u = sanitizeGoogleId (Some (OAuthService.profile_id profile))
  /\ OAuthService.findOrCreateGoogleUser env' profile w' = (Ok (u, false), w').
Proof.
  intros Hfirst Hgid Hr. unfold OAuthService.findOrCreateGoogleUser, bind in Hfirst.
  destruct (findByEmail env (OAuthService.profile_email profile) w)
    as [[found|e] w0] eqn:Ef; [|discriminate].
  assert (Hf : Js.falsy (OAuthService.profile_email profile) = false).
  { unfold findByEmail, bind, lift in Ef.
    destruct (validateEmail _) eqn:Ev; [|discriminate].
    exact (validateEmail_nonempty _ _ Ev). }
  destruct found as [x|].
  { exfalso. revert Hfirst.
    destruct (OAuthService.no_googleId x && AuthProvider_eqb (authProvider x) google);
      [|unfold ret; discriminate].
    destruct (update env (id x) _ w0) as [[o|e] w1]; unfold ret; discriminate. }
  apply keeps_findByEmail in Ef as Hsame.
  destruct (create env _ w0) as [[u0|e] w1] eqn:Ec; [|discriminate].
  unfold ret in Hfirst. injection Hfirst as -> ->.
  destruct (create_ok_inv _ _ _ _ _ Ec Hf) as (Ev & _ & Hfind & Hp & Hpw & Hg).
  cbn [new_email new_authProvider new_password new_googleId] in Ev, Hp, Hpw, Hg.
  repeat split; try assumption.
  unfold OAuthService.findOrCreateGoogleUser, bind.
  rewrite (findByEmail_ok env' _ _ _ Ev Hr), Hfind, Hgid. reflexivity.
Qed.

End GoogleIdentity.

End CanonicalForms.

Lemma findById_ignores_case_witness :
  UserRepository.validateUserId "1b9d6bcd-bbfd-4b2d-9b5d-ab8dfbbd4bed"
  = Ok "1b9d6bcd-bbfd-4b2d-9b5d-ab8dfbbd4bed".
Proof.
  apply (proj2 (findById_ignores_case demo_env "1B9D6BCD-BBFD-4B2D-9B5D-AB8DFBBD4BED"
                  alice_world)).
  vm_compute. reflexivity.
Defined.

Lemma create_then_findByEmail_witness :
  match fst (UserRepository.create demo_env carol alice_world) with
  | Ok u =>
      UserRepository.findByEmail (env_at 4000000) ("CAROL@d.COM" +:+ no_break_space)
        (snd (UserRepository.create demo_env carol alice_world))
      = (Ok (Some u), snd (UserRepository.create demo_env carol alice_world))
  | Throw _ => False
  end.
Proof.
  destruct (UserRepository.create demo_env carol alice_world) as [[u|e] w'] eqn:E;
    cbn [fst snd].
  - apply (create_then_findByEmail demo_env carol alice_world u w' (env_at 4000000) E).
    + discriminate.
    + reflexivity.
    + vm_compute in E. injection E as <- _. vm_compute. reflexivity.
  - vm_compute in E. discriminate.
Defined.

Lemma google_identity_created_once_witness :
  match fst (OAuthService.findOrCreateGoogleUser demo_env google_profile empty_world) with
  | Ok (u, _) =>
      OAuthService.findOrCreateGoogleUser (env_at 4000000) google_profile
        (snd (OAuthService.findOrCreateGoogleUser demo_env google_profile empty_world))
      = (Ok (u, false),
         snd (OAuthService.findOrCreateGoogleUser demo_env google_profile empty_world))
  | Throw _ => False
  end.
Proof.
  destruct (OAuthService.findOrCreateGoogleUser demo_env google_profile empty_world)
    as [[[u isNew]|e] w'] eqn:E; cbn [fst snd].
  - assert (HisNew : isNew = true).
    { vm_compute in E. now injection E. }
    subst isNew.
    apply (google_identity_created_once demo_env google_profile empty_world u w'
             (env_at 4000000) E); [|reflexivity].
    vm_compute in E. injection E as <- _. reflexivity.
  - vm_compute in E. discriminate.
Defined.

(** ** The password-reset link *)
Section PasswordReset.
Context `{Primitives}.
Import Schema.

Lemma findUserByToken_reset_inv env token w u w' :
  AuthService.findUserByToken env token AuthService.reset w = (Ok u, w') ->
  w' = w /\ In u (users w)
  /\ passwordResetToken u = Some (TokenService.hashToken token).
Proof.
  unfold AuthService.findUserByToken. destruct (Js.falsy token); [discriminate|].
  unfold bind, UserRepository.findByPasswordResetToken.
  destruct (Js.falsy (TokenService.hashToken token)); [discriminate|].
  match goal with
  | |- context [UserRepository.select ?e ?c w] =>
      destruct (UserRepository.select e c w) as [[found|err] w0] eqn:Ef
  end; [|discriminate].
  apply select_inv in Ef as [-> [Ef|Ef]]; [discriminate|].
  injection Ef as ->.
  match goal with
  | |- context [find ?c (users w)] => destruct (find c (users w)) as [x|] eqn:Efind
  end; [|discriminate].
  apply find_some in Efind as [Hin Hm].
  apply andb_true_iff in Hm as [Hm _].
  destruct (passwordResetExpires x) as [t0|]; [|discriminate].
  destruct (t0 <? now env); [discriminate|].
  unfold ret. intros [= <- <-]. repeat split; [exact Hin|].
  unfold UserRepository.opt_eqb in Hm.
  destruct (passwordResetToken x) as [y|]; [|discriminate].
  apply String.eqb_eq in Hm. now subst y.
Qed.

(** When no row holds the hash of the token, the reset is refused. *)
Lemma resetPassword_refused env token newPassword w :
  db_reads_ok env = true ->
  (forall x, In x (users w) ->
             passwordResetToken x <> Some (TokenService.hashToken token)) ->
  AuthService.resetPassword env token newPassword w = (Throw InvalidTokenError, w).
Proof.
  intros Hr Hnone. unfold AuthService.resetPassword, bind, AuthService.findUserByToken.
  destruct (Js.falsy token); [reflexivity|].
  unfold bind, UserRepository.findByPasswordResetToken.
  destruct (Js.falsy (TokenService.hashToken token)); [reflexivity|].
  unfold UserRepository.select. rewrite Hr.
  match goal with
  | |- context [find ?c (users w)] => destruct (find c (users w)) as [x|] eqn:Efind
  end; [|reflexivity].
  exfalso. apply find_some in Efind as [Hin Hm].
  apply andb_true_iff in Hm as [Hm _].
  unfold UserRepository.opt_eqb in Hm.
  destruct (passwordResetToken x) as [y|] eqn:Ey; [|discriminate].
  apply String.eqb_eq in Hm. subst y. exact (Hnone x Hin Ey).
Qed.

(** X28. A reset link works once.  After [resetPassword] has returned
    for a token that one identity held, the identity has no reset token
    and is not locked, and a second [resetPassword] with the same token
    throws InvalidTokenError and writes nothing. *)
Theorem reset_token_is_spent env token newPassword w w' env' newPassword' :
  AuthService.resetPassword env token newPassword w = (Ok tt, w') ->
  Forall (fun u => UserRepository.validateUserId (id u) = Ok (id u)) (users w) ->
  (forall x y, In x (users w) -> In y (users w) ->
               passwordResetToken x = Some (TokenService.hashToken token) ->
               passwordResetToken y = Some (TokenService.hashToken token) ->
               id x = id y) ->
  db_reads_ok env' = true ->
  (exists u, In u (users w)
             /\ passwordResetToken u = Some (TokenService.hashToken token)
             /\ forall x, In x (users w') -> id x = id u ->
                          passwordResetToken x = None /\ lockedUntil x = None
                          /\ loginAttempts x = 0
                          /\ PasswordService.hash newPassword = Ok (default "" (password x)))
  /\ AuthService.resetPassword env' token newPassword' w' = (Throw InvalidTokenError, w').
Proof.
  intros Hreset Hcanon Hone Hr.
  unfold AuthService.resetPassword, bind in Hreset.
  destruct (AuthService.findUserByToken env token AuthService.reset w)
    as [[u|e] w0] eqn:Ef; [|discriminate].
  apply findUserByToken_reset_inv in Ef as (-> & Hin & Htok).
  unfold lift at 1 in Hreset.
  destruct (PasswordService.hash newPassword) as [hp|] eqn:Eh; [|discriminate].
  destruct (UserRepository.update env (id u) _ w) as [[o|e] w1] eqn:Eu; [|discriminate].
  apply update_ok_users in Eu as (vid & Hvid & Hus).
  rewrite List.Forall_forall in Hcanon. rewrite (Hcanon u Hin) in Hvid. injection Hvid as <-.
  destruct (sendEmailSafe_returns env (PasswordChangedEmail (email u)) w1)
    as (w2 & Hs & Hus2).
  rewrite Hs in Hreset. injection Hreset as <-.
  assert (Hrows : forall x, In x (users w2) ->
            (id x = id u /\ passwordResetToken x = None /\ lockedUntil x = None
             /\ loginAttempts x = 0 /\ password x = Some hp)
            \/ (id x <> id u /\ In x (users w))).
  { intros x Hx. rewrite Hus2, Hus in Hx. apply in_map_iff in Hx as (y & <- & Hy).
    destruct (String.eqb (id y) (id u)) eqn:E.
    - left. apply String.eqb_eq in E. rewrite <- E. now destruct y.
    - right. apply String.eqb_neq in E. auto. }
  split.
  - exists u. split; [exact Hin|]. split; [exact Htok|].
    intros x Hx Hid.
    destruct (Hrows x Hx) as [(_ & Hn & Hl & Ha & Hp)|[Hne _]]; [|contradiction].
    rewrite Hp. auto.
  - apply resetPassword_refused; [exact Hr|].
    intros x Hx Hx'. destruct (Hrows x Hx) as [(_ & Hnone & _)|[Hne Hin']].
    + congruence.
    + apply Hne. exact (Hone x u Hin' Hin Hx' Htok).
Qed.




End PasswordReset.

Lemma reset_token_is_spent_witness :
  AuthService.resetPassword (H := Demo.primitives) (env_at 4000000) "tok-1" "An0therPass"
    (snd (AuthService.resetPassword (H := Demo.primitives) demo_env "tok-1" "N3wPassw0rd"
            alice_reset_world))
  = (Throw InvalidTokenError,
     snd (AuthService.resetPassword (H := Demo.primitives) demo_env "tok-1" "N3wPassw0rd"
            alice_reset_world)).
Proof.
  destruct (AuthService.resetPassword (H := Demo.primitives) demo_env "tok-1" "N3wPassw0rd"
              alice_reset_world) as [[[]|e] w'] eqn:E; cbn [snd].
  - apply (reset_token_is_spent (H := Demo.primitives) demo_env "tok-1" "N3wPassw0rd"
             alice_reset_world w' (env_at 4000000) "An0therPass" E).
    + repeat constructor.
    + intros x y [<-|[]] [<-|[]] _ _. reflexivity.
    + reflexivity.
  - exfalso. vm_compute in E. discriminate.
Defined.



(** ** Where a login ends *)
Section SessionSoundness.
Context `{Primitives}.
Variable config : TokenService.TokenServiceConfig.
Import Schema.

(** X30. [loginUser] never returns a session.  Every path of it ends
    in an error; the path of the right password of a local identity
    that is not locked ends at the token generation, with the plain
    [Error] of [jwt.sign], before anything is written: the failure
    counter is not reset and no refresh token is stored. *)
Theorem loginUser_never_returns env data w :
  (exists e w', AuthService.loginUser config env data w = (Throw e, w'))
  /\ (forall v u h,
        UserRepository.validateEmail (AuthService.login_email data) = Ok v ->
        db_reads_ok env = true ->
        find (fun x => String.eqb (email x) v) (users w) = Some u ->
        authProvider u = local ->
        (forall t, lockedUntil u = Some t -> t <= now env) ->
        password u = Some h -> Js.falsy h = false ->
        PasswordService.compare (AuthService.login_password data) h = Ok true ->
        id u <> "" ->
        AuthService.loginUser config env data w = (Throw (JsError Jwt.bad_expiresIn), w)).
Proof.
  split.
  - unfold AuthService.loginUser, bind.
    destruct (UserRepository.findByEmail env _ w) as [[found|e] w0]; [|eauto].
    destruct found as [u|]; [|unfold throw; eauto].
    destruct (AuthProvider_eqb (authProvider u) google); [unfold throw; eauto|].
    destruct (AuthService.checkAccountStatus env u w0) as [[[]|e] w1]; [|eauto].
    destruct (AuthService.no_password u); [unfold throw; eauto|].
    unfold lift at 1.
    destruct (PasswordService.compare _ _) as [[]|e]; cbn [negb]; [| |eauto].
    + rewrite generateTokens_throws. eauto.
    + destruct (AuthService.handleFailedLogin env (id u) w1) as [[[]|e] w2];
        unfold throw; eauto.
  - intros v u h Hv Hr Hfind Hlocal Hlock Hpw Hh Hcmp Hid.
    unfold AuthService.loginUser, bind.
    rewrite (findByEmail_ok env _ v w Hv Hr), Hfind, Hlocal. cbn [AuthProvider_eqb].
    assert (Hs : AuthService.checkAccountStatus env u w = (Ok tt, w)).
    { unfold AuthService.checkAccountStatus.
      destruct (lockedUntil u) as [t|]; [|reflexivity].
      specialize (Hlock t eq_refl).
      destruct (Z.ltb_spec (now env) t); [lia|reflexivity]. }
    rewrite Hs. unfold AuthService.no_password. rewrite Hpw, Hh.
    change (default "" (Some h)) with h. unfold lift at 1. rewrite Hcmp. cbn [negb].
    rewrite generateTokens_throws. apply String.eqb_neq in Hid. now rewrite Hid.
Qed.

End SessionSoundness.

Lemma loginUser_never_returns_witness :
  AuthService.loginUser (H := Demo.primitives) Demo.config demo_env
    {| AuthService.login_email := "a@b.com"; AuthService.login_password := "Str0ngP@ss1" |}
    alice_world
  = (Throw (JsError Jwt.bad_expiresIn), alice_world).
Proof.
  apply (proj2 (loginUser_never_returns (H := Demo.primitives) Demo.config demo_env
                  {| AuthService.login_email := "a@b.com";
                     AuthService.login_password := "Str0ngP@ss1" |} alice_world)
           "a@b.com" alice "argon2:Str0ngP@ss1");
    try (vm_compute; reflexivity); discriminate.
Defined.
